(** * ROMuLess: language classification, keep/move policy and relocation

    A shallow embedding of [ROMuLess.py] and the properties of its
    classification-and-reconciliation engine.

    Conventions of the embedding.
    - A Python [str] is a list of Unicode code points ([pystr]).
    - A path is the list of its components; [os.path.join] is list
      concatenation, [os.path.dirname]/[basename] split off the last
      component.  Paths are POSIX, case-sensitive and free of symbolic
      links, [.] and [..].
    - The file system is a finite map from absolute paths to nodes.
    - Code that raises, and loops that need a bound in Rocq, live in a
      state-and-exception monad [M] whose results are [Ok], [Raise] or
      [OutOfFuel]; the latter is shown never to happen.
    - What Python and the operating system decide (Unicode tables, the
      order of a directory listing) is gathered in the class [Runtime]. *)

From stdpp Require Import gmap strings list fin_maps pretty sorting.
From Stdlib Require Import Ascii.

Set Warnings "-clear-no-such-hyp".
Open Scope N_scope.
Open Scope nat_scope.

(** ** Strings and paths *)

Abbreviation pystr := (list N).
Abbreviation path := (list pystr).

(** An ASCII literal as a Python string. *)
Definition py (s : string) : pystr := N_of_ascii <$> String.list_ascii_of_string s.

(** ** What the Python runtime and the operating system provide *)

Class Runtime := {
  (** [str.isalnum] on one code point; [\w] is this or an underscore. *)
  isalnum : N → bool;
  (** [\d]: a Unicode decimal digit. *)
  isdigit : N → bool;
  (** [\s]: Unicode white space. *)
  isspace : N → bool;
  (** A pattern literal against a text character under [re.IGNORECASE]. *)
  ieq : N → N → bool;
  (** [str.lower]. *)
  str_lower : pystr → pystr;
  (** The order in which [os.scandir] lists the entries of a directory. *)
  listdir_order : path → list pystr → list pystr;
  listdir_order_perm dir names : listdir_order dir names ≡ₚ names
}.

(** ** Regular expressions, as far as [LANGUAGE_PATTERNS] uses them *)

Inductive cls := Dot | Space | Digit | Range09.

Inductive regex :=
| Eps
| Lit (c : N)
| Cls (k : cls)
| Cat (r1 r2 : regex)
| Alt (r1 r2 : regex)
| Star (k : cls)
| Bnd
| NLook (r : regex).

Definition newline : N := 10%N.
Definition underscore : N := 95%N.

Section Regex.
Context `{!Runtime}.

Definition isword (c : N) : bool := isalnum c || (c =? underscore)%N.

Definition in_cls (k : cls) (c : N) : bool :=
  match k with
  | Dot => negb (c =? newline)%N
  | Space => isspace c
  | Digit => isdigit c
  | Range09 => (48 <=? c)%N && (c <=? 57)%N
  end.

(** [\b] between the character before the position and the one after. *)
Definition at_boundary (prev : option N) (s : pystr) : bool :=
  xorb (from_option isword false prev) (from_option isword false (head s)).

(** Greedy [k*]: every prefix of characters of class [k] is a way to
    match; the longest comes first. *)
Fixpoint star_cls (k : cls) (prev : option N) (s : pystr)
  : list (option N * pystr) :=
  match s with
  | c :: s' => (if in_cls k c then star_cls k (Some c) s' else []) ++ [(prev, s)]
  | [] => [(prev, s)]
  end.

(** All the ways [r] matches at the head of [s], each with the last
    character consumed and the text that is left. *)
Fixpoint rmatch (r : regex) (prev : option N) (s : pystr)
  : list (option N * pystr) :=
  match r with
  | Eps => [(prev, s)]
  | Lit p =>
      match s with
      | c :: s' => if ieq p c then [(Some c, s')] else []
      | [] => []
      end
  | Cls k =>
      match s with
      | c :: s' => if in_cls k c then [(Some c, s')] else []
      | [] => []
      end
  | Cat r1 r2 => '(prev', s') ← rmatch r1 prev s; rmatch r2 prev' s'
  | Alt r1 r2 => rmatch r1 prev s ++ rmatch r2 prev s
  | Star k => star_cls k prev s
  | Bnd => if at_boundary prev s then [(prev, s)] else []
  | NLook r' =>
      match rmatch r' prev s with
      | [] => [(prev, s)]
      | _ :: _ => []
      end
  end.

Definition matches_here (r : regex) (prev : option N) (s : pystr) : bool :=
  match rmatch r prev s with [] => false | _ :: _ => true end.

(** [re.search]: a match at some position of the text. *)
Fixpoint search_from (r : regex) (prev : option N) (s : pystr) : bool :=
  matches_here r prev s ||
  match s with
  | c :: s' => search_from r (Some c) s'
  | [] => false
  end.

Definition re_search (r : regex) (s : pystr) : bool := search_from r None s.
End Regex.

(** Pattern builders. *)
Definition lits (w : pystr) : regex := foldr (λ c r, Cat (Lit c) r) Eps w.

Fixpoint alts (r : regex) (rs : list regex) : regex :=
  match rs with
  | [] => r
  | r' :: rs' => Alt r (alts r' rs')
  end.

Definition any_of (w : pystr) (ws : list pystr) : regex :=
  alts (lits w) (lits <$> ws).

(** [\b( ... )\b] *)
Definition bounded (r : regex) : regex := Cat Bnd (Cat r Bnd).

Definition opt (r : regex) : regex := Alt r Eps.
Definition plus (k : cls) : regex := Cat (Cls k) (Star k).

(** ** Language definitions *)

Definition c_cedilla : N := 0xE7%N.
Definition n_tilde : N := 0xF1%N.
Definition e_circumflex : N := 0xEA%N.

Definition Francais_c : pystr := py "Fran" ++ [c_cedilla] ++ py "ais".
Definition Espanol_n : pystr := py "Espa" ++ [n_tilde] ++ py "ol".
Definition Russkiy : pystr :=
  [0x420; 0x443; 0x441; 0x441; 0x43A; 0x438; 0x439]%N.
Definition Nihongo : pystr := [0x65E5; 0x672C; 0x8A9E]%N.
Definition Riwen : pystr := [0x65E5; 0x6587]%N.
Definition Hangugeo : pystr := [0xD55C; 0xAD6D; 0xC5B4]%N.
Definition Hangeul : pystr := [0xD55C; 0xAE00]%N.
Definition Zhongwenban : pystr := [0x4E2D; 0x6587; 0x7248]%N.
Definition Zhongwen : pystr := [0x4E2D; 0x6587]%N.
Definition Hanhua : pystr := [0x6C49; 0x5316]%N.

Definition english_words : regex := any_of (py "En") [py "Eng"; py "English"].

Definition region_words : regex := any_of (py "EUR") [py "Europe"; py "EU"].

(** [PT|Portugu[eê]s|Brazil|BR] *)
Definition pt_inner : regex :=
  alts (lits (py "PT"))
    [Cat (lits (py "Portugu"))
         (Cat (Alt (Lit 101%N) (Lit e_circumflex)) (lits (py "s")));
     lits (py "Brazil"); lits (py "BR")].

(** [Multi\s?[\d]+|M[0-9]+] *)
Definition multi_inner : regex :=
  Alt (Cat (lits (py "Multi")) (Cat (opt (Cls Space)) (plus Digit)))
      (Cat (lits (py "M")) (plus Range09)).

(** [\b(EUR|Europe|EU)\b(?!.*\b(En|Eng|English)\b)] *)
Definition eu_pattern : regex :=
  Cat (bounded region_words) (NLook (Cat (Star Dot) (bounded english_words))).

Definition LANGUAGE_PATTERNS : list (pystr * list regex) := [
  (py "en", [
     bounded (any_of (py "USA") [py "U"]);
     bounded english_words;
     Cat (bounded (any_of (py "Europe") []))
         (Cat (Star Dot) (bounded english_words));
     bounded (any_of (py "World") []);
     Cat (bounded (Cat (lits (py "USA,"))
                       (Cat (opt (Cls Space)) (lits (py "Europe")))))
         (Cat (Star Dot) (bounded (any_of (py "En") [])))
   ]);
  (py "jp", [bounded (any_of (py "JPN") [py "Japan"; py "J"]);
             lits Nihongo; lits Riwen]);
  (py "fr", [bounded (any_of (py "Fr")
               [py "FRA"; py "French"; py "Francais"; Francais_c])]);
  (py "de", [bounded (any_of (py "De") [py "Ger"; py "German"; py "Deutsch"])]);
  (py "es", [bounded (any_of (py "ES")
               [py "Spa"; py "Spanish"; Espanol_n; py "Espanol";
                py "Castellano"])]);
  (py "it", [bounded (any_of (py "ITA") [py "It"; py "Italian"; py "Italiano"])]);
  (py "pt", [bounded pt_inner]);
  (py "ru", [bounded (any_of (py "RU") [py "Rus"; py "Russian"; Russkiy])]);
  (py "ko", [bounded (any_of (py "KOR") [py "Korea"; py "Korean"]);
             lits Hangugeo; lits Hangeul]);
  (py "zh", [bounded (any_of (py "CHN") [py "China"; py "Chinese"]);
             lits Zhongwenban; lits Zhongwen; lits Hanhua]);
  (py "multi", [bounded multi_inner]);
  (py "eu", [eu_pattern])
].

(** Broad ROM extension coverage. *)
Definition ROM_EXTENSIONS : list pystr := py <$> [
  ".a26"; ".a52"; ".a78";
  ".nes"; ".fds"; ".sfc"; ".smc"; ".gb"; ".gbc"; ".gba";
  ".nds"; ".dsi"; ".3ds"; ".cia";
  ".n64"; ".z64"; ".v64";
  ".sms"; ".gg"; ".sg"; ".sgx";
  ".md"; ".smd"; ".gen"; ".32x"; ".meg"; ".bin"; ".rom";
  ".pce";
  ".neo"; ".ngp"; ".ngc"; ".ngpc";
  ".cue"; ".iso"; ".chd"; ".gdi"; ".cdi";
  ".mdf"; ".mds"; ".nrg";
  ".cso"; ".pbp";
  ".vpk"; ".psv"; ".psvita";
  ".nsp"; ".xci";
  ".zip"; ".7z"; ".7zip"; ".rar";
  ".adf"; ".d64"; ".tap"; ".tzx"
]%string.

Definition is_rom_ext (ext : pystr) : bool := bool_decide (ext ∈ ROM_EXTENSIONS).

(** ** Language detection helpers *)

Section Detect.
Context `{!Runtime}.

(** The set of language codes detected in the file name (no
    extension).  The inner loop stops at the first pattern that
    matches, which is what [existsb] computes. *)
Definition detect_languages (filename_no_ext : pystr) : gset pystr :=
  foldl (λ detected '(lang_code, patterns),
           if existsb (λ pat, re_search pat filename_no_ext) patterns
           then detected ∪ {[lang_code]}
           else detected)
        ∅ LANGUAGE_PATTERNS.
End Detect.

(** [any(lang in keep_langs for lang in detected_langs)] *)
Definition any_in (detected_langs keep_langs : gset pystr) : bool :=
  existsb (λ lang, bool_decide (lang ∈ keep_langs)) (elements detected_langs).

(** SORT decision. *)
Definition should_keep (detected_langs keep_langs : gset pystr) : bool :=
  if negb (bool_decide (detected_langs = ∅)) then
    any_in detected_langs keep_langs
  else if bool_decide (py "en" ∈ keep_langs) then true
  else true.

(** REMERGE decision (the [allow_back] flag of [do_remerge]). *)
Definition allow_back (langs keep_langs : gset pystr) : bool :=
  if bool_decide (size keep_langs = 0) then true
  else if negb (bool_decide (langs = ∅)) then any_in langs keep_langs
  else bool_decide (py "en" ∈ keep_langs).

(** ** The file system *)

Inductive node := File (data : N) | Dir.

Global Instance node_eq_dec : EqDecision node.
Proof. solve_decision. Defined.

Abbreviation FS := (gmap path node).

Definition MovedROMS : pystr := py "Moved ROMS".

(** *** [os.path] *)

Definition dirname (p : path) : path := removelast p.
Definition basename (p : path) : pystr := default [] (last p).

(** [os.path.relpath p start], for [p] below [start]. *)
Definition relpath (p start : path) : path := drop (length start) p.

(** [os.path.commonpath [a, b]] *)
Fixpoint commonpath (a b : path) : path :=
  match a, b with
  | x :: a', y :: b' => if decide (x = y) then x :: commonpath a' b' else []
  | _, _ => []
  end.

Definition dot : N := 46%N.

(** [str.rfind(".")] *)
Fixpoint rfind_dot (s : pystr) : option nat :=
  match s with
  | [] => None
  | c :: s' =>
      match rfind_dot s' with
      | Some i => Some (S i)
      | None => if (c =? dot)%N then Some 0 else None
      end
  end.

(** [os.path.splitext] on one component: split at the last dot unless
    only dots come before it. *)
Definition splitext (p : pystr) : pystr * pystr :=
  match rfind_dot p with
  | Some i =>
      if forallb (λ c, (c =? dot)%N) (take i p) then (p, [])
      else (take i p, drop i p)
  | None => (p, [])
  end.

Definition path_exists (fs : FS) (p : path) : bool := bool_decide (is_Some (fs !! p)).
Definition isdir (fs : FS) (p : path) : bool := bool_decide (fs !! p = Some Dir).

(** The names of the entries directly inside [top]. *)
Definition child_names (fs : FS) (top : path) : list pystr :=
  omap (λ e : path * node,
          if bool_decide (dirname e.1 = top) then last e.1 else None)
       (map_to_list fs).

(** The longest path of the file system, a bound for every walk. *)
Definition depth (fs : FS) : nat := max_list (length <$> (map_to_list fs).*1).

(** *** State, exceptions and fuel *)

Inductive res (A : Type) :=
| Ok (a : A) (fs : FS)
| Raise (fs : FS)
| OutOfFuel.
Arguments Ok {A} a fs.
Arguments Raise {A} fs.
Arguments OutOfFuel {A}.

Definition M (A : Type) : Type := FS → res A.

Global Instance M_ret : MRet M := λ A a fs, Ok a fs.
Global Instance M_bind : MBind M := λ A B k m fs,
  match m fs with
  | Ok a fs' => k a fs'
  | Raise fs' => Raise fs'
  | OutOfFuel => OutOfFuel
  end.

Definition raise {A} : M A := λ fs, Raise fs.

(** [try: m except Exception: pass] *)
Definition try_pass (m : M unit) : M bool := λ fs,
  match m fs with
  | Ok _ fs' => Ok true fs'
  | Raise fs' => Ok false fs'
  | OutOfFuel => OutOfFuel
  end.

(** [for x in xs: s = body x s] *)
Fixpoint for_each {A S} (xs : list A) (body : A → S → M S) (s : S) : M S :=
  match xs with
  | [] => mret s
  | x :: xs' => s' ← body x s; for_each xs' body s'
  end.

Section FileSystem.
Context `{!Runtime}.

(** [os.scandir] as [os.walk] uses it: directories and other entries,
    each in listing order; [None] when [top] is not a directory. *)
Definition scandir (fs : FS) (top : path) : option (list pystr * list pystr) :=
  if isdir fs top then
    let names := listdir_order top (child_names fs top) in
    Some (filter (λ x, fs !! (top ++ [x]) = Some Dir) names,
          filter (λ x, fs !! (top ++ [x]) ≠ Some Dir) names)
  else None.

(** [os.walk(top)]: the listing of a directory is taken when the walk
    reaches it, the loop body runs, then the subdirectories listed
    at that time are walked.  A directory that cannot be listed is
    skipped. *)
Fixpoint walk_topdown {S} (fuel : nat) (top : path)
    (body : path → list pystr → list pystr → S → M S) (s : S) : M S :=
  λ fs,
  match fuel with
  | 0 => OutOfFuel
  | S n =>
      match scandir fs top with
      | None => Ok s fs
      | Some (dirs, nondirs) =>
          (s1 ← body top dirs nondirs s;
           for_each dirs (λ d, walk_topdown n (top ++ [d]) body) s1) fs
      end
  end.

(** [os.walk(top, topdown=False)]: the subdirectories are walked
    first, and the body then receives the listing taken before. *)
Fixpoint walk_bottomup {S} (fuel : nat) (top : path)
    (body : path → list pystr → list pystr → S → M S) (s : S) : M S :=
  λ fs,
  match fuel with
  | 0 => OutOfFuel
  | S n =>
      match scandir fs top with
      | None => Ok s fs
      | Some (dirs, nondirs) =>
          (s1 ← for_each dirs (λ d, walk_bottomup n (top ++ [d]) body) s;
           body top dirs nondirs s1) fs
      end
  end.

Definition os_walk {S} (top : path) (topdown : bool)
    (body : path → list pystr → list pystr → S → M S) (s : S) : M S :=
  λ fs,
  (if topdown then walk_topdown else walk_bottomup) (2 + depth fs) top body s fs.

(** [os.makedirs(p, exist_ok=True)]: creates the missing directories
    from the outermost on; a file in the way raises. *)
Fixpoint makedirs_from (done todo : path) : M unit :=
  λ fs,
  match todo with
  | [] => Ok () fs
  | x :: todo' =>
      match fs !! (done ++ [x]) with
      | Some Dir => makedirs_from (done ++ [x]) todo' fs
      | Some (File _) => Raise fs
      | None => makedirs_from (done ++ [x]) todo' (<[done ++ [x] := Dir]> fs)
      end
  end.

Definition os_makedirs (p : path) : M unit := makedirs_from [] p.

(** [os.rmdir]: only an empty directory can be removed. *)
Definition os_rmdir (p : path) : M unit := λ fs,
  if isdir fs p && bool_decide (child_names fs p = []) then Ok () (delete p fs)
  else Raise fs.

(** [shutil.move] of a file.  Onto an existing file it overwrites;
    given an existing directory it moves into it.  The program only
    moves entries it has listed as files. *)
Definition shutil_move (src dst : path) : M unit := λ fs,
  match fs !! src with
  | Some (File d) =>
      let real_dst := if isdir fs dst then dst ++ [basename src] else dst in
      if isdir fs dst && path_exists fs real_dst then Raise fs
      else if isdir fs (dirname real_dst)
      then Ok () (<[real_dst := File d]> (delete src fs))
      else Raise fs
  | _ => Raise fs
  end.

(** *** Filesystem helpers *)

(** The generator [collect_roms], consumed by [body]. *)
Definition collect_roms {S} (root_dir : path) (include_moved : bool)
    (body : path → path → S → M S) : S → M S :=
  let moved_root_abs := root_dir ++ [MovedROMS] in
  os_walk root_dir true (λ base dirs files,
    for_each files (λ f s,
      let ext := str_lower (splitext f).2 in
      if is_rom_ext ext then
        let abs_path := base ++ [f] in
        let rel_path := relpath abs_path root_dir in
        if negb include_moved
           && bool_decide (commonpath abs_path moved_root_abs = moved_root_abs)
        then mret s
        else body abs_path rel_path s
      else mret s)).

Definition ensure_parent_dir (p : path) : M unit := λ fs,
  let parent := dirname p in
  if negb (isdir fs parent) then os_makedirs parent fs else Ok () fs.

(** [f"{base_no_ext} ({counter}){ext}"] *)
Definition candidate (dest_full_path : path) (counter : N) : path :=
  let '(stem, ext) := splitext (basename dest_full_path) in
  dirname dest_full_path
    ++ [stem ++ py " (" ++ py (pretty counter) ++ py ")" ++ ext].

(** The [while os.path.exists(candidate)] loop. *)
Fixpoint probe (fuel : nat) (fs : FS) (dest_full_path : path) (counter : N)
  : option path :=
  match fuel with
  | 0 => None
  | S n =>
      if path_exists fs (candidate dest_full_path counter)
      then probe n fs dest_full_path (counter + 1)%N
      else Some (candidate dest_full_path counter)
  end.

Definition unique_destination_path (dest_full_path : path) : M path := λ fs,
  if negb (path_exists fs dest_full_path) then Ok dest_full_path fs
  else match probe (S (size fs)) fs dest_full_path 1%N with
       | Some c => Ok c fs
       | None => OutOfFuel
       end.

Definition plan_dest_paths_for_sort (root_dir rel_path : path) : path * path :=
  let logical_rel_dest := [MovedROMS] ++ rel_path in
  let physical_abs_dest := root_dir ++ logical_rel_dest in
  (logical_rel_dest, physical_abs_dest).

Definition plan_dest_paths_for_remerge (root_dir rel_from_moved : path)
  : path * path :=
  let logical_rel_dest := rel_from_moved in
  let physical_abs_dest := root_dir ++ rel_from_moved in
  (logical_rel_dest, physical_abs_dest).

(** The three statements of a live relocation, as both modes run them. *)
Definition relocate (abs_path physical_abs_dest : path) : M path :=
  ensure_parent_dir physical_abs_dest;;
  final_abs_dest ← unique_destination_path physical_abs_dest;
  shutil_move abs_path final_abs_dest;;
  mret final_abs_dest.
End FileSystem.

(** ** Core modes: sort, remerge, langs-report, cleanup *)

(** The lines of the report, with the fields that the source formats
    into them; [langs] stands for [sorted(list(langs))]. *)
Inductive log_line :=
| Text (s : string)
| KeepLine (rel_path : path) (langs : gset pystr)
| MoveLine (rel_path logical_rel_dest : path) (langs : gset pystr)
| RemergeLine (rel_from_moved logical_rel_dest : path) (langs : gset pystr)
| SkipLine (rel_from_moved : path) (langs : gset pystr)
| Total (label : string) (n : nat)
| FolderCounts (folder : pystr) (counts : gmap pystr nat)
| TotalCounts (counts : gmap pystr nat)
| Removed (dirs : list path).

Record sort_acc := {
  moved_count : nat;
  kept_count : nat;
  move_entries : list log_line;
  keep_entries : list log_line
}.

Record remerge_acc := {
  moved_back_count : nat;
  skipped_count : nat;
  remerge_entries : list log_line;
  skip_entries : list log_line
}.

Record langs_acc := {
  folder_lang_counts : gmap pystr (gmap pystr nat);
  total_counts : gmap pystr nat
}.

(** [counter[key] += 1] *)
Definition incr (key : pystr) (counter : gmap pystr nat) : gmap pystr nat :=
  <[key := S (default 0 (counter !! key))]> counter.

Definition incr_in (folder key : pystr) (counters : gmap pystr (gmap pystr nat))
  : gmap pystr (gmap pystr nat) :=
  <[folder := incr key (default ∅ (counters !! folder))]> counters.

Record args := {
  args_keep : list pystr;
  args_move : bool;
  args_remerge : bool;
  args_langs : bool;
  args_cleanup : bool
}.

Section Modes.
Context `{!Runtime}.

Definition sort_step (root_dir : path) (keep_langs : gset pystr) (do_move : bool)
    (abs_path rel_path : path) (acc : sort_acc) : M sort_acc :=
  let filename := basename abs_path in
  let name_no_ext := (splitext filename).1 in
  let langs := detect_languages name_no_ext in
  let keep_it := should_keep langs keep_langs in
  if keep_it then
    mret {| moved_count := moved_count acc;
            kept_count := kept_count acc + 1;
            move_entries := move_entries acc;
            keep_entries := keep_entries acc ++ [KeepLine rel_path langs] |}
  else
    let '(logical_rel_dest, physical_abs_dest) :=
      plan_dest_paths_for_sort root_dir rel_path in
    let acc' :=
      {| moved_count := moved_count acc + 1;
         kept_count := kept_count acc;
         move_entries :=
           move_entries acc ++ [MoveLine rel_path logical_rel_dest langs];
         keep_entries := keep_entries acc |} in
    if do_move then relocate abs_path physical_abs_dest;; mret acc'
    else mret acc'.

(** The lines that [do_sort] appends after its loop. *)
Definition sort_report (acc : sort_acc) : list log_line :=
  [Text "---- KEPT FILES ----"] ++ keep_entries acc ++ [Text ""]
  ++ [Text "---- MOVED (or WOULD MOVE) FILES ----"]
  ++ move_entries acc ++ [Text ""]
  ++ [Text "---- SORT SUMMARY ----";
      Total "Total kept" (kept_count acc);
      Total "Total moved (or would move)" (moved_count acc)].

(** SORT MODE *)
Definition do_sort (root_dir : path) (keep_langs : gset pystr) (do_move : bool)
    (log_lines : list log_line) : M (list log_line) :=
  acc ← collect_roms root_dir false (sort_step root_dir keep_langs do_move)
        {| moved_count := 0; kept_count := 0;
           move_entries := []; keep_entries := [] |};
  mret (log_lines ++ sort_report acc).

Definition remerge_step (root_dir moved_root : path) (keep_langs : gset pystr)
    (do_move : bool) (base : path) (f : pystr) (acc : remerge_acc)
  : M remerge_acc :=
  let ext := str_lower (splitext f).2 in
  if negb (is_rom_ext ext) then mret acc
  else
    let abs_path := base ++ [f] in
    let rel_from_moved := relpath abs_path moved_root in
    let '(logical_rel_dest, physical_abs_dest) :=
      plan_dest_paths_for_remerge root_dir rel_from_moved in
    let name_no_ext := (splitext f).1 in
    let langs := detect_languages name_no_ext in
    if allow_back langs keep_langs then
      let acc' :=
        {| moved_back_count := moved_back_count acc + 1;
           skipped_count := skipped_count acc;
           remerge_entries :=
             remerge_entries acc
               ++ [RemergeLine rel_from_moved logical_rel_dest langs];
           skip_entries := skip_entries acc |} in
      if do_move then relocate abs_path physical_abs_dest;; mret acc'
      else mret acc'
    else
      mret {| moved_back_count := moved_back_count acc;
              skipped_count := skipped_count acc + 1;
              remerge_entries := remerge_entries acc;
              skip_entries := skip_entries acc ++ [SkipLine rel_from_moved langs] |}.

(** The lines that [do_remerge] appends when there is no 'Moved ROMS'. *)
Definition nothing_to_remerge : list log_line :=
  [Text "[INFO] No 'Moved ROMS' folder found, nothing to remerge.";
   Text "---- REMERGE SUMMARY ----";
   Total "Total moved back" 0; Total "Total skipped" 0].

(** The lines that [do_remerge] appends after its loop. *)
Definition remerge_report (acc : remerge_acc) : list log_line :=
  [Text "---- REMERGE MOVED (or WOULD MOVE) ----"]
  ++ remerge_entries acc ++ [Text ""]
  ++ [Text "---- REMERGE SKIPPED ----"] ++ skip_entries acc ++ [Text ""]
  ++ [Text "---- REMERGE SUMMARY ----";
      Total "Total moved back (or would move)" (moved_back_count acc);
      Total "Total skipped" (skipped_count acc)].

(** REMERGE MODE *)
Definition do_remerge (root_dir : path) (keep_langs : gset pystr) (do_move : bool)
    (log_lines : list log_line) : M (list log_line) := λ fs,
  let moved_root := root_dir ++ [MovedROMS] in
  if negb (isdir fs moved_root) then Ok (log_lines ++ nothing_to_remerge) fs
  else
    (acc ← os_walk moved_root true
             (λ base dirs files,
                for_each files
                  (remerge_step root_dir moved_root keep_langs do_move base))
             {| moved_back_count := 0; skipped_count := 0;
                remerge_entries := []; skip_entries := [] |};
     mret (log_lines ++ remerge_report acc)) fs.

Definition langs_step (abs_path rel_path : path) (acc : langs_acc) : M langs_acc :=
  let parts := rel_path in
  let folder_bucket :=
    if decide (1 < length parts) then default [] (head parts) else [] in
  let filename := basename abs_path in
  let name_no_ext := (splitext filename).1 in
  let langs := detect_languages name_no_ext in
  if bool_decide (langs = ∅) then
    mret {| folder_lang_counts :=
              incr_in folder_bucket (py "unknown") (folder_lang_counts acc);
            total_counts := incr (py "unknown") (total_counts acc) |}
  else
    mret (foldl (λ a lang,
                   {| folder_lang_counts :=
                        incr_in folder_bucket lang (folder_lang_counts a);
                      total_counts := incr lang (total_counts a) |})
                acc (elements langs)).

(** LANGS MODE; the counters are reported as they stand, the order of
    the rendered lines is left out. *)
Definition do_langs_report (root_dir : path) (log_lines : list log_line)
  : M (list log_line) :=
  acc ← collect_roms root_dir false langs_step
        {| folder_lang_counts := ∅; total_counts := ∅ |};
  mret (log_lines
        ++ [Text "=== LANGUAGE SUMMARY ==="]
        ++ (if bool_decide (folder_lang_counts acc = ∅)
            then [Text "No ROMs found to analyze."; Text ""]
            else (λ e, FolderCounts e.1 e.2) <$> map_to_list (folder_lang_counts acc))
        ++ [Text "TOTALS:"; TotalCounts (total_counts acc); Text ""]).

Definition cleanup_step (dirpath : path) (dirnames filenames : list pystr)
    (removed : list path) : M (list path) :=
  if bool_decide (dirnames = []) && bool_decide (filenames = []) then
    ok ← try_pass (os_rmdir dirpath);
    mret (if ok : bool then removed ++ [dirpath] else removed)
  else mret removed.

(** After remerge, clean up empty folders under 'Moved ROMS/'. *)
Definition cleanup_empty_dirs (root : path) : M (list path) :=
  os_walk root false cleanup_step [].

(** The cleanup handling of [main] under 'Moved ROMS/'. *)
Definition main_cleanup (root_dir : path) (do_move : bool)
    (log_lines : list log_line) : M (list log_line) := λ fs,
  let moved_root := root_dir ++ [MovedROMS] in
  if isdir fs moved_root then
    if do_move then
      (removed_dirs ← cleanup_empty_dirs moved_root;
       mret (log_lines ++ [Text ""; Text "---- CLEANUP ----";
                           Removed removed_dirs])) fs
    else
      Ok (log_lines ++ [Text ""; Text "---- CLEANUP (DRY RUN) ----"]) fs
  else
    Ok (log_lines
        ++ [Text ""; Text "[INFO] No 'Moved ROMS' folder found to clean."]) fs.

(** [main], from the choice of the mode to the end of its run; the
    header of the report, the clock and the log file are left out. *)
Definition main (root_dir : path) (a : args) (log_lines : list log_line)
  : M (list log_line) :=
  let mode_langs := args_langs a in
  let mode_remerge := args_remerge a && negb mode_langs in
  let explicit_keep_empty := bool_decide (args_keep a = []) in
  let lowered : gset pystr := list_to_set (str_lower <$> args_keep a) in
  let keep_langs : gset pystr :=
    if mode_langs then (if explicit_keep_empty then ∅ else lowered)
    else if mode_remerge then (if explicit_keep_empty then ∅ else lowered)
    else (if explicit_keep_empty then {[py "en"]} else lowered) in
  if mode_langs then do_langs_report root_dir log_lines
  else if mode_remerge then
    log_lines ← do_remerge root_dir keep_langs (args_move a) log_lines;
    if args_cleanup a then main_cleanup root_dir (args_move a) log_lines
    else mret log_lines
  else do_sort root_dir keep_langs (args_move a) log_lines.
End Modes.

(** ** A runtime for concrete runs

    It follows Python on ASCII and on the Latin-1, Cyrillic, kana, CJK
    and Hangul letters that the pattern table mentions, and lists a
    directory in the order of the map. *)

Definition in_range (lo hi c : N) : bool := (lo <=? c)%N && (c <=? hi)%N.

Definition basic_isalnum (c : N) : bool :=
  in_range 48 57 c || in_range 65 90 c || in_range 97 122 c
  || (in_range 0xC0 0x24F c && negb (c =? 0xD7)%N && negb (c =? 0xF7)%N)
  || in_range 0x400 0x481 c || in_range 0x48A 0x52F c
  || in_range 0x3041 0x3096 c || in_range 0x30A1 0x30FA c
  || in_range 0x4E00 0x9FFF c || in_range 0xAC00 0xD7A3 c.

Definition basic_isspace (c : N) : bool :=
  in_range 9 13 c || in_range 28 32 c || (c =? 0x85)%N || (c =? 0xA0)%N.

Definition basic_lower (c : N) : N :=
  if in_range 65 90 c then (c + 32)%N
  else if in_range 0xC0 0xDE c && negb (c =? 0xD7)%N then (c + 32)%N
  else if in_range 0x410 0x42F c then (c + 32)%N
  else if in_range 0x400 0x40F c then (c + 80)%N
  else c.

Global Program Instance basic_runtime : Runtime := {|
  isalnum := basic_isalnum;
  isdigit := in_range 48 57;
  isspace := basic_isspace;
  ieq p c := (basic_lower p =? basic_lower c)%N;
  str_lower := fmap basic_lower;
  listdir_order _ names := names
|}.
Next Obligation. done. Qed.

(** * Properties *)

(** ** The decision policy *)

Lemma any_in_true (detected_langs keep_langs : gset pystr) :
  any_in detected_langs keep_langs = true ↔ detected_langs ∩ keep_langs ≠ ∅.
Proof.
  unfold any_in. rewrite existsb_exists. split.
  - intros (lang & Hin & Hk). apply list_elem_of_In, elem_of_elements in Hin.
    apply bool_decide_eq_true in Hk. set_solver.
  - intros Hne. apply set_choose_L in Hne as [lang Hlang].
    exists lang. split.
    + apply list_elem_of_In, elem_of_elements. set_solver.
    + apply bool_decide_eq_true. set_solver.
Qed.

(** C3. Sort decision rule: with a non-empty tag set the file is kept
    exactly when a tag is in the keep set; with an empty tag set it is
    kept whatever the keep set holds, the empty keep set included. *)
Theorem should_keep_rule (detected_langs keep_langs : gset pystr) :
  (should_keep detected_langs keep_langs = true
     ↔ detected_langs = ∅ ∨ detected_langs ∩ keep_langs ≠ ∅)
  ∧ (should_keep detected_langs keep_langs = false
     ↔ detected_langs ≠ ∅ ∧ detected_langs ∩ keep_langs = ∅)
  ∧ should_keep ∅ keep_langs = true
  ∧ should_keep ∅ ∅ = true.
Proof.
  assert (Hempty : ∀ k : gset pystr, should_keep ∅ k = true).
  { intros k. unfold should_keep. rewrite bool_decide_eq_true_2 by done.
    simpl. by case_bool_decide. }
  split_and!; [| |apply Hempty..].
  - unfold should_keep. case_bool_decide as He; simpl.
    + split; [by left|]. by case_bool_decide.
    + rewrite any_in_true. naive_solver.
  - unfold should_keep. case_bool_decide as He; simpl.
    + split; [by case_bool_decide | naive_solver].
    + rewrite <-not_true_iff_false, any_in_true.
      split; [|naive_solver].
      intros Hn. split; [done|].
      destruct (decide (detected_langs ∩ keep_langs = ∅)); [done|]. by destruct Hn.
Qed.

(** C4. Remerge decision rule: the empty keep set restores everything;
    otherwise a tagged file is restored exactly when a tag is in the
    keep set, and an untagged one exactly when "en" is. *)
Theorem allow_back_rule (langs keep_langs : gset pystr) :
  allow_back langs ∅ = true
  ∧ (allow_back langs keep_langs = true
       ↔ keep_langs = ∅
         ∨ (langs ≠ ∅ ∧ langs ∩ keep_langs ≠ ∅)
         ∨ (langs = ∅ ∧ py "en" ∈ keep_langs))
  ∧ allow_back ∅ {[py "en"]} = true
  ∧ allow_back ∅ {[py "fr"]} = false.
Proof.
  split_and!.
  - done.
  - unfold allow_back.
    case_bool_decide as Hk.
    { apply size_empty_iff in Hk. fold_leibniz. naive_solver. }
    assert (keep_langs ≠ ∅) by (intros ->; by apply Hk).
    case_bool_decide as Hl; simpl.
    + rewrite bool_decide_eq_true. naive_solver.
    + rewrite any_in_true. naive_solver.
  - unfold allow_back. rewrite bool_decide_eq_false_2.
    + rewrite bool_decide_eq_true_2 by done. simpl.
      apply bool_decide_eq_true. set_solver.
    + rewrite size_singleton. lia.
  - unfold allow_back. rewrite bool_decide_eq_false_2.
    + rewrite bool_decide_eq_true_2 by done. simpl.
      apply bool_decide_eq_false. rewrite elem_of_singleton. by vm_compute.
    + rewrite size_singleton. lia.
Qed.

(** ** Language detection *)

(** *** Matching *)

(** The character before the position that follows [w]. *)
Definition after (prev : option N) (w : pystr) : option N :=
  match last w with Some c => Some c | None => prev end.

Lemma after_nil prev : after prev [] = prev.
Proof. done. Qed.

Lemma after_cons prev c w : after prev (c :: w) = after (Some c) w.
Proof.
  unfold after. destruct w as [|x w]; simpl; [done|].
  destruct (last (x :: w)) eqn:Hl; [done|]. by apply last_None in Hl.
Qed.

Lemma after_app prev a b : after prev (a ++ b) = after (after prev a) b.
Proof. unfold after. rewrite last_app. by destruct (last b). Qed.

Lemma last_after (a : pystr) : last a = after None a.
Proof. unfold after. by destruct (last a). Qed.

Section Matching.
Context `{!Runtime}.

(** A text matches a pattern word, character by character, whatever
    the case. *)
Definition imatch (tok w : pystr) : Prop := Forall2 (λ p c, ieq p c = true) tok w.

Lemma rmatch_Cat r1 r2 prev s x :
  x ∈ rmatch (Cat r1 r2) prev s
  ↔ ∃ p1 s1, (p1, s1) ∈ rmatch r1 prev s ∧ x ∈ rmatch r2 p1 s1.
Proof.
  simpl. rewrite list_elem_of_bind. split.
  - intros ([p1 s1] & Hx & H1). eauto.
  - intros (p1 & s1 & H1 & Hx). by exists (p1, s1).
Qed.

Lemma rmatch_Alt r1 r2 prev s x :
  x ∈ rmatch (Alt r1 r2) prev s ↔ x ∈ rmatch r1 prev s ∨ x ∈ rmatch r2 prev s.
Proof. simpl. apply elem_of_app. Qed.

Lemma rmatch_Lit c prev s x :
  x ∈ rmatch (Lit c) prev s ↔ ∃ c' s', s = c' :: s' ∧ ieq c c' = true ∧ x = (Some c', s').
Proof.
  simpl. destruct s as [|c' s']; [|destruct (ieq c c') eqn:Hc].
  - split; [by intros ?%elem_of_nil|by intros (? & ? & ? & _)].
  - rewrite list_elem_of_singleton. split.
    + intros ->. by exists c', s'.
    + by intros (? & ? & [= <- <-] & _ & ->).
  - split; [by intros ?%elem_of_nil|]. intros (? & ? & [= <- <-] & ? & _). congruence.
Qed.

Lemma rmatch_Cls k prev s x :
  x ∈ rmatch (Cls k) prev s
  ↔ ∃ c' s', s = c' :: s' ∧ in_cls k c' = true ∧ x = (Some c', s').
Proof.
  simpl. destruct s as [|c' s']; [|destruct (in_cls k c') eqn:Hc].
  - split; [by intros ?%elem_of_nil|by intros (? & ? & ? & _)].
  - rewrite list_elem_of_singleton. split.
    + intros ->. by exists c', s'.
    + by intros (? & ? & [= <- <-] & _ & ->).
  - split; [by intros ?%elem_of_nil|]. intros (? & ? & [= <- <-] & ? & _). congruence.
Qed.

Lemma rmatch_Bnd prev s x :
  x ∈ rmatch Bnd prev s ↔ x = (prev, s) ∧ at_boundary prev s = true.
Proof.
  simpl. destruct (at_boundary prev s).
  - rewrite list_elem_of_singleton. split; [done|by intros [-> _]].
  - split; [by intros ?%elem_of_nil|by intros [_ ?]].
Qed.

Lemma rmatch_NLook r prev s x :
  x ∈ rmatch (NLook r) prev s ↔ x = (prev, s) ∧ ¬ ∃ y, y ∈ rmatch r prev s.
Proof.
  simpl. destruct (rmatch r prev s) as [|y l].
  - rewrite list_elem_of_singleton. split; [|by intros [-> _]].
    intros ->. split; [done|]. intros [y Hy]. by apply elem_of_nil in Hy.
  - split; [by intros ?%elem_of_nil|]. intros [_ []]. exists y. left.
Qed.

Lemma star_cls_spec k s : ∀ prev p' s',
  (p', s') ∈ star_cls k prev s
  ↔ ∃ g, s = g ++ s' ∧ Forall (λ c, in_cls k c = true) g ∧ p' = after prev g.
Proof.
  induction s as [|c s IH]; intros prev p' s'; simpl.
  - rewrite list_elem_of_singleton. split.
    + intros [= -> ->]. by exists [].
    + intros (g & Hg & _ & ->). symmetry in Hg.
      apply app_eq_nil in Hg as [-> ->]. done.
  - rewrite elem_of_app, list_elem_of_singleton. split.
    + intros [Hin|[= -> ->]]; [|by exists []].
      destruct (in_cls k c) eqn:Hc; [|by apply elem_of_nil in Hin].
      apply IH in Hin as (g & -> & Hg & ->).
      exists (c :: g). split_and!; [done|by constructor|by rewrite after_cons].
    + intros ([|c' g] & Hs & Hg & Hp); simpl in *.
      * right. by rewrite Hs, Hp.
      * left. injection Hs as <- ->. apply Forall_cons in Hg as [Hc Hg].
        rewrite Hc. apply IH. exists g. by rewrite Hp, after_cons.
Qed.

Lemma rmatch_Star k prev s p' s' :
  (p', s') ∈ rmatch (Star k) prev s
  ↔ ∃ g, s = g ++ s' ∧ Forall (λ c, in_cls k c = true) g ∧ p' = after prev g.
Proof. apply star_cls_spec. Qed.

(** Whatever a pattern matches is a piece of the text in front. *)
Lemma rmatch_suffix r : ∀ prev s p' s',
  (p', s') ∈ rmatch r prev s → ∃ g, s = g ++ s' ∧ p' = after prev g.
Proof.
  induction r as [|c|k|r1 IH1 r2 IH2|r1 IH1 r2 IH2|k| |r IH]; intros prev s p' s' Hx.
  - apply list_elem_of_singleton in Hx as [= -> ->]. by exists [].
  - apply rmatch_Lit in Hx as (c' & s1 & -> & _ & [= -> ->]). by exists [c'].
  - apply rmatch_Cls in Hx as (c' & s1 & -> & _ & [= -> ->]). by exists [c'].
  - apply rmatch_Cat in Hx as (p1 & s1 & H1 & H2).
    apply IH1 in H1 as (g1 & -> & ->). apply IH2 in H2 as (g2 & -> & ->).
    exists (g1 ++ g2). by rewrite <-app_assoc, after_app.
  - apply rmatch_Alt in Hx as [Hx|Hx]; eauto.
  - apply rmatch_Star in Hx as (g & ? & _ & ?). by exists g.
  - apply rmatch_Bnd in Hx as [[= -> ->] _]. by exists [].
  - apply rmatch_NLook in Hx as [[= -> ->] _]. by exists [].
Qed.

Lemma rmatch_lits w : ∀ prev s p' s',
  (p', s') ∈ rmatch (lits w) prev s
  ↔ ∃ w', s = w' ++ s' ∧ imatch w w' ∧ p' = after prev w'.
Proof.
  induction w as [|c w IH]; intros prev s p' s'.
  - simpl. rewrite list_elem_of_singleton. split.
    + intros [= -> ->]. exists []. split_and!; [done|constructor|done].
    + intros (w' & -> & Hm & ->). by apply Forall2_nil_inv_l in Hm as ->.
  - change (lits (c :: w)) with (Cat (Lit c) (lits w)). rewrite rmatch_Cat. split.
    + intros (p1 & s1 & H1 & H2).
      apply rmatch_Lit in H1 as (c' & s1' & -> & Hc & [= -> ->]).
      apply IH in H2 as (w' & -> & Hm & ->).
      exists (c' :: w'). split_and!; [done|by constructor|by rewrite after_cons].
    + intros (w' & -> & Hm & ->).
      apply Forall2_cons_inv_l in Hm as (c' & w'' & Hc & Hm & ->).
      exists (Some c'), (w'' ++ s'). split.
      * apply rmatch_Lit. by exists c', (w'' ++ s').
      * apply IH. exists w''. by rewrite after_cons.
Qed.

Lemma rmatch_alts r rs prev s x :
  x ∈ rmatch (alts r rs) prev s ↔ ∃ r', r' ∈ r :: rs ∧ x ∈ rmatch r' prev s.
Proof.
  revert r. induction rs as [|r' rs IH]; intros r.
  - simpl. split; [intros Hx; exists r; split; [left|done]|].
    by intros (r' & ->%list_elem_of_singleton & Hx).
  - change (alts r (r' :: rs)) with (Alt r (alts r' rs)).
    rewrite rmatch_Alt, IH. split.
    + intros [Hx|(r'' & Hin & Hx)].
      * exists r. split; [left|done].
      * exists r''. split; [by right|done].
    + intros (r'' & [->|Hin]%elem_of_cons & Hx); [by left|right; eauto].
Qed.

Lemma rmatch_any_of w ws prev s p' s' :
  (p', s') ∈ rmatch (any_of w ws) prev s
  ↔ ∃ tok w', tok ∈ w :: ws ∧ s = w' ++ s' ∧ imatch tok w' ∧ p' = after prev w'.
Proof.
  unfold any_of. rewrite rmatch_alts. split.
  - intros (r & Hr & Hx).
    change (lits w :: (lits <$> ws)) with (lits <$> (w :: ws)) in Hr.
    apply list_elem_of_fmap in Hr as (tok & -> & Htok).
    apply rmatch_lits in Hx as (w' & ? & ? & ?). by exists tok, w'.
  - intros (tok & w' & Htok & Hs & Hm & Hp). exists (lits tok). split.
    + change (lits w :: (lits <$> ws)) with (lits <$> (w :: ws)).
      by apply list_elem_of_fmap_2.
    + apply rmatch_lits. by exists w'.
Qed.

Lemma matches_here_true r prev s :
  matches_here r prev s = true ↔ ∃ x, x ∈ rmatch r prev s.
Proof.
  unfold matches_here. destruct (rmatch r prev s) as [|y l].
  - split; [done|]. intros [x Hx]. by apply elem_of_nil in Hx.
  - split; [|done]. intros _. exists y. left.
Qed.

Lemma search_from_spec r s : ∀ prev,
  search_from r prev s = true
  ↔ ∃ pre suf, s = pre ++ suf ∧ ∃ x, x ∈ rmatch r (after prev pre) suf.
Proof.
  induction s as [|c s IH]; intros prev; simpl.
  - rewrite orb_false_r, matches_here_true. split.
    + intros Hx. by exists [], [].
    + intros (pre & suf & Hs & Hx). symmetry in Hs.
      by apply app_eq_nil in Hs as [-> ->].
  - rewrite orb_true_iff, matches_here_true, IH. split.
    + intros [Hx|(pre & suf & -> & Hx)].
      * by exists [], (c :: s).
      * exists (c :: pre), suf. by rewrite after_cons.
    + intros ([|c' pre] & suf & Hs & Hx); simpl in *.
      * left. by rewrite Hs.
      * right. injection Hs as <- ->. exists pre, suf. by rewrite after_cons in Hx.
Qed.

Lemma re_search_spec r s :
  re_search r s = true
  ↔ ∃ pre suf, s = pre ++ suf ∧ ∃ x, x ∈ rmatch r (last pre) suf.
Proof.
  unfold re_search. rewrite search_from_spec.
  by setoid_rewrite last_after.
Qed.

Lemma rmatch_bounded r prev s p' s' :
  (p', s') ∈ rmatch (bounded r) prev s
  ↔ at_boundary prev s = true ∧ (p', s') ∈ rmatch r prev s
    ∧ at_boundary p' s' = true.
Proof.
  unfold bounded. rewrite rmatch_Cat. split.
  - intros (p1 & s1 & [[= -> ->] Hb]%rmatch_Bnd & H2).
    apply rmatch_Cat in H2 as (p2 & s2 & Hr & [[= -> ->] Hb']%rmatch_Bnd). done.
  - intros (Hb & Hr & Hb'). exists prev, s. split; [by apply rmatch_Bnd|].
    apply rmatch_Cat. exists p', s'. split; [done|]. by apply rmatch_Bnd.
Qed.

(** A match somewhere in the text gives a match of the search. *)
Lemma re_search_at r pre suf x :
  x ∈ rmatch r (last pre) suf → re_search r (pre ++ suf) = true.
Proof. intros Hx. apply re_search_spec. exists pre, suf. eauto. Qed.

(** [r1.*r2] can only match where [r2] matches. *)
Lemma re_search_then r1 k r2 stem :
  re_search (Cat r1 (Cat (Star k) r2)) stem = true → re_search r2 stem = true.
Proof.
  intros (pre & suf & -> & [p' s'] & Hx)%re_search_spec.
  apply rmatch_Cat in Hx as (p1 & s1 & H1 & Hx).
  apply rmatch_Cat in Hx as (p2 & s2 & H2 & Hx).
  apply rmatch_suffix in H1 as (g1 & -> & ->).
  apply rmatch_Star in H2 as (g2 & -> & _ & ->).
  rewrite <-after_app, last_after, <-after_app, <-last_after in Hx.
  rewrite !app_assoc. rewrite <-(app_assoc pre). by eapply re_search_at.
Qed.
End Matching.

(** ** What the patterns recognise *)

Section Tokens.
Context `{!Runtime}.

(** [w], between [pre] and [suf], has a word boundary on each side. *)
Definition delimited (pre w suf : pystr) : Prop :=
  at_boundary (last pre) (w ++ suf) = true
  ∧ at_boundary (last (pre ++ w)) suf = true.

(** The stem holds one of the words [ws], in any case, delimited by
    word boundaries. *)
Definition has_word (ws : list pystr) (stem : pystr) : Prop :=
  ∃ pre w suf tok,
    stem = pre ++ w ++ suf ∧ tok ∈ ws ∧ imatch tok w ∧ delimited pre w suf.

(** The stem holds the marker [m] somewhere, in any case. *)
Definition has_marker (m : pystr) (stem : pystr) : Prop :=
  ∃ pre w suf, stem = pre ++ w ++ suf ∧ imatch m w.

Lemma has_word_mono ws ws' stem : ws ⊆ ws' → has_word ws stem → has_word ws' stem.
Proof. intros Hsub (pre & w & suf & tok & ? & ? & ?). exists pre, w, suf, tok. auto. Qed.

Lemma search_bounded r stem :
  re_search (bounded r) stem = true
  ↔ ∃ pre w suf,
      stem = pre ++ w ++ suf
      ∧ (last (pre ++ w), suf) ∈ rmatch r (last pre) (w ++ suf)
      ∧ delimited pre w suf.
Proof.
  rewrite re_search_spec. split.
  - intros (pre & s0 & -> & [p' s'] & (Hb & Hr & Hb')%rmatch_bounded).
    pose proof (rmatch_suffix _ _ _ _ _ Hr) as (g & -> & ->).
    rewrite last_after, <-after_app, <-!last_after in Hr.
    rewrite last_after, <-after_app, <-!last_after in Hb'.
    exists pre, g, s'. by split_and!; [..|split].
  - intros (pre & w & suf & -> & Hr & Hb & Hb').
    exists pre, (w ++ suf). split; [done|]. exists (last (pre ++ w), suf).
    by apply rmatch_bounded.
Qed.

Lemma search_words w ws stem :
  re_search (bounded (any_of w ws)) stem = true ↔ has_word (w :: ws) stem.
Proof.
  rewrite search_bounded. split.
  - intros (pre & w' & suf & -> & Hr & Hd).
    apply rmatch_any_of in Hr as (tok & w'' & Htok & Heq & Hm & _).
    apply app_inv_tail in Heq as <-. by exists pre, w', suf, tok.
  - intros (pre & w' & suf & tok & -> & Htok & Hm & Hd).
    exists pre, w', suf. split_and!; [done| |done].
    apply rmatch_any_of. exists tok, w'. split_and!; [done..|].
    by rewrite last_after, after_app, <-last_after.
Qed.

Lemma search_marker m stem :
  re_search (lits m) stem = true ↔ has_marker m stem.
Proof.
  rewrite re_search_spec. split.
  - intros (pre & s0 & -> & [p' s'] & (w & -> & Hm & _)%rmatch_lits).
    by exists pre, w, s'.
  - intros (pre & w & suf & -> & Hm). exists pre, (w ++ suf). split; [done|].
    eexists (_, suf). apply rmatch_lits. by exists w.
Qed.

Lemma search_bounded_ext r r' stem :
  (∀ prev s x, x ∈ rmatch r prev s ↔ x ∈ rmatch r' prev s) →
  re_search (bounded r) stem = true ↔ re_search (bounded r') stem = true.
Proof.
  intros Hext. rewrite !search_bounded. by setoid_rewrite Hext.
Qed.

Lemma detect_languages_spec tag stem :
  tag ∈ detect_languages stem
  ↔ ∃ pats pat, (tag, pats) ∈ LANGUAGE_PATTERNS ∧ pat ∈ pats
                ∧ re_search pat stem = true.
Proof.
  unfold detect_languages.
  assert (∀ tbl (acc : gset pystr),
            tag ∈ foldl (λ detected '(lang_code, patterns),
                           if existsb (λ pat, re_search pat stem) patterns
                           then detected ∪ {[lang_code]} else detected) acc tbl
            ↔ tag ∈ acc
              ∨ ∃ pats pat, (tag, pats) ∈ tbl ∧ pat ∈ pats
                            ∧ re_search pat stem = true) as Hfold.
  { induction tbl as [|[code pats] tbl IH]; intros acc; simpl.
    - split; [by left|]. intros [?|(? & ? & ?%elem_of_nil & _)]; done.
    - rewrite IH. destruct (existsb _ pats) eqn:Hex.
      + apply existsb_exists in Hex as (pat & Hpat%list_elem_of_In & Hs).
        rewrite elem_of_union, elem_of_singleton. split.
        * intros [[?| ->]|(ps & p & ? & ?)]; [by left| |].
          -- right. exists pats, pat. split; [left|done].
          -- right. exists ps, p. split; [by right|done].
        * intros [?|(ps & p & [[= -> ->]|?]%elem_of_cons & ?)]; [by left; left| |].
          -- by left; right.
          -- right. by exists ps, p.
      + split.
        * intros [?|(ps & p & ? & ?)]; [by left|].
          right. exists ps, p. split; [by right|done].
        * intros [?|(ps & p & [[= -> ->]|?]%elem_of_cons & Hp & Hs)]; [by left| |].
          -- apply not_true_iff_false in Hex. destruct Hex.
             apply existsb_exists. exists p. by rewrite <-list_elem_of_In.
          -- right. by exists ps, p. }
  rewrite Hfold. split; [|by right]. by intros [?%not_elem_of_empty|?].
Qed.
End Tokens.

(** The words that each tag recognises between word boundaries, one
    entry for each pattern of that kind. *)
Definition WORDS : list (pystr * list pystr) := [
  (py "en", [py "USA"; py "U"]);
  (py "en", [py "En"; py "Eng"; py "English"]);
  (py "en", [py "World"]);
  (py "jp", [py "JPN"; py "Japan"; py "J"]);
  (py "fr", [py "Fr"; py "FRA"; py "French"; py "Francais"; Francais_c]);
  (py "de", [py "De"; py "Ger"; py "German"; py "Deutsch"]);
  (py "es", [py "ES"; py "Spa"; py "Spanish"; Espanol_n; py "Espanol";
             py "Castellano"]);
  (py "it", [py "ITA"; py "It"; py "Italian"; py "Italiano"]);
  (py "pt", [py "PT"; py "Portugues"; py "Portugu" ++ [e_circumflex] ++ py "s";
             py "Brazil"; py "BR"]);
  (py "ru", [py "RU"; py "Rus"; py "Russian"; Russkiy]);
  (py "ko", [py "KOR"; py "Korea"; py "Korean"]);
  (py "zh", [py "CHN"; py "China"; py "Chinese"])
].

(** The markers that are searched as they are, boundaries or not. *)
Definition MARKERS : list (pystr * pystr) := [
  (py "jp", Nihongo); (py "jp", Riwen);
  (py "ko", Hangugeo); (py "ko", Hangeul);
  (py "zh", Zhongwenban); (py "zh", Zhongwen); (py "zh", Hanhua)
].

Definition REGION_WORDS : list pystr := [py "EUR"; py "Europe"; py "EU"].
Definition ENGLISH_WORDS : list pystr := [py "En"; py "Eng"; py "English"].

Section Numbered.
Context `{!Runtime}.

(** "Multi", an optional white space and digits, or "M" and digits
    from 0 to 9. *)
Definition numbered (w : pystr) : Prop :=
  (∃ m sp ds,
      w = m ++ sp ++ ds ∧ imatch (py "Multi") m
      ∧ (sp = [] ∨ ∃ c, sp = [c] ∧ isspace c = true)
      ∧ ds ≠ [] ∧ Forall (λ c, isdigit c = true) ds)
  ∨ (∃ m ds,
      w = m ++ ds ∧ imatch (py "M") m
      ∧ ds ≠ [] ∧ Forall (λ c, in_range 48 57 c = true) ds).

Definition has_numbered (stem : pystr) : Prop :=
  ∃ pre w suf, stem = pre ++ w ++ suf ∧ numbered w ∧ delimited pre w suf.

Lemma rmatch_plus k prev s p' s' :
  (p', s') ∈ rmatch (plus k) prev s
  ↔ ∃ g, g ≠ [] ∧ s = g ++ s' ∧ Forall (λ c, in_cls k c = true) g
         ∧ p' = after prev g.
Proof.
  unfold plus. rewrite rmatch_Cat. split.
  - intros (p1 & s1 & (c & s1' & -> & Hc & [= -> ->])%rmatch_Cls & H2).
    apply rmatch_Star in H2 as (g & -> & Hg & ->).
    exists (c :: g). split_and!; [done|done|by constructor|by rewrite after_cons].
  - intros ([|c g] & Hne & -> & Hg & ->); [done|].
    apply Forall_cons in Hg as [Hc Hg]. exists (Some c), (g ++ s'). split.
    + apply rmatch_Cls. by exists c, (g ++ s').
    + apply rmatch_Star. exists g. by rewrite after_cons.
Qed.

Lemma rmatch_opt_cls k prev s p' s' :
  (p', s') ∈ rmatch (opt (Cls k)) prev s
  ↔ ∃ sp, (sp = [] ∨ ∃ c, sp = [c] ∧ in_cls k c = true)
          ∧ s = sp ++ s' ∧ p' = after prev sp.
Proof.
  unfold opt. rewrite rmatch_Alt, rmatch_Cls. simpl.
  rewrite list_elem_of_singleton. split.
  - intros [(c & s1 & -> & Hc & [= -> ->])|[= -> ->]].
    + exists [c]. split_and!; [right; eauto|done|done].
    + exists []. split_and!; [by left|done|done].
  - intros (sp & [->|(c & -> & Hc)] & -> & ->).
    + by right.
    + left. by exists c, s'.
Qed.

Lemma rmatch_lits_then w r prev s x :
  x ∈ rmatch (Cat (lits w) r) prev s
  ↔ ∃ w' s1, s = w' ++ s1 ∧ imatch w w' ∧ x ∈ rmatch r (after prev w') s1.
Proof.
  rewrite rmatch_Cat. split.
  - intros (p1 & s1 & (w' & -> & Hm & ->)%rmatch_lits & Hx). by exists w', s1.
  - intros (w' & s1 & -> & Hm & Hx). exists (after prev w'), s1. split; [|done].
    apply rmatch_lits. by exists w'.
Qed.

Lemma multi_inner_spec pre w suf :
  (last (pre ++ w), suf) ∈ rmatch multi_inner (last pre) (w ++ suf) ↔ numbered w.
Proof.
  unfold multi_inner. rewrite rmatch_Alt, !rmatch_lits_then. split.
  - intros [(m & s1 & Heq & Hm & Hx)|(m & s1 & Heq & Hm & Hx)].
    + apply rmatch_Cat in Hx as (p2 & s2 & H2 & Hx).
      apply rmatch_opt_cls in H2 as (sp & Hsp & -> & ->).
      apply rmatch_plus in Hx as (ds & Hne & -> & Hds & _).
      left. exists m, sp, ds. split_and!; try done.
      apply (app_inv_tail suf). by rewrite Heq, <-!app_assoc.
    + apply rmatch_plus in Hx as (ds & Hne & -> & Hds & _).
      right. exists m, ds. split_and!; try done.
      apply (app_inv_tail suf). by rewrite Heq, <-!app_assoc.
  - intros [(m & sp & ds & -> & Hm & Hsp & Hne & Hds)
           |(m & ds & -> & Hm & Hne & Hds)].
    + left. exists m, (sp ++ ds ++ suf). split_and!; [by rewrite <-!app_assoc|done|].
      apply rmatch_Cat. exists (after (after (last pre) m) sp), (ds ++ suf). split.
      * apply rmatch_opt_cls. by exists sp.
      * apply rmatch_plus. exists ds. split_and!; [done..|].
        by rewrite (last_after (pre ++ _)), !after_app, <-last_after.
    + right. exists m, (ds ++ suf). split_and!; [by rewrite <-!app_assoc|done|].
      apply rmatch_plus. exists ds. split_and!; [done..|].
      by rewrite (last_after (pre ++ _)), !after_app, <-last_after.
Qed.

Lemma search_numbered stem :
  re_search (bounded multi_inner) stem = true ↔ has_numbered stem.
Proof.
  rewrite search_bounded. unfold has_numbered. split.
  - intros (pre & w & suf & ? & ?%multi_inner_spec & ?). by exists pre, w, suf.
  - intros (pre & w & suf & ? & Hn & ?). exists pre, w, suf.
    split_and!; [done| |done]. by apply multi_inner_spec.
Qed.
End Numbered.

Section Special.
Context `{!Runtime}.

Lemma imatch_app a b w :
  imatch (a ++ b) w ↔ ∃ w1 w2, w = w1 ++ w2 ∧ imatch a w1 ∧ imatch b w2.
Proof.
  unfold imatch. split.
  - intros (w1 & w2 & ? & ? & ->)%Forall2_app_inv_l. by exists w1, w2.
  - intros (w1 & w2 & -> & ? & ?). by apply Forall2_app.
Qed.

Lemma rmatch_lits_alt_lits a c1 c2 b prev s p' s' :
  (p', s') ∈ rmatch (Cat (lits a) (Cat (Alt (Lit c1) (Lit c2)) (lits b))) prev s
  ↔ (p', s') ∈ rmatch (lits (a ++ c1 :: b)) prev s
    ∨ (p', s') ∈ rmatch (lits (a ++ c2 :: b)) prev s.
Proof.
  rewrite rmatch_lits_then, !rmatch_lits. split.
  - intros (w1 & s1 & -> & Hm1 & Hx).
    apply rmatch_Cat in Hx as (p2 & s2 & Halt & Hb).
    apply rmatch_Alt in Halt as [HL|HL];
      apply rmatch_Lit in HL as (c' & s2' & -> & Hc & [= -> ->]);
      apply rmatch_lits in Hb as (w2 & -> & Hm2 & ->); [left|right];
      (exists (w1 ++ c' :: w2); split_and!;
       [by rewrite <-app_assoc
       |apply imatch_app; exists w1, (c' :: w2); split_and!; [done..|by constructor]
       |by rewrite after_app, after_cons]).
  - intros [(w & -> & Hm & ->)|(w & -> & Hm & ->)];
      apply imatch_app in Hm as (w1 & w2 & -> & Hm1 & Hm2);
      apply Forall2_cons_inv_l in Hm2 as (c' & w2' & Hc & Hm2 & ->);
      (exists w1, (c' :: w2' ++ s'); split_and!; [by rewrite <-app_assoc|done|];
       apply rmatch_Cat; exists (Some c'), (w2' ++ s'); split;
       [apply rmatch_Alt; first [left; apply rmatch_Lit; by exists c', (w2' ++ s')
                                |right; apply rmatch_Lit; by exists c', (w2' ++ s')]
       |apply rmatch_lits; exists w2'; by rewrite after_app, after_cons]).
Qed.

Lemma pt_inner_ext prev s x :
  x ∈ rmatch pt_inner prev s
  ↔ x ∈ rmatch (any_of (py "PT")
                  [py "Portugues"; py "Portugu" ++ [e_circumflex] ++ py "s";
                   py "Brazil"; py "BR"]) prev s.
Proof.
  destruct x as [p' s'].
  change pt_inner with
    (Alt (lits (py "PT"))
       (Alt (Cat (lits (py "Portugu"))
               (Cat (Alt (Lit 101%N) (Lit e_circumflex)) (lits (py "s"))))
          (Alt (lits (py "Brazil")) (lits (py "BR"))))).
  change (any_of _ _) with
    (Alt (lits (py "PT"))
       (Alt (lits (py "Portugu" ++ 101%N :: py "s"))
          (Alt (lits (py "Portugu" ++ e_circumflex :: py "s"))
             (Alt (lits (py "Brazil")) (lits (py "BR")))))).
  rewrite !rmatch_Alt, rmatch_lits_alt_lits. tauto.
Qed.

Lemma in_cls_Dot c : in_cls Dot c = true ↔ c ≠ newline.
Proof. simpl. by rewrite negb_true_iff, N.eqb_neq. Qed.

(** After [pre_w], on the same line, the text [suf] holds En, Eng or
    English between word boundaries. *)
Definition english_follows (pre_w suf : pystr) : Prop :=
  ∃ gap w rest tok,
    suf = gap ++ w ++ rest ∧ Forall (λ c, c ≠ newline) gap
    ∧ tok ∈ ENGLISH_WORDS ∧ imatch tok w ∧ delimited (pre_w ++ gap) w rest.

Lemma lookahead_spec pre suf :
  (∃ y, y ∈ rmatch (Cat (Star Dot) (bounded english_words)) (last pre) suf)
  ↔ english_follows pre suf.
Proof.
  split.
  - intros ([p' s'] & (p1 & s1 & H1 & Hx)%rmatch_Cat).
    apply rmatch_Star in H1 as (gap & -> & Hgap & ->).
    apply rmatch_bounded in Hx as (Hb & Hx & Hb').
    apply rmatch_any_of in Hx as (tok & w & Htok & -> & Hm & ->).
    rewrite <-after_app, last_after, <-!after_app, <-!last_after in Hb'.
    rewrite last_after, <-after_app, <-last_after in Hb.
    exists gap, w, s', tok. split_and!; [done| |done|done|].
    + eapply Forall_impl; [done|]. intros c. apply in_cls_Dot.
    + split; [done|]. by rewrite <-app_assoc.
  - intros (gap & w & rest & tok & -> & Hgap & Htok & Hm & Hb & Hb').
    exists (last ((pre ++ gap) ++ w), rest). apply rmatch_Cat.
    exists (last (pre ++ gap)), (w ++ rest). split.
    + apply rmatch_Star. exists gap. split_and!; [done| |].
      * eapply Forall_impl; [done|]. intros c. apply in_cls_Dot.
      * by rewrite (last_after (pre ++ _)), after_app, <-last_after.
    + apply rmatch_bounded. split_and!; [done| |done].
      apply rmatch_any_of. exists tok, w. split_and!; [done..|].
      by rewrite (last_after ((pre ++ _) ++ _)), after_app, <-last_after.
Qed.

Lemma search_eu stem :
  re_search eu_pattern stem = true
  ↔ ∃ pre w suf tok,
      stem = pre ++ w ++ suf ∧ tok ∈ REGION_WORDS ∧ imatch tok w
      ∧ delimited pre w suf ∧ ¬ english_follows (pre ++ w) suf.
Proof.
  rewrite re_search_spec. unfold eu_pattern. split.
  - intros (pre & s0 & -> & [p' s'] & (p1 & s1 & H1 & Hx)%rmatch_Cat).
    apply rmatch_bounded in H1 as (Hb & H1 & Hb').
    apply rmatch_any_of in H1 as (tok & w & Htok & -> & Hm & ->).
    apply rmatch_NLook in Hx as [[= ? ?] Hno]. subst p' s'.
    rewrite last_after, <-after_app, <-!last_after in Hb', Hno.
    exists pre, w, s1, tok. split_and!; [done..|by split|].
    intros Hf. apply Hno. by apply lookahead_spec.
  - intros (pre & w & suf & tok & -> & Htok & Hm & [Hb Hb'] & Hno).
    exists pre, (w ++ suf). split; [done|]. exists (last (pre ++ w), suf).
    apply rmatch_Cat. exists (last (pre ++ w)), suf. split.
    + apply rmatch_bounded. split_and!; [done| |done].
      apply rmatch_any_of. exists tok, w. split_and!; [done..|].
      by rewrite (last_after (pre ++ _)), after_app, <-last_after.
    + apply rmatch_NLook. split; [done|]. intros Hy. apply Hno.
      by apply lookahead_spec.
Qed.
End Special.

Ltac solve_elem :=
  repeat first [apply list_elem_of_here | apply list_elem_of_further].

Ltac split_elem H :=
  repeat (apply elem_of_cons in H as [H|H]); [..|by apply elem_of_nil in H].

Section Detection.
Context `{!Runtime}.

Lemma detect_languages_intro tag pats pat stem :
  (tag, pats) ∈ LANGUAGE_PATTERNS → pat ∈ pats → re_search pat stem = true →
  tag ∈ detect_languages stem.
Proof. intros. apply detect_languages_spec. by exists pats, pat. Qed.

Lemma has_word_english ws stem :
  ws ⊆ ENGLISH_WORDS → has_word ws stem →
  ∃ ws', (py "en", ws') ∈ WORDS ∧ has_word ws' stem.
Proof.
  intros Hsub Hw. exists ENGLISH_WORDS. split; [unfold WORDS; solve_elem|].
  by eapply has_word_mono.
Qed.

Lemma detect_words tag ws stem :
  (tag, ws) ∈ WORDS → has_word ws stem → tag ∈ detect_languages stem.
Proof.
  intros Hin Hw. unfold WORDS in Hin. split_elem Hin;
    injection Hin as -> ->;
    first
      [ eapply detect_languages_intro;
        [unfold LANGUAGE_PATTERNS; solve_elem
        |apply list_elem_of_here
        |apply (search_bounded_ext _ _ _ pt_inner_ext), search_words, Hw]
      | match type of Hw with
        | has_word (?w :: ?l) _ =>
            eapply (detect_languages_intro _ _ (bounded (any_of w l)));
            [unfold LANGUAGE_PATTERNS; solve_elem
            |solve_elem
            |apply search_words, Hw]
        end ].
Qed.

Lemma detect_markers tag m stem :
  (tag, m) ∈ MARKERS → has_marker m stem → tag ∈ detect_languages stem.
Proof.
  intros Hin Hm. unfold MARKERS in Hin. split_elem Hin;
    injection Hin as -> ->;
    match type of Hm with
    | has_marker ?m _ =>
        eapply (detect_languages_intro _ _ (lits m));
        [unfold LANGUAGE_PATTERNS; solve_elem|solve_elem|apply search_marker, Hm]
    end.
Qed.

Lemma detect_numbered stem :
  has_numbered stem → py "multi" ∈ detect_languages stem.
Proof.
  intros Hn. eapply (detect_languages_intro _ _ (bounded multi_inner)).
  - unfold LANGUAGE_PATTERNS. solve_elem.
  - solve_elem.
  - by apply search_numbered.
Qed.
End Detection.

Section Tokens_exact.
Context `{!Runtime}.

(** What a stem must hold for a tag other than eu. *)
Definition token_of (tag stem : pystr) : Prop :=
  (∃ ws, (tag, ws) ∈ WORDS ∧ has_word ws stem)
  ∨ (∃ m, (tag, m) ∈ MARKERS ∧ has_marker m stem)
  ∨ (tag = py "multi" ∧ has_numbered stem).

(** What a stem must hold for eu. *)
Definition region_token (stem : pystr) : Prop :=
  ∃ pre w suf tok,
    stem = pre ++ w ++ suf ∧ tok ∈ REGION_WORDS ∧ imatch tok w
    ∧ delimited pre w suf ∧ ¬ english_follows (pre ++ w) suf.

Lemma detect_sound tag stem :
  tag ∈ detect_languages stem →
  token_of tag stem ∨ (tag = py "eu" ∧ region_token stem).
Proof.
  intros (pats & pat & Hin & Hpat & Hs)%detect_languages_spec.
  unfold LANGUAGE_PATTERNS in Hin. split_elem Hin;
    apply pair_equal_spec in Hin as [-> ->]; split_elem Hpat; subst pat;
    first
      [ right; split; [done|]; by apply search_eu
      | left; first
          [ apply search_words in Hs; left; eexists; split; [|exact Hs];
            unfold WORDS; solve_elem
          | apply search_marker in Hs; right; left; eexists; split; [|exact Hs];
            unfold MARKERS; solve_elem
          | apply search_numbered in Hs; by right; right
          | apply (search_bounded_ext _ _ _ pt_inner_ext), search_words in Hs;
            left; eexists; split; [|exact Hs]; unfold WORDS; solve_elem
          | apply re_search_then, search_words in Hs; left;
            eapply has_word_english; [|exact Hs];
            unfold ENGLISH_WORDS; intros ? ?%list_elem_of_In;
            apply list_elem_of_In; simpl in *; tauto
          ] ].
Qed.
End Tokens_exact.

(** C5, as the code has it: for every tag but eu, the tag is detected
    exactly when the stem holds one of the tag's words between word
    boundaries, one of its markers anywhere, or, for multi, a numbered
    release between word boundaries.  Words inside a longer word do not
    count; markers do. *)
Theorem detect_languages_tokens `{!Runtime} (tag stem : pystr) :
  tag ≠ py "eu" → (tag ∈ detect_languages stem ↔ token_of tag stem).
Proof.
  intros Hne. split.
  - by intros [?|[? _]]%detect_sound.
  - intros [(ws & ? & ?)|[(m & ? & ?)|[-> ?]]];
      [by eapply detect_words|by eapply detect_markers|by apply detect_numbered].
Qed.

(** C9, as the code has it: eu is detected exactly when some EUR, Europe
    or EU between word boundaries has no En, Eng or English between word
    boundaries after it on the same line.  English before the region,
    and USA, U or World anywhere, leave eu in place. *)
Theorem eu_tagging_rule `{!Runtime} (stem : pystr) :
  py "eu" ∈ detect_languages stem ↔ region_token stem.
Proof.
  split.
  - intros [Ht|[_ ?]]%detect_sound; [|done].
    destruct Ht as [(ws & Hin & _)|[(m & Hin & _)|[? _]]]; [| |done].
    + unfold WORDS in Hin. split_elem Hin; discriminate.
    + unfold MARKERS in Hin. split_elem Hin; discriminate.
  - intros Hr. eapply (detect_languages_intro _ _ eu_pattern).
    + unfold LANGUAGE_PATTERNS. solve_elem.
    + solve_elem.
    + by apply search_eu.
Qed.

(** ** Paths and directory listings *)

Lemma dirname_snoc (p : path) x : dirname (p ++ [x]) = p.
Proof. apply removelast_last. Qed.

Lemma basename_snoc (p : path) x : basename (p ++ [x]) = x.
Proof. unfold basename. by rewrite last_snoc. Qed.

Lemma path_snoc_inv (p : path) top x :
  dirname p = top → last p = Some x → p = top ++ [x].
Proof.
  intros <- Hl. apply last_Some in Hl as [l' ->]. by rewrite dirname_snoc.
Qed.

Lemma child_names_spec (fs : FS) top x :
  x ∈ child_names fs top ↔ is_Some (fs !! (top ++ [x])).
Proof.
  unfold child_names. rewrite list_elem_of_omap. split.
  - intros ([p n] & Hin & Hx). simpl in Hx. case_bool_decide as Hd; [|done].
    apply elem_of_map_to_list in Hin.
    rewrite <-(path_snoc_inv p top x) by done. eauto.
  - intros [n Hn]. exists (top ++ [x], n). split.
    + by apply elem_of_map_to_list.
    + simpl. rewrite bool_decide_eq_true_2 by apply dirname_snoc.
      apply last_snoc.
Qed.

Lemma child_names_NoDup (fs : FS) top : NoDup (child_names fs top).
Proof.
  unfold child_names.
  assert (Hnd : NoDup (map_to_list fs).*1) by apply NoDup_fst_map_to_list.
  induction (map_to_list fs) as [|[p n] l IH]; simpl; [constructor|].
  apply NoDup_cons in Hnd as [Hp Hnd]. specialize (IH Hnd).
  case_bool_decide as Hd; [|done].
  destruct (last p) as [x|] eqn:Hl; [|done]. simpl.
  apply NoDup_cons. split; [|done].
  rewrite list_elem_of_omap. intros ([q m] & Hin & Hx). simpl in Hx.
  case_bool_decide as Hd'; [|done].
  apply Hp. simpl. rewrite (path_snoc_inv p top x), <-(path_snoc_inv q top x) by done.
  apply list_elem_of_fmap. by exists (q, m).
Qed.

Lemma depth_le (fs : FS) p : is_Some (fs !! p) → length p ≤ depth fs.
Proof.
  intros [n Hn]. unfold depth. apply max_list_elem_of_le.
  apply list_elem_of_fmap. exists p. split; [done|].
  apply list_elem_of_fmap. exists (p, n). split; [done|].
  by apply elem_of_map_to_list.
Qed.

Lemma isdir_true (fs : FS) p : isdir fs p = true ↔ fs !! p = Some Dir.
Proof. apply bool_decide_eq_true. Qed.

Lemma isdir_false (fs : FS) p : isdir fs p = false ↔ fs !! p ≠ Some Dir.
Proof. apply bool_decide_eq_false. Qed.

Lemma path_exists_true (fs : FS) p : path_exists fs p = true ↔ is_Some (fs !! p).
Proof. apply bool_decide_eq_true. Qed.

Lemma path_exists_false (fs : FS) p : path_exists fs p = false ↔ fs !! p = None.
Proof. unfold path_exists. rewrite bool_decide_eq_false. symmetry. apply eq_None_not_Some. Qed.

Section Listing.
Context `{!Runtime}.

Lemma scandir_None (fs : FS) top :
  scandir fs top = None ↔ fs !! top ≠ Some Dir.
Proof.
  unfold scandir. destruct (isdir fs top) eqn:Hd.
  - apply isdir_true in Hd. naive_solver.
  - apply isdir_false in Hd. naive_solver.
Qed.

Lemma scandir_Some (fs : FS) top dirs nondirs :
  scandir fs top = Some (dirs, nondirs) →
  fs !! top = Some Dir
  ∧ NoDup dirs ∧ NoDup nondirs
  ∧ (∀ x, x ∈ dirs ↔ fs !! (top ++ [x]) = Some Dir)
  ∧ (∀ x, x ∈ nondirs ↔ ∃ d, fs !! (top ++ [x]) = Some (File d)).
Proof.
  unfold scandir. destruct (isdir fs top) eqn:Hd; [|done].
  apply isdir_true in Hd. intros [= <- <-].
  assert (Hnd : NoDup (listdir_order top (child_names fs top))).
  { rewrite listdir_order_perm. apply child_names_NoDup. }
  assert (Hin : ∀ x, x ∈ listdir_order top (child_names fs top)
                     ↔ is_Some (fs !! (top ++ [x]))).
  { intros x. rewrite listdir_order_perm. apply child_names_spec. }
  split_and!; [done|by apply NoDup_filter..| |].
  - intros x. rewrite list_elem_of_filter, Hin. naive_solver.
  - intros x. rewrite list_elem_of_filter, Hin. split.
    + intros [Hne [[d|] Hx]]; [eauto|done].
    + intros [d Hx]. rewrite Hx. eauto.
Qed.
End Listing.

(** ** Reasoning about runs *)

(** What a result satisfies: [Q] when it returns, [E] when it raises;
    running out of fuel satisfies nothing. *)
Definition outcome {A} (r : res A) (Q : A → FS → Prop) (E : FS → Prop) : Prop :=
  match r with
  | Ok a fs => Q a fs
  | Raise fs => E fs
  | OutOfFuel => False
  end.

Lemma outcome_bind {A B} (m : M A) (k : A → M B) (fs : FS)
    (Q1 : A → FS → Prop) (Q2 : B → FS → Prop) (E : FS → Prop) :
  outcome (m fs) Q1 E →
  (∀ a fs', Q1 a fs' → outcome (k a fs') Q2 E) →
  outcome ((m ≫= k) fs) Q2 E.
Proof.
  unfold mbind, M_bind. destruct (m fs); simpl; [|done..].
  intros HQ Hk. by apply Hk.
Qed.

Lemma outcome_weaken {A} (r : res A) (Q1 Q2 : A → FS → Prop) (E1 E2 : FS → Prop) :
  outcome r Q1 E1 →
  (∀ a fs, Q1 a fs → Q2 a fs) → (∀ fs, E1 fs → E2 fs) →
  outcome r Q2 E2.
Proof. destruct r; simpl; eauto. Qed.

Lemma outcome_ret {A} (a : A) (fs : FS) (Q : A → FS → Prop) (E : FS → Prop) :
  Q a fs → outcome ((mret a : M A) fs) Q E.
Proof. done. Qed.

Section for_each_rule.
Context {A S : Type}.
Variables (I : S → FS → Prop) (E : FS → Prop) (R : S → FS → S → FS → Prop).
Variables (Pre Post : A → S → FS → Prop) (step : A → S → M S).
Hypothesis R_refl : ∀ s fs, R s fs s fs.
Hypothesis R_trans : ∀ s1 f1 s2 f2 s3 f3,
  R s1 f1 s2 f2 → R s2 f2 s3 f3 → R s1 f1 s3 f3.
Hypothesis Post_stable : ∀ x s fs s' fs',
  R s fs s' fs' → Post x s fs → Post x s' fs'.

(** A loop over distinct elements: each step may rely on [Pre] of its
    own element as long as the other steps leave it alone, and
    establishes [Post], which later steps keep. *)
Lemma for_each_rule xs :
  NoDup xs →
  (∀ x s fs, x ∈ xs → I s fs → Pre x s fs →
     outcome (step x s fs)
       (λ s' fs', I s' fs' ∧ R s fs s' fs' ∧ Post x s' fs'
                  ∧ ∀ y, y ∈ xs → y ≠ x → Pre y s fs → Pre y s' fs') E) →
  ∀ s fs, I s fs → (∀ x, x ∈ xs → Pre x s fs) →
    outcome (for_each xs step s fs)
      (λ s' fs', I s' fs' ∧ R s fs s' fs' ∧ ∀ x, x ∈ xs → Post x s' fs') E.
Proof.
  induction xs as [|x xs IH]; intros Hnd Hstep s fs HI HPre; simpl.
  { split_and!; [done|apply R_refl|]. intros x Hx. by apply elem_of_nil in Hx. }
  apply NoDup_cons in Hnd as [Hx Hnd].
  eapply outcome_bind.
  { apply Hstep; [left|done|]. apply HPre. left. }
  intros s1 fs1 (HI1 & HR1 & HP1 & Hframe). simpl.
  eapply outcome_weaken; [apply IH|..]; try done.
  - intros y s2 fs2 Hy HI2 HPre2.
    eapply outcome_weaken; [apply Hstep; [by right|done..]| |done].
    intros s3 fs3 (? & ? & ? & Hfr). split_and!; try done.
    intros z Hz. apply Hfr. by right.
  - intros y Hy. apply Hframe; [by right| |apply HPre; by right].
    intros ->. done.
  - intros s2 fs2 (HI2 & HR2 & HP2). split_and!; [done|by eapply R_trans|].
    intros y [->|Hy]%elem_of_cons; [by eapply Post_stable|by apply HP2].
Qed.
End for_each_rule.

Section walk_rule.
Context `{!Runtime} {S : Type}.
Variables (I : S → FS → Prop) (E : FS → Prop) (R : S → FS → S → FS → Prop).
Variables (region : path → Prop) (Done : path → S → FS → Prop).
Variables (B : nat) (top0 : path).
Variable body : path → list pystr → list pystr → S → M S.

Hypothesis R_refl : ∀ s fs, R s fs s fs.
Hypothesis R_trans : ∀ s1 f1 s2 f2 s3 f3,
  R s1 f1 s2 f2 → R s2 f2 s3 f3 → R s1 f1 s3 f3.
Hypothesis I_bound : ∀ s fs p, I s fs → is_Some (fs !! p) → length p ≤ B.
Hypothesis I_parent : ∀ s fs p x,
  I s fs → region (p ++ [x]) → is_Some (fs !! (p ++ [x])) → fs !! p = Some Dir.
Hypothesis R_file : ∀ s fs s' fs' p d,
  R s fs s' fs' → region p → fs' !! p = Some (File d) → fs !! p = Some (File d).
Hypothesis R_dir : ∀ s fs s' fs' p,
  R s fs s' fs' → region p → fs' !! p = Some Dir → fs !! p = Some Dir.
Hypothesis R_done : ∀ s fs s' fs' p,
  R s fs s' fs' → Done p s fs → Done p s' fs'.
Hypothesis region_between : ∀ q p,
  top0 `prefix_of` q → q `prefix_of` p → region p → region q.
Hypothesis body_spec : ∀ base dirs files s fs,
  top0 `prefix_of` base → I s fs → scandir fs base = Some (dirs, files) →
  outcome (body base dirs files s fs)
    (λ s' fs', I s' fs' ∧ R s fs s' fs'
               ∧ ∀ f d, region (base ++ [f]) →
                        fs' !! (base ++ [f]) = Some (File d) →
                        Done (base ++ [f]) s' fs') E.

(** Every file of the region strictly below [top] is [Done]. *)
Definition covered (top : path) (s : S) (fs : FS) : Prop :=
  ∀ p d, top `prefix_of` p → p ≠ top → region p →
         fs !! p = Some (File d) → Done p s fs.

Lemma covered_stable top s fs s' fs' :
  R s fs s' fs' → covered top s fs → covered top s' fs'.
Proof.
  intros HR Hc p d Hpre Hne Hreg Hp.
  eapply R_done; [done|]. eapply Hc; [done..|]. by eapply R_file.
Qed.

Lemma ancestor_dir s fs q rest :
  I s fs → top0 `prefix_of` q → region (q ++ rest) →
  is_Some (fs !! (q ++ rest)) → rest ≠ [] → fs !! q = Some Dir.
Proof.
  intros HI Hq. induction rest as [|x rest IH] using rev_ind; [done|].
  intros Hreg Hsome _. rewrite app_assoc in Hreg, Hsome.
  pose proof (I_parent _ _ _ _ HI Hreg Hsome) as Hd.
  destruct (decide (rest = [])) as [->|Hne]; [by rewrite app_nil_r in Hd|].
  apply IH; [|by rewrite Hd|done].
  eapply region_between; [|by apply prefix_app_r|done].
  by apply prefix_app_r.
Qed.

Lemma walk_topdown_rule fuel top s fs :
  top0 `prefix_of` top → I s fs → 1 ≤ fuel → B + 1 ≤ fuel + length top →
  outcome (walk_topdown fuel top body s fs)
    (λ s' fs', I s' fs' ∧ R s fs s' fs' ∧ covered top s' fs') E.
Proof.
  revert top s fs. induction fuel as [|n IH]; intros top s fs Htop HI Hf1 Hf2; [lia|].
  simpl. destruct (scandir fs top) as [[dirs files]|] eqn:Hscan.
  - pose proof (scandir_Some _ _ _ _ Hscan) as (Hd & NDd & NDf & Hdirs & Hfiles).
    eapply outcome_bind; [by apply body_spec|].
    intros s1 fs1 (HI1 & HR1 & Hloc). simpl.
    eapply outcome_weaken;
      [apply (for_each_rule I E R (λ _ _ _, True)
                (λ d s fs, covered (top ++ [d]) s fs))
         with (xs := dirs); try done| |done].
    + intros x s2 fs2 s3 fs3. apply covered_stable.
    + intros x s2 fs2 Hx HI2 _.
      assert (length (top ++ [x]) ≤ B) as Hlen.
      { eapply I_bound; [exact HI|]. apply Hdirs in Hx. by rewrite Hx. }
      rewrite length_app in Hlen. simpl in Hlen.
      eapply outcome_weaken; [apply IH| |done].
      * by apply prefix_app_r.
      * done.
      * lia.
      * rewrite length_app. simpl. lia.
      * intros s3 fs3 (? & ? & ?). done.
    + intros s2 fs2 (HI2 & HR2 & Hcov). split_and!; [done|by eapply R_trans|].
      intros p d [rest ->] Hne Hreg Hp.
      destruct rest as [|x rest]; [by rewrite app_nil_r in Hne|].
      destruct rest as [|y rest].
      * eapply R_done; [done|]. eapply Hloc; [done|]. by eapply R_file.
      * replace (top ++ x :: y :: rest) with ((top ++ [x]) ++ y :: rest) in *
          by by rewrite <-app_assoc.
        assert (region (top ++ [x])) as Hregx.
        { eapply region_between; [|by apply prefix_app_r|done].
          by apply prefix_app_r. }
        eapply Hcov; [|by apply prefix_app_r| |done|done].
        -- apply Hdirs. eapply R_dir; [by eapply R_trans|done|].
           eapply ancestor_dir; [done| |done|by rewrite Hp|done].
           by apply prefix_app_r.
        -- intros Heq. apply (f_equal length) in Heq.
           rewrite length_app in Heq. simpl in Heq. lia.
  - simpl. split_and!; [done|apply R_refl|].
    intros p d [rest ->] Hne Hreg Hp. apply scandir_None in Hscan.
    destruct Hscan. eapply ancestor_dir; [done|done|done|by rewrite Hp|].
    intros ->. by rewrite app_nil_r in Hne.
Qed.

Lemma os_walk_rule top s fs :
  top0 `prefix_of` top → I s fs → B ≤ 1 + depth fs + length top →
  outcome (os_walk top true body s fs)
    (λ s' fs', I s' fs' ∧ R s fs s' fs' ∧ covered top s' fs') E.
Proof.
  intros. unfold os_walk. apply walk_topdown_rule; [done|done|lia|lia].
Qed.
End walk_rule.

(** ** Creating directories, probing for a free name, moving *)

(** [q] is one of the directories that [os.makedirs p] may create. *)
Definition chain (p q : path) : Prop := q ≠ [] ∧ q `prefix_of` p.

(** From [fs] to [fs'] nothing changed but new directories on the way
    to [p]. *)
Definition grows (p : path) (fs fs' : FS) : Prop :=
  ∀ q, fs' !! q = fs !! q ∨ (fs !! q = None ∧ fs' !! q = Some Dir ∧ chain p q).

(** A file sits where [os.makedirs p] needs a directory. *)
Definition blocked (p : path) (fs : FS) : Prop :=
  ∃ q d, chain p q ∧ fs !! q = Some (File d).

Lemma grows_refl p fs : grows p fs fs.
Proof. intros q. by left. Qed.

Lemma grows_Some p fs fs' q n : grows p fs fs' → fs !! q = Some n → fs' !! q = Some n.
Proof. intros Hg Hq. destruct (Hg q) as [->|[? _]]; congruence. Qed.

Lemma grows_File p fs fs' q d :
  grows p fs fs' → fs' !! q = Some (File d) → fs !! q = Some (File d).
Proof. intros Hg Hq. destruct (Hg q) as [<-|(_ & ? & _)]; congruence. Qed.

Lemma grows_None p fs fs' q : grows p fs fs' → fs' !! q = None → fs !! q = None.
Proof. intros Hg Hq. destruct (Hg q) as [<-|(? & _)]; congruence. Qed.

Section Relocation.
Context `{!Runtime}.

Lemma makedirs_from_spec todo : ∀ done fs,
  outcome (makedirs_from done todo fs)
    (λ _ fs', grows (done ++ todo) fs fs'
              ∧ ∀ t1 t2, todo = t1 ++ t2 → t1 ≠ [] → fs' !! (done ++ t1) = Some Dir)
    (λ fs', grows (done ++ todo) fs fs'
            ∧ ∃ t1 t2 d, todo = t1 ++ t2 ∧ t1 ≠ []
                         ∧ fs !! (done ++ t1) = Some (File d)).
Proof.
  induction todo as [|x todo IH]; intros done fs; simpl.
  { split; [apply grows_refl|]. intros t1 t2 Heq Hne. by destruct t1. }
  assert (Hch : ∀ q, chain ((done ++ [x]) ++ todo) q → chain (done ++ x :: todo) q).
  { intros q. by rewrite <-app_assoc. }
  destruct (fs !! (done ++ [x])) as [[d|]|] eqn:Hx.
  - simpl. split; [apply grows_refl|]. exists [x], todo, d. done.
  - eapply outcome_weaken; [apply IH|..].
    + intros _ fs' (Hg & Hd). split.
      * intros q. destruct (Hg q) as [?|(? & ? & ?)]; [by left|right; eauto].
      * intros [|y t1] t2 Heq Hne; [done|]. simplify_eq/=.
        destruct (decide (t1 = [])) as [->|Ht1].
        -- by eapply grows_Some.
        -- specialize (Hd t1 t2 eq_refl Ht1). by rewrite <-app_assoc in Hd.
    + intros fs' (Hg & t1 & t2 & d & -> & Hne & Hf). split.
      * intros q. destruct (Hg q) as [?|(? & ? & ?)]; [by left|right; eauto].
      * exists (x :: t1), t2, d. split_and!; [done..|].
        by rewrite <-app_assoc in Hf.
  - assert (Hins : grows (done ++ x :: todo) fs (<[done ++ [x] := Dir]> fs)).
    { intros q. destruct (decide (q = done ++ [x])) as [->|Hq].
      - right. rewrite lookup_insert_eq. split_and!; [done..|]. split.
        + by destruct done.
        + apply prefix_app, prefix_cons, prefix_nil.
      - left. by rewrite lookup_insert_ne. }
    eapply outcome_weaken; [apply IH|..].
    + intros _ fs' (Hg & Hd). split.
      * intros q. destruct (Hg q) as [Heq|(Hn & ? & ?)].
        -- rewrite Heq. apply Hins.
        -- right. split_and!; [|done|by apply Hch].
           destruct (Hins q) as [<-|(? & _)]; done.
      * intros [|y t1] t2 Heq Hne; [done|]. simplify_eq/=.
        destruct (decide (t1 = [])) as [->|Ht1].
        -- eapply grows_Some; [done|]. by rewrite lookup_insert_eq.
        -- specialize (Hd t1 t2 eq_refl Ht1). by rewrite <-app_assoc in Hd.
    + intros fs' (Hg & t1 & t2 & d & -> & Hne & Hf). split.
      * intros q. destruct (Hg q) as [Heq|(Hn & ? & ?)].
        -- rewrite Heq. apply Hins.
        -- right. split_and!; [|done|by apply Hch].
           destruct (Hins q) as [<-|(? & _)]; done.
      * exists (x :: t1), t2, d. split_and!; [done..|].
        rewrite <-app_assoc in Hf. simpl in Hf.
        rewrite lookup_insert_ne in Hf; [done|].
        intros Heq. apply app_inv_head in Heq. by simplify_eq.
Qed.

Lemma os_makedirs_spec p fs :
  outcome (os_makedirs p fs)
    (λ _ fs', grows p fs fs' ∧ ∀ q, chain p q → fs' !! q = Some Dir)
    (λ fs', grows p fs fs' ∧ blocked p fs).
Proof.
  eapply outcome_weaken; [apply (makedirs_from_spec p [] fs)|..]; simpl.
  - intros _ fs' (Hg & Hd). split; [done|].
    intros q [Hne [t2 ->]]. by eapply Hd.
  - intros fs' (Hg & t1 & t2 & d & -> & Hne & Hf). split; [done|].
    exists t1, d. split; [|done]. split; [done|]. by exists t2.
Qed.

Lemma ensure_parent_dir_spec p fs :
  outcome (ensure_parent_dir p fs)
    (λ _ fs', grows (dirname p) fs fs'
              ∧ (dirname p ≠ [] ∨ fs !! [] = Some Dir → fs' !! dirname p = Some Dir))
    (λ fs', grows (dirname p) fs fs' ∧ blocked (dirname p) fs).
Proof.
  unfold ensure_parent_dir. destruct (isdir fs (dirname p)) eqn:Hd; simpl.
  - apply isdir_true in Hd. split; [apply grows_refl|done].
  - eapply outcome_weaken; [apply os_makedirs_spec|..]; simpl; [|done].
    intros _ fs' [Hg Hc]. split; [done|]. intros [Hne|Hroot].
    + apply Hc. by split.
    + destruct (decide (dirname p = [])) as [Heq|Hne].
      * rewrite Heq. by eapply grows_Some.
      * apply Hc. by split.
Qed.
End Relocation.

Global Instance py_inj : Inj (=) (=) py.
Proof.
  intros s1 s2 Heq. unfold py in Heq.
  assert (Inj (=) (=) N_of_ascii) as Hinj.
  { intros a b Hab. by rewrite <-(ascii_N_embedding a), Hab, ascii_N_embedding. }
  apply (inj (fmap N_of_ascii)) in Heq.
  by rewrite <-(String.string_of_list_ascii_of_string s1), Heq,
    String.string_of_list_ascii_of_string.
Qed.

(** The name that [unique_destination_path] settles on: the path itself
    when it is free, else the candidate with the least free counter. *)
Definition free_name `{!Runtime} (fs : FS) (dest final : path) : Prop :=
  (fs !! dest = None ∧ final = dest)
  ∨ (is_Some (fs !! dest)
     ∧ ∃ n, (1 ≤ n)%N ∧ final = candidate dest n
            ∧ ∀ m, (1 ≤ m < n)%N → is_Some (fs !! candidate dest m)).

Section Unique.
Context `{!Runtime}.

Lemma candidate_inj dest : Inj (=) (=) (candidate dest).
Proof.
  intros n m. unfold candidate. destruct (splitext (basename dest)) as [stem ext].
  assert (∀ a b : pystr, [a] = [b] → a = b) as Hone by (by intros ?? [= ->]).
  intros Heq. apply app_inv_head, Hone in Heq.
  do 2 apply app_inv_head in Heq. apply app_inv_tail in Heq.
  by apply (inj py), (inj pretty) in Heq.
Qed.

Lemma dirname_candidate dest n : dirname (candidate dest n) = dirname dest.
Proof.
  unfold candidate. destruct (splitext (basename dest)). apply dirname_snoc.
Qed.

Lemma probe_Some fuel fs dest : ∀ c p,
  probe fuel fs dest c = Some p →
  ∃ n, (c ≤ n)%N ∧ p = candidate dest n ∧ fs !! p = None
       ∧ ∀ m, (c ≤ m < n)%N → is_Some (fs !! candidate dest m).
Proof.
  induction fuel as [|fuel IH]; intros c p; simpl; [done|].
  destruct (path_exists fs (candidate dest c)) eqn:Hex.
  - intros (n & Hle & -> & Hfree & Hbusy)%IH. exists n.
    split_and!; [lia|done..|]. intros m Hm.
    destruct (decide (m = c)) as [->|]; [by apply path_exists_true|].
    apply Hbusy. lia.
  - intros [= <-]. exists c. split_and!; [lia|done|by apply path_exists_false|].
    intros m Hm. lia.
Qed.

Lemma probe_None fuel fs dest : ∀ c,
  probe fuel fs dest c = None →
  ∀ i, i < fuel → is_Some (fs !! candidate dest (c + N.of_nat i)).
Proof.
  induction fuel as [|fuel IH]; intros c; simpl; [intros _ i ?; lia|].
  destruct (path_exists fs (candidate dest c)) eqn:Hex; [|done].
  intros Hn [|i] Hi.
  - rewrite N.add_0_r. by apply path_exists_true.
  - replace (c + N.of_nat (S i))%N with (c + 1 + N.of_nat i)%N by lia.
    apply IH; [done|lia].
Qed.

(** The probing loop ends: the candidates are pairwise distinct and
    the file system is finite. *)
Lemma probe_total fs dest c : is_Some (probe (S (size fs)) fs dest c).
Proof.
  destruct (probe (S (size fs)) fs dest c) eqn:Hp; [done|exfalso].
  pose proof (probe_None _ _ _ _ Hp) as Hall.
  set (l := (λ i, candidate dest (c + N.of_nat i)) <$> seq 0 (S (size fs))).
  assert (NoDup l) as Hnd.
  { apply NoDup_fmap_2; [|apply NoDup_seq].
    intros i j Hij. apply candidate_inj in Hij. lia. }
  assert (list_to_set l ⊆ dom fs) as Hsub.
  { intros q Hq. apply elem_of_list_to_set, list_elem_of_fmap in Hq as (i & -> & Hi).
    apply elem_of_dom, Hall. apply elem_of_seq in Hi. lia. }
  apply subseteq_size in Hsub.
  rewrite size_list_to_set, size_dom in Hsub by done.
  unfold l in Hsub. rewrite length_fmap, length_seq in Hsub. lia.
Qed.

Lemma unique_destination_path_spec dest fs :
  ∃ final, unique_destination_path dest fs = Ok final fs
           ∧ fs !! final = None ∧ free_name fs dest final.
Proof.
  unfold unique_destination_path. destruct (path_exists fs dest) eqn:Hex; cbn [negb].
  - destruct (probe_total fs dest 1%N) as [p Hp]. rewrite Hp.
    apply probe_Some in Hp as (n & Hle & -> & Hfree & Hbusy).
    exists (candidate dest n). split_and!; [done..|]. right.
    split; [by apply path_exists_true|]. by exists n.
  - apply path_exists_false in Hex. exists dest. split_and!; [done..|]. by left.
Qed.

Lemma free_name_dirname fs dest final :
  free_name fs dest final → dirname final = dirname dest.
Proof.
  intros [[_ ->]|[_ (n & _ & -> & _)]]; [done|apply dirname_candidate].
Qed.

Lemma shutil_move_free src dst fs d :
  fs !! src = Some (File d) → fs !! dst = None → fs !! dirname dst = Some Dir →
  shutil_move src dst fs = Ok () (<[dst := File d]> (delete src fs)).
Proof.
  intros Hsrc Hdst Hpar. unfold shutil_move. rewrite Hsrc.
  assert (isdir fs dst = false) as -> by (apply isdir_false; congruence).
  simpl. by assert (isdir fs (dirname dst) = true) as -> by by apply isdir_true.
Qed.

(** A live relocation: directories may appear on the way to the
    destination, then the file leaves [src] for a name that was
    free. *)
Lemma relocate_spec src dest fs :
  outcome (relocate src dest fs)
    (λ final fs', ∃ fs_a d,
       grows (dirname dest) fs fs_a
       ∧ fs !! src = Some (File d) ∧ fs_a !! src = Some (File d)
       ∧ fs_a !! final = None ∧ free_name fs_a dest final
       ∧ fs_a !! dirname dest = Some Dir
       ∧ fs' = <[final := File d]> (delete src fs_a))
    (λ fs', grows (dirname dest) fs fs'
            ∧ (blocked (dirname dest) fs
               ∨ (∀ d, fs !! src ≠ Some (File d))
               ∨ (dirname dest = [] ∧ fs !! [] ≠ Some Dir))).
Proof.
  unfold relocate. eapply outcome_bind.
  { eapply outcome_weaken; [apply ensure_parent_dir_spec|intros ?? Hq; exact Hq|].
    intros fs' [? ?]. split; [done|by left]. }
  simpl. intros _ fs_a [Hg Hpar].
  destruct (unique_destination_path_spec dest fs_a) as (final & Hu & Hfree & Hname).
  unfold mbind, M_bind at 1. rewrite Hu.
  destruct (fs_a !! src) as [[d|]|] eqn:Hsrc.
  - destruct (decide (fs_a !! dirname dest = Some Dir)) as [Hd|Hd].
    + unfold mbind, M_bind.
      rewrite (shutil_move_free src final fs_a d); simpl;
        [|done..|by rewrite (free_name_dirname fs_a dest)].
      exists fs_a, d. split_and!; try done. by eapply grows_File.
    + unfold mbind, M_bind, shutil_move. rewrite Hsrc.
      assert (isdir fs_a final = false) as ->
        by (apply isdir_false; congruence).
      simpl. rewrite (free_name_dirname fs_a dest) by done.
      assert (isdir fs_a (dirname dest) = false) as -> by by apply isdir_false.
      simpl. split; [done|]. right; right.
      destruct (decide (dirname dest = [])) as [Hnil|Hnil]; [|by destruct Hd; auto].
      split; [done|]. intros Hroot. destruct Hd; auto.
  - unfold mbind, M_bind, shutil_move. rewrite Hsrc. simpl.
    split; [done|]. right; left. intros d Hd.
    eapply grows_Some in Hd; [|done]. congruence.
  - unfold mbind, M_bind, shutil_move. rewrite Hsrc. simpl.
    split; [done|]. right; left. intros d Hd.
    eapply grows_Some in Hd; [|done]. congruence.
Qed.
End Unique.

(** ** Collision safety *)

Lemma relocate_frame `{!Runtime} src dest fs final fs' :
  relocate src dest fs = Ok final fs' →
  fs !! final = None
  ∧ (∃ d, fs !! src = Some (File d) ∧ fs' !! final = Some (File d))
  ∧ ∀ q, q ≠ src → is_Some (fs !! q) → fs' !! q = fs !! q.
Proof.
  intros Hrel. pose proof (relocate_spec src dest fs) as Hspec.
  rewrite Hrel in Hspec. simpl in Hspec.
  destruct Hspec as (fs_a & d & Hg & Hsrc & Hsrc_a & Hfree & _ & _ & ->).
  split_and!.
  - by eapply grows_None.
  - exists d. by rewrite lookup_insert_eq.
  - intros q Hq [n Hn]. pose proof (grows_Some _ _ _ _ _ Hg Hn) as Hn_a.
    rewrite lookup_insert_ne, lookup_delete_ne by congruence. congruence.
Qed.

(** C6. Collision safety: [unique_destination_path] always returns,
    with the path itself when it is free and otherwise with the
    candidate "stem (n)ext" of the least counter n >= 1 that is free;
    the name it returns does not exist.  So a live relocation leaves
    every other entry as it was, and two different files relocated to
    one destination end under two different names, each with its own
    content. *)
Theorem collision_safety `{!Runtime} :
  (∀ dest fs, ∃ final,
      unique_destination_path dest fs = Ok final fs
      ∧ fs !! final = None ∧ free_name fs dest final)
  ∧ (∀ src dest fs final fs',
       relocate src dest fs = Ok final fs' →
       fs !! final = None
       ∧ ∀ q, q ≠ src → is_Some (fs !! q) → fs' !! q = fs !! q)
  ∧ (∀ src1 src2 dest fs d1 d2 final1 fs1 final2 fs2,
       src1 ≠ src2 →
       fs !! src1 = Some (File d1) → fs !! src2 = Some (File d2) →
       relocate src1 dest fs = Ok final1 fs1 →
       relocate src2 dest fs1 = Ok final2 fs2 →
       final1 ≠ final2
       ∧ fs2 !! final1 = Some (File d1) ∧ fs2 !! final2 = Some (File d2)).
Proof.
  split_and!.
  - intros dest fs. apply unique_destination_path_spec.
  - intros src dest fs final fs' Hrel.
    apply relocate_frame in Hrel as (? & _ & ?). done.
  - intros src1 src2 dest fs d1 d2 final1 fs1 final2 fs2 Hne H1 H2 Hr1 Hr2.
    apply relocate_frame in Hr1 as (Hfree1 & (d1' & Hs1 & Hf1) & Hfr1).
    apply relocate_frame in Hr2 as (Hfree2 & (d2' & Hs2 & Hf2) & Hfr2).
    assert (fs1 !! src2 = Some (File d2)) as Hs2'.
    { rewrite Hfr1; [done|done|by rewrite H2]. }
    simplify_eq. split_and!.
    + intros ->. congruence.
    + rewrite Hfr2, Hf1; [done| |by rewrite Hf1]. intros ->. congruence.
    + done.
Qed.

Definition P (l : list string) : path := py <$> l.

Definition tree (l : list (list string * node)) : FS :=
  list_to_map ((λ e, (P e.1, e.2)) <$> l).

(** Two files named alike in two folders, and a folder to gather them. *)
Definition two_sources : FS := tree [
  ([], Dir); (["a"], Dir); (["b"], Dir);
  (["a"; "x.bin"], File 1); (["b"; "x.bin"], File 2)
]%string.

Lemma collision_safety_witness :
  P ["d"; "x.bin"]%string ≠ P ["d"; "x (1).bin"]%string
  ∧ (<[P ["d"; "x (1).bin"]%string := File 2]>
       (delete (P ["b"; "x.bin"]%string)
          (<[P ["d"; "x.bin"]%string := File 1]>
             (delete (P ["a"; "x.bin"]%string)
                (<[P ["d"]%string := Dir]> two_sources)))))
      !! P ["d"; "x.bin"]%string = Some (File 1)
  ∧ (<[P ["d"; "x (1).bin"]%string := File 2]>
       (delete (P ["b"; "x.bin"]%string)
          (<[P ["d"; "x.bin"]%string := File 1]>
             (delete (P ["a"; "x.bin"]%string)
                (<[P ["d"]%string := Dir]> two_sources)))))
      !! P ["d"; "x (1).bin"]%string = Some (File 2).
Proof.
  eapply (proj2 (proj2 collision_safety)
           (P ["a"; "x.bin"]%string) (P ["b"; "x.bin"]%string)
           (P ["d"; "x.bin"]%string) two_sources 1%N 2%N).
  - by vm_compute.
  - by vm_compute.
  - by vm_compute.
  - vm_compute. reflexivity.
  - vm_compute. reflexivity.
Defined.

(** ** Well-formed trees and the two areas of the library *)

(** Every entry but the root lies in a directory. *)
Definition wf (fs : FS) : Prop :=
  fs !! [] = Some Dir
  ∧ map_Forall (λ p _, p = [] ∨ fs !! dirname p = Some Dir) fs.

Global Instance wf_dec fs : Decision (wf fs).
Proof. unfold wf. apply _. Defined.

(** [p] lies in the moved-aside subtree of [root_dir]. *)
Definition under_moved (root_dir p : path) : Prop :=
  (root_dir ++ [MovedROMS]) `prefix_of` p.

Global Instance under_moved_dec root p : Decision (under_moved root p).
Proof. unfold under_moved. apply _. Defined.

(** The file name has a known ROM extension. *)
Definition is_rom `{!Runtime} (f : pystr) : bool :=
  is_rom_ext (str_lower (splitext f).2).

(** The tags of a file name. *)
Definition langs_of `{!Runtime} (f : pystr) : gset pystr :=
  detect_languages (splitext f).1.

Lemma wf_parent fs p x : wf fs → is_Some (fs !! (p ++ [x])) → fs !! p = Some Dir.
Proof.
  intros [_ Hwf] [n Hn]. apply Hwf in Hn as [Hnil|Hd].
  - by destruct p.
  - by rewrite dirname_snoc in Hd.
Qed.

Lemma wf_intro (fs : FS) :
  fs !! [] = Some Dir →
  (∀ p x, is_Some (fs !! (p ++ [x])) → fs !! p = Some Dir) → wf fs.
Proof.
  intros Hroot Hpar. split; [done|]. intros p n Hn.
  destruct (decide (p = [])) as [|Hne]; [by left|right].
  apply last_is_Some in Hne as [x Hx]. apply last_Some in Hx as [p' ->].
  rewrite dirname_snoc. apply (Hpar p' x). by rewrite Hn.
Qed.

Lemma wf_ancestor fs q rest :
  wf fs → is_Some (fs !! (q ++ rest)) → rest ≠ [] → fs !! q = Some Dir.
Proof.
  intros Hwf. induction rest as [|x rest IH] using rev_ind; [done|].
  intros Hs _. rewrite app_assoc in Hs.
  pose proof (wf_parent _ _ _ Hwf Hs) as Hd.
  destruct (decide (rest = [])) as [->|Hne]; [by rewrite app_nil_r in Hd|].
  apply IH; [by rewrite Hd|done].
Qed.

Lemma wf_file_leaf fs p d rest :
  wf fs → fs !! p = Some (File d) → is_Some (fs !! (p ++ rest)) → rest = [].
Proof.
  intros Hwf Hp Hs. destruct (decide (rest = [])) as [|Hne]; [done|].
  pose proof (wf_ancestor _ _ _ Hwf Hs Hne). congruence.
Qed.

Lemma prefix_app_cases {A} (q a b : list A) :
  q `prefix_of` a ++ b → q `prefix_of` a ∨ a `prefix_of` q.
Proof.
  intros Hq. destruct (prefix_weak_total q a (a ++ b)) as [?|?]; auto.
  by apply prefix_app_r.
Qed.

Lemma commonpath_prefix (a b : path) : commonpath a b = b ↔ b `prefix_of` a.
Proof.
  revert b. induction a as [|x a IH]; intros [|y b]; simpl.
  - split; [intros _; apply prefix_nil|done].
  - split; [done|]. intros H%prefix_nil_inv. done.
  - split; [intros _; apply prefix_nil|done].
  - case_decide as Hxy.
    + subst y. split.
      * intros [= Hc]. apply prefix_cons. by apply IH.
      * intros Hp%prefix_cons_inv_2. f_equal. by apply IH.
    + split; [done|]. intros Hp%prefix_cons_inv_1. done.
Qed.

Lemma relpath_app (top r : path) : relpath (top ++ r) top = r.
Proof. unfold relpath. by rewrite drop_app_length. Qed.

Lemma relpath_snoc (top base : path) f :
  top `prefix_of` base → relpath (base ++ [f]) top = relpath base top ++ [f].
Proof. intros [r ->]. by rewrite <-app_assoc, !relpath_app. Qed.

Lemma relpath_join (top p : path) : top `prefix_of` p → top ++ relpath p top = p.
Proof. intros [r ->]. by rewrite relpath_app. Qed.

Section RelocationBounds.
Context `{!Runtime}.

Lemma free_name_length fs dest final :
  dest ≠ [] → free_name fs dest final → length final = length dest.
Proof.
  intros Hne [[_ ->]|[_ (n & _ & -> & _)]]; [done|].
  unfold candidate. destruct (splitext (basename dest)).
  destruct dest as [|x dest _] using rev_ind; [done|].
  rewrite dirname_snoc, !length_app. done.
Qed.

(** Whatever a relocation does, an entry it leaves behind was there
    before or is no longer than the destination. *)
Lemma relocate_bound src dest fs :
  dest ≠ [] →
  outcome (relocate src dest fs)
    (λ _ fs', ∀ q, is_Some (fs' !! q) → is_Some (fs !! q) ∨ length q ≤ length dest)
    (λ fs', ∀ q, is_Some (fs' !! q) → is_Some (fs !! q) ∨ length q ≤ length dest).
Proof.
  intros Hne.
  assert (Hgrow : ∀ fs', grows (dirname dest) fs fs' →
            ∀ q, is_Some (fs' !! q) → is_Some (fs !! q) ∨ length q ≤ length dest).
  { intros fs' Hg q Hq.
    destruct (Hg q) as [Heq|(_ & _ & _ & Hpre)]; [left; by rewrite <-Heq|right].
    apply prefix_length in Hpre. unfold dirname in Hpre.
    destruct dest as [|x dest _] using rev_ind; [done|].
    rewrite removelast_last in Hpre. rewrite length_app. lia. }
  eapply outcome_weaken; [apply relocate_spec|..]; simpl.
  - intros final fs' (fs_a & d & Hg & _ & _ & _ & Hfree & _ & ->) q Hq.
    destruct (decide (q = final)) as [->|Hqf].
    + right. by rewrite (free_name_length fs_a dest).
    + rewrite lookup_insert_ne in Hq by done.
      apply Hgrow with (fs' := fs_a); [done|].
      destruct (decide (q = src)) as [->|]; [by rewrite lookup_delete_eq in Hq|].
      by rewrite lookup_delete_ne in Hq.
  - intros fs' [Hg _]. by apply Hgrow.
Qed.
End RelocationBounds.

Lemma outcome_and {A} (r : res A) (Q1 Q2 : A → FS → Prop) (E1 E2 : FS → Prop) :
  outcome r Q1 E1 → outcome r Q2 E2 →
  outcome r (λ a fs, Q1 a fs ∧ Q2 a fs) (λ fs, E1 fs ∧ E2 fs).
Proof. destruct r; simpl; eauto. Qed.

Lemma basename_app (p r : path) : r ≠ [] → basename (p ++ r) = basename r.
Proof.
  intros Hne. unfold basename. rewrite last_app.
  by destruct (last r) eqn:Hl; [|apply last_None in Hl].
Qed.

(** The path a report line is about. *)
Definition line_source (l : log_line) : option path :=
  match l with
  | KeepLine r _ | MoveLine r _ _ | RemergeLine r _ _ | SkipLine r _ => Some r
  | _ => None
  end.

Section RemergeFrame.
Context `{!Runtime}.

(** A relocation takes nothing but its source away. *)
Lemma relocate_keeps src dest fs :
  outcome (relocate src dest fs)
    (λ _ fs', ∀ q n, q ≠ src → fs !! q = Some n → fs' !! q = Some n)
    (λ fs', ∀ q n, fs !! q = Some n → fs' !! q = Some n).
Proof.
  eapply outcome_weaken; [apply relocate_spec|..]; simpl.
  - intros final fs' (fs_a & d & Hg & _ & _ & Hfree & _ & _ & ->) q n Hq Hn.
    pose proof (grows_Some _ _ _ _ _ Hg Hn) as Hn'.
    rewrite lookup_insert_ne, lookup_delete_ne by congruence. done.
  - intros fs' [Hg _] q n. by eapply grows_Some.
Qed.

(** The counters of a remerge agree with its lists, and every line
    is about a file with a ROM extension. *)
Definition remerge_acc_ok (acc : remerge_acc) : Prop :=
  moved_back_count acc = length (remerge_entries acc)
  ∧ skipped_count acc = length (skip_entries acc)
  ∧ Forall (λ l, ∃ r langs, l = RemergeLine r r langs
                            ∧ r ≠ [] ∧ is_rom (basename r) = true)
           (remerge_entries acc)
  ∧ Forall (λ l, ∃ r langs, l = SkipLine r langs
                            ∧ r ≠ [] ∧ is_rom (basename r) = true)
           (skip_entries acc).

Lemma remerge_step_keeps root keep do_move base f acc fs p d B :
  (root ++ [MovedROMS]) `prefix_of` base →
  is_rom (basename p) = false →
  fs !! p = Some (File d) →
  (∀ q, is_Some (fs !! q) → length q ≤ B) →
  length (base ++ [f]) ≤ B →
  remerge_acc_ok acc →
  outcome (remerge_step root (root ++ [MovedROMS]) keep do_move base f acc fs)
    (λ acc' fs', fs' !! p = Some (File d)
                 ∧ (∀ q, is_Some (fs' !! q) → length q ≤ B)
                 ∧ remerge_acc_ok acc')
    (λ fs', fs' !! p = Some (File d)).
Proof.
  intros Hbase Hp Hfile Hbound Hlen (Hc1 & Hc2 & Hr & Hs).
  unfold remerge_step. fold (is_rom f).
  destruct (is_rom f) eqn:Hrom; simpl; [|done].
  rewrite relpath_snoc by done.
  set (rel := relpath base (root ++ [MovedROMS]) ++ [f]).
  assert (rel ≠ []) as Hrel by (unfold rel; by destruct (relpath base _)).
  assert (is_rom (basename rel) = true) as Hrom'.
  { unfold rel. by rewrite basename_snoc. }
  destruct (allow_back _ keep) eqn:Hallow.
  - assert (remerge_acc_ok
              {| moved_back_count := moved_back_count acc + 1;
                 skipped_count := skipped_count acc;
                 remerge_entries := remerge_entries acc
                   ++ [RemergeLine rel rel (detect_languages (splitext f).1)];
                 skip_entries := skip_entries acc |}) as Hok.
    { split_and!; simpl; [rewrite length_app; simpl; lia|done| |done].
      apply Forall_app. split; [done|]. apply Forall_singleton. eauto. }
    destruct do_move; [|done].
    eapply outcome_bind; [|intros a fs' HQ; exact HQ].
    eapply outcome_weaken;
      [apply outcome_and; [apply relocate_keeps|apply relocate_bound]|..]; simpl.
    + rewrite <-(app_nil_l rel) at 1. intros Hnil.
      apply (f_equal length) in Hnil. rewrite length_app in Hnil.
      destruct rel; simpl in *; [done|lia].
    + intros _ fs' [Hk Hb]. split_and!; [|  |done].
      * apply Hk; [|done]. intros ->. rewrite basename_snoc in Hp. congruence.
      * intros q Hq. destruct (Hb q Hq) as [?|Hle]; [by apply Hbound|].
        destruct Hbase as [r ->]. unfold rel in Hle.
        rewrite relpath_app in Hle. rewrite !length_app in Hle.
        rewrite !length_app in Hlen. simpl in *. lia.
    + intros fs' [Hk _]. by apply Hk.
  - split_and!; [done..|]. split_and!; simpl; [done|rewrite length_app; simpl; lia|done|].
    apply Forall_app. split; [done|]. apply Forall_singleton. eauto.
Qed.
End RemergeFrame.

(** ** Files that remerge passes by *)

Lemma remerge_report_lines acc l :
  l ∈ remerge_report acc →
  l ∈ remerge_entries acc ∨ l ∈ skip_entries acc ∨ line_source l = None.
Proof. unfold remerge_report. set_unfold. naive_solver. Qed.

(** C10. A file under 'Moved ROMS' whose lowercase extension is not a
    known ROM extension is passed by: a remerge, dry or live, returns
    or raises with the file where it was, and none of the lines it
    adds to the report is about that file; the counts are the lengths
    of the two lists of lines. *)
Theorem remerge_ignores_unknown_extensions `{!Runtime}
    (root : path) (keep : gset pystr) (do_move : bool) (log : list log_line)
    (fs : FS) (p : path) (d : N) :
  under_moved root p →
  fs !! p = Some (File d) →
  is_rom (basename p) = false →
  outcome (do_remerge root keep do_move log fs)
    (λ log' fs',
       fs' !! p = Some (File d)
       ∧ ∃ added, log' = log ++ added
           ∧ (∀ l, l ∈ added →
                   line_source l ≠ Some (relpath p (root ++ [MovedROMS])))
           ∧ (added = nothing_to_remerge
              ∨ ∃ acc, added = remerge_report acc
                  ∧ moved_back_count acc = length (remerge_entries acc)
                  ∧ skipped_count acc = length (skip_entries acc)))
    (λ fs', fs' !! p = Some (File d)).
Proof.
  intros Hunder Hfile Hrom. unfold do_remerge.
  destruct (isdir fs (root ++ [MovedROMS])) eqn:Hd; simpl.
  2: { split; [done|]. exists nothing_to_remerge. split_and!; [done| |by left].
       intros l Hl. unfold nothing_to_remerge in Hl.
       repeat (apply elem_of_cons in Hl as [->|Hl]; [done|]).
       by apply elem_of_nil in Hl. }
  eapply outcome_bind.
  { apply (os_walk_rule
             (λ acc fs', fs' !! p = Some (File d)
                         ∧ (∀ q, is_Some (fs' !! q) → length q ≤ depth fs)
                         ∧ remerge_acc_ok acc)
             (λ fs', fs' !! p = Some (File d))
             (λ _ _ _ _, True) (λ _, False) (λ _ _ _, True)
             (depth fs) (root ++ [MovedROMS])); try done.
    - intros acc fs' q (_ & Hb & _). apply Hb.
    - intros base dirs files acc fs1 Hbase (Hp1 & Hb1 & Hok1) Hscan.
      apply scandir_Some in Hscan as (_ & _ & NDf & _ & Hfiles).
      eapply outcome_weaken;
        [apply (for_each_rule
                  (λ acc fs', fs' !! p = Some (File d)
                              ∧ (∀ q, is_Some (fs' !! q) → length q ≤ depth fs)
                              ∧ remerge_acc_ok acc)
                  (λ fs', fs' !! p = Some (File d))
                  (λ _ _ _ _, True)
                  (λ f _ _, length (base ++ [f]) ≤ depth fs)
                  (λ _ _ _, True)); try done|..].
      + intros f acc2 fs2 Hf (Hp2 & Hb2 & Hok2) Hlen.
        eapply outcome_weaken;
          [by apply (remerge_step_keeps root keep do_move base f acc2 fs2 p d
                       (depth fs))|..]; simpl; [|done].
        intros acc3 fs3 (? & ? & ?). done.
      + intros f Hf. apply Hfiles in Hf as [d' Hf]. apply Hb1. by rewrite Hf.
      + simpl. intros acc2 fs2 (? & _ & _). done.
      + done.
    - split_and!; [done|intros q; apply depth_le|].
      split_and!; simpl; [done|done|constructor|constructor].
    - lia. }
  simpl. intros acc fs' ((Hp' & _ & Hc1 & Hc2 & Hr & Hs) & _ & _).
  split; [done|]. exists (remerge_report acc). split_and!; [done| |right; eauto].
  intros l Hl Hsrc.
  assert (∃ r langs, (l = RemergeLine r r langs ∨ l = SkipLine r langs)
                     ∧ r ≠ [] ∧ is_rom (basename r) = true)
    as (r & langs & Hl' & Hne & Hr').
  { rewrite Forall_forall in Hr, Hs.
    apply remerge_report_lines in Hl as [Hl|[Hl|Hl]]; [| |congruence].
    - apply Hr in Hl as (r & langs & -> & ? & ?). exists r, langs. eauto.
    - apply Hs in Hl as (r & langs & -> & ? & ?). exists r, langs. eauto. }
  assert (r = relpath p (root ++ [MovedROMS])) as ->.
  { destruct Hl' as [-> | ->]; simpl in Hsrc; congruence. }
  destruct Hunder as [r ->]. rewrite relpath_app in Hne, Hr'.
  rewrite basename_app in Hrom by done. congruence.
Qed.

(** ** Dry runs *)

Section DryRun.
Context `{!Runtime}.

(** A file that a sort pass enumerates: a ROM below the root and
    outside 'Moved ROMS', at the relative path [rel]. *)
Definition sortable (root : path) (fs : FS) (rel : path) : Prop :=
  rel ≠ [] ∧ (∃ d, fs !! (root ++ rel) = Some (File d))
  ∧ is_rom (basename rel) = true ∧ ¬ under_moved root (root ++ rel).

(** The line that a sort pass reports for the file at [rel]. *)
Definition sort_line (keep : gset pystr) (rel : path) : log_line :=
  let langs := langs_of (basename rel) in
  if should_keep langs keep then KeepLine rel langs
  else MoveLine rel ([MovedROMS] ++ rel) langs.

Definition is_keep_line (l : log_line) : bool :=
  match l with KeepLine _ _ => true | _ => false end.

(** The report of a sort pass over [fs]: the counts are the lengths of
    the lists, the kept list holds the KEEP lines and the moved list
    the MOVE lines, and each line is the decision for an enumerated
    file. *)
Definition sort_report_sound (root : path) (keep : gset pystr) (fs : FS)
    (acc : sort_acc) : Prop :=
  kept_count acc = length (keep_entries acc)
  ∧ moved_count acc = length (move_entries acc)
  ∧ (∀ l, l ∈ keep_entries acc →
          is_keep_line l = true ∧ ∃ rel, l = sort_line keep rel ∧ sortable root fs rel)
  ∧ (∀ l, l ∈ move_entries acc →
          is_keep_line l = false ∧ ∃ rel, l = sort_line keep rel ∧ sortable root fs rel).

(** Every enumerated file has its line. *)
Definition sort_report_complete (root : path) (keep : gset pystr) (fs : FS)
    (acc : sort_acc) : Prop :=
  ∀ rel, sortable root fs rel →
         sort_line keep rel ∈ keep_entries acc ++ move_entries acc.

Lemma sort_step_still root keep do_move base f acc fs :
  root `prefix_of` base →
  (∃ d, fs !! (base ++ [f]) = Some (File d)) →
  sort_report_sound root keep fs acc →
  let rel := relpath (base ++ [f]) root in
  (do_move = true → sortable root fs rel →
   should_keep (langs_of (basename rel)) keep = true) →
  ∃ acc',
    (if is_rom_ext (str_lower (splitext f).2) then
       if negb false
          && bool_decide (commonpath (base ++ [f]) (root ++ [MovedROMS])
                          = root ++ [MovedROMS])
       then mret acc
       else sort_step root keep do_move (base ++ [f]) rel acc
     else mret acc) fs = Ok acc' fs
    ∧ sort_report_sound root keep fs acc'
    ∧ (∀ l, l ∈ keep_entries acc → l ∈ keep_entries acc')
    ∧ (∀ l, l ∈ move_entries acc → l ∈ move_entries acc')
    ∧ (sortable root fs rel →
       sort_line keep rel ∈ keep_entries acc' ++ move_entries acc').
Proof.
  intros Hbase Hfile (Hc1 & Hc2 & Hk & Hm) rel Hstill.
  assert (root ++ rel = base ++ [f]) as Hjoin.
  { apply relpath_join. by apply prefix_app_r. }
  assert (basename rel = f) as Hbn.
  { unfold rel. rewrite relpath_snoc by done. apply basename_snoc. }
  assert (rel ≠ []) as Hrel.
  { unfold rel. rewrite relpath_snoc by done. by destruct (relpath base root). }
  fold (is_rom f). destruct (is_rom f) eqn:Hrom.
  2: { exists acc. split_and!; try done. intros (_ & _ & Hr & _). congruence. }
  simpl. case_bool_decide as Hcp.
  { exists acc. split_and!; try done. intros (_ & _ & _ & Hu).
    destruct Hu. rewrite Hjoin. by apply commonpath_prefix. }
  assert (sortable root fs rel) as Hsortable.
  { split_and!; [done|by rewrite Hjoin|congruence|].
    rewrite Hjoin. intros Hu. by apply commonpath_prefix in Hu. }
  unfold sort_step. rewrite basename_snoc.
  assert (Hline : sort_line keep rel
            = if should_keep (detect_languages (splitext f).1) keep
              then KeepLine rel (detect_languages (splitext f).1)
              else MoveLine rel ([MovedROMS] ++ rel) (detect_languages (splitext f).1)).
  { unfold sort_line, langs_of. by rewrite Hbn. }
  destruct (should_keep (detect_languages (splitext f).1) keep) eqn:Hkeep.
  - eexists. split; [done|]. simpl. split_and!.
    + split_and!; simpl; [rewrite length_app; simpl; lia|done| |done].
      intros l [Hl| ->%list_elem_of_singleton]%elem_of_app; [by apply Hk|].
      split; [done|]. exists rel. by rewrite Hline.
    + intros l Hl. apply elem_of_app. by left.
    + done.
    + intros _. rewrite Hline. set_solver.
  - destruct do_move.
    { specialize (Hstill eq_refl Hsortable). unfold langs_of in Hstill.
      rewrite Hbn in Hstill. congruence. }
    eexists. split; [done|]. simpl. split_and!.
    + split_and!; simpl; [done|rewrite length_app; simpl; lia|done|].
      intros l [Hl| ->%list_elem_of_singleton]%elem_of_app; [by apply Hm|].
      split; [done|]. exists rel. by rewrite Hline.
    + done.
    + intros l Hl. apply elem_of_app. by left.
    + intros _. rewrite Hline. set_solver.
Qed.
End DryRun.

Section DryRunSort.
Context `{!Runtime}.

Lemma not_under_moved_prefix root q p :
  q `prefix_of` p → ¬ under_moved root p → ¬ under_moved root q.
Proof. intros Hqp Hp Hq. apply Hp. unfold under_moved in *. by etrans. Qed.

Lemma do_sort_still root keep do_move log fs :
  (do_move = true →
   ∀ rel, sortable root fs rel → should_keep (langs_of (basename rel)) keep = true) →
  ∃ acc, do_sort root keep do_move log fs = Ok (log ++ sort_report acc) fs
         ∧ sort_report_sound root keep fs acc
         ∧ (wf fs → sort_report_complete root keep fs acc).
Proof.
  intros Hstill.
  set (I := λ (acc : sort_acc) (fs' : FS),
              fs' = fs ∧ sort_report_sound root keep fs acc).
  set (R := λ (a1 : sort_acc) (f1 : FS) (a2 : sort_acc) (f2 : FS),
              f2 = f1
              ∧ (∀ l, l ∈ keep_entries a1 → l ∈ keep_entries a2)
              ∧ (∀ l, l ∈ move_entries a1 → l ∈ move_entries a2)).
  set (region := λ p : path, wf fs ∧ root `prefix_of` p ∧ ¬ under_moved root p).
  set (Done := λ (p : path) (acc : sort_acc) (_ : FS),
                 sortable root fs (relpath p root) →
                 sort_line keep (relpath p root)
                   ∈ keep_entries acc ++ move_entries acc).
  assert (R_done : ∀ s f1 s' f2 p, R s f1 s' f2 → Done p s f1 → Done p s' f2).
  { intros s f1 s' f2 p (_ & Hk & Hm) HD Hs. specialize (HD Hs).
    apply elem_of_app in HD as [?|?]; apply elem_of_app; auto. }
  assert (R_trans : ∀ s1 f1 s2 f2 s3 f3, R s1 f1 s2 f2 → R s2 f2 s3 f3 → R s1 f1 s3 f3).
  { intros s1 f1 s2 f2 s3 f3 (-> & ? & ?) (-> & ? & ?). split_and!; auto. }
  assert (R_refl : ∀ s f1, R s f1 s f1) by (by intros; unfold R).
  unfold do_sort, collect_roms.
  match goal with |- context [os_walk root true ?b ?i] =>
    pose proof (os_walk_rule I (λ _, False) R region Done (depth fs) root b) as Hw;
    specialize (Hw R_refl R_trans)
  end.
  lapply Hw; clear Hw; [intros Hw|by intros s fs' p [-> _]; apply depth_le].
  lapply Hw; clear Hw;
    [intros Hw|by intros s fs' p x [-> _] (Hwf & _) ?; eapply wf_parent].
  lapply Hw; clear Hw; [intros Hw|by intros ?????? (-> & _) _].
  lapply Hw; clear Hw; [intros Hw|by intros ????? (-> & _) _].
  specialize (Hw R_done).
  lapply Hw; clear Hw.
  2: { intros q p Hq Hqp (Hwf & _ & Hu). split_and!; [done..|].
       by eapply not_under_moved_prefix. }
  intros Hw. lapply Hw; clear Hw.
  2: { intros base dirs files acc fs1 Hbase [-> Hsound] Hscan.
       apply scandir_Some in Hscan as (_ & _ & NDf & _ & Hfiles).
       eapply outcome_weaken;
         [apply (for_each_rule I (λ _, False) R (λ _ _ _, True)
                   (λ f acc fs', Done (base ++ [f]) acc fs'));
          try done|..].
       - intros f s f1 s' f2. apply R_done.
       - intros f acc2 fs2 Hf [-> Hsound2] _.
         destruct (sort_step_still root keep do_move base f acc2 fs Hbase
                     (proj1 (Hfiles f) Hf) Hsound2)
           as (acc3 & Heq & Hs3 & Hk & Hm & Hline).
         { intros Hm. by apply Hstill. }
         simpl in Heq. simpl. rewrite Heq. simpl. split_and!; try done.
       - simpl. intros acc2 fs2 ([-> Hs2] & HR & Hpost). split_and!; try done.
         intros f d _ Hf. apply Hpost. apply Hfiles. eauto.
       - done. }
  intros Hw. specialize (Hw root
    {| moved_count := 0; kept_count := 0; move_entries := []; keep_entries := [] |}
    fs).
  lapply Hw; clear Hw; [intros Hw|done].
  lapply Hw; clear Hw.
  2: { split; [done|]. split_and!; simpl; try done; intros l Hl; by apply elem_of_nil in Hl. }
  intros Hw. lapply Hw; clear Hw; [intros Hw|lia].
  unfold mbind, M_bind.
  match type of Hw with outcome ?r _ _ => destruct r as [acc fs'| |] end;
    simpl in Hw; [|done..].
  destruct Hw as ([-> Hs] & _ & Hcov).
  exists acc. split_and!; [done..|].
  intros Hwf rel Hsortable. pose proof Hsortable as (Hne & [d Hd] & Hrom & Hu).
  specialize (Hcov (root ++ rel) d). unfold Done in Hcov.
  rewrite relpath_app in Hcov.
  eapply Hcov; try done.
  - by apply prefix_app_r.
  - rewrite <-(app_nil_r root) at 2. intros Heq%app_inv_head. done.
  - split_and!; [done|by apply prefix_app_r|done].
Qed.

Lemma do_sort_dry root keep log fs :
  ∃ acc, do_sort root keep false log fs = Ok (log ++ sort_report acc) fs
         ∧ sort_report_sound root keep fs acc
         ∧ (wf fs → sort_report_complete root keep fs acc).
Proof. by apply do_sort_still. Qed.
End DryRunSort.

Section DryRunRemerge.
Context `{!Runtime}.







End DryRunRemerge.

Section DryRunMain.
Context `{!Runtime}.



End DryRunMain.

(** ** Relocations keep the tree well-formed *)

Lemma wf_insert fs p n :
  wf fs → p ≠ [] → fs !! p = None → fs !! dirname p = Some Dir → wf (<[p := n]> fs).
Proof.
  intros [Hroot Hwf] Hne Hp Hpar. split.
  - by rewrite lookup_insert_ne.
  - intros q m Hq. destruct (decide (q = [])) as [|Hq0]; [by left|right].
    destruct (decide (dirname q = p)) as [Heq|Hneq].
    + destruct (decide (q = p)) as [->|Hqp].
      * rewrite Heq in Hpar. congruence.
      * rewrite lookup_insert_ne in Hq by done.
        apply Hwf in Hq as [?|Hq]; [done|]. rewrite Heq in Hq. congruence.
    + rewrite lookup_insert_ne by done.
      destruct (decide (q = p)) as [->|Hqp]; [done|].
      rewrite lookup_insert_ne in Hq by done.
      by apply Hwf in Hq as [?|Hq].
Qed.

Lemma wf_delete_file fs p d : wf fs → fs !! p = Some (File d) → wf (delete p fs).
Proof.
  intros [Hroot Hwf] Hp. split.
  - rewrite lookup_delete_ne; [done|]. intros ->. congruence.
  - intros q m Hq. destruct (decide (q = p)) as [->|Hqp].
    { by rewrite lookup_delete_eq in Hq. }
    rewrite lookup_delete_ne in Hq by done.
    apply Hwf in Hq as [?|Hq]; [by left|right].
    rewrite lookup_delete_ne; [done|]. intros Heq. rewrite <-Heq in Hq. congruence.
Qed.

Section RelocationWf.
Context `{!Runtime}.

Lemma makedirs_from_wf todo : ∀ made fs,
  wf fs → fs !! made = Some Dir →
  outcome (makedirs_from made todo fs) (λ _ fs', wf fs') (λ fs', wf fs').
Proof.
  induction todo as [|x todo IH]; intros made fs Hwf Hmade; simpl; [done|].
  destruct (fs !! (made ++ [x])) as [[d|]|] eqn:Hx;
    [exact Hwf|by apply IH|].
  apply IH.
  - apply wf_insert; [done| |done|by rewrite dirname_snoc].
    intros Hnil. by apply app_nil in Hnil as [_ ?].
  - by rewrite lookup_insert_eq.
Qed.

Lemma ensure_parent_dir_wf p fs :
  wf fs → outcome (ensure_parent_dir p fs) (λ _ fs', wf fs') (λ fs', wf fs').
Proof.
  intros Hwf. unfold ensure_parent_dir.
  destruct (isdir fs (dirname p)); [exact Hwf|]. cbn [negb].
  apply makedirs_from_wf; [done|apply Hwf].
Qed.

Lemma relocate_wf src dest fs :
  wf fs → outcome (relocate src dest fs) (λ _ fs', wf fs') (λ fs', wf fs').
Proof.
  intros Hwf. unfold relocate.
  eapply outcome_bind; [by apply ensure_parent_dir_wf|]. simpl.
  intros _ fs_a Hwf_a.
  destruct (unique_destination_path_spec dest fs_a) as (final & Hu & Hfree & Hname).
  unfold mbind, M_bind at 1. rewrite Hu.
  unfold mbind, M_bind, shutil_move.
  destruct (fs_a !! src) as [[d|]|] eqn:Hsrc; simpl; try done.
  assert (isdir fs_a final = false) as -> by (apply isdir_false; congruence).
  simpl. destruct (isdir fs_a (dirname final)) eqn:Hd; simpl; [|done].
  apply isdir_true in Hd.
  apply wf_insert.
  - by eapply wf_delete_file.
  - intros ->. destruct Hwf_a as [Hr _]. congruence.
  - destruct (decide (final = src)) as [->|]; [apply lookup_delete_eq|].
    by rewrite lookup_delete_ne.
  - rewrite lookup_delete_ne; [done|]. intros Heq. rewrite <-Heq in Hd. congruence.
Qed.
End RelocationWf.

(** ** A relocation of a sort pass *)

Lemma dirname_app (p r : path) : r ≠ [] → dirname (p ++ r) = p ++ dirname r.
Proof.
  intros Hne. destruct r as [|x r _] using rev_ind; [done|].
  by rewrite app_assoc, !dirname_snoc.
Qed.

Lemma under_moved_dirname root p :
  p ≠ [] → under_moved root (dirname p) → under_moved root p.
Proof.
  intros Hne Hu. destruct p as [|x p _] using rev_ind; [done|].
  rewrite dirname_snoc in Hu. by apply prefix_app_r.
Qed.

Section SortRelocation.
Context `{!Runtime}.

(** The directories that a sort relocation creates are all under
    'Moved ROMS'. *)
Lemma sort_grows_outside root rel fs fs_a :
  wf fs → rel ≠ [] → is_Some (fs !! (root ++ rel)) →
  grows (dirname (root ++ [MovedROMS] ++ rel)) fs fs_a →
  ∀ q, ¬ under_moved root q → fs_a !! q = fs !! q.
Proof.
  intros Hwf Hrel Hsrc Hg q Hq.
  destruct (Hg q) as [|(Hnone & _ & Hne & Hpre)]; [done|exfalso].
  rewrite app_assoc, dirname_app in Hpre by done.
  apply prefix_app_cases in Hpre as [Hpre|Hpre]; [|done].
  pose proof Hpre as Hpre'. apply prefix_app_cases in Hpre' as [[k Hk]|[k ->]].
  - assert (fs !! q = Some Dir) as Hd; [|congruence].
    apply (wf_ancestor fs q (k ++ rel)); [done|by rewrite app_assoc, <-Hk|].
    intros Hnil. by apply app_nil in Hnil as [_ ?].
  - apply prefix_app_inv in Hpre.
    destruct k as [|x k].
    + rewrite app_nil_r in Hnone.
      assert (fs !! root = Some Dir); [|congruence].
      by apply (wf_ancestor fs root rel).
    + pose proof (prefix_cons_inv_1 _ _ _ _ Hpre) as ->.
      apply prefix_cons_inv_2, prefix_nil_inv in Hpre as ->.
      apply Hq. unfold under_moved. reflexivity.
Qed.

Lemma sort_relocate root base f fs d :
  wf fs → root `prefix_of` base →
  fs !! (base ++ [f]) = Some (File d) →
  ¬ under_moved root (base ++ [f]) →
  outcome (relocate (base ++ [f])
             (root ++ [MovedROMS] ++ relpath (base ++ [f]) root) fs)
    (λ final fs',
       wf fs' ∧ fs' !! (base ++ [f]) = None
       ∧ (∀ q, ¬ under_moved root q → q ≠ base ++ [f] → fs' !! q = fs !! q)
       ∧ (∀ q n, q ≠ base ++ [f] → fs !! q = Some n → fs' !! q = Some n)
       ∧ (∀ q, is_Some (fs' !! q) →
               is_Some (fs !! q) ∨ length q ≤ S (length (base ++ [f]))))
    (λ _, True).
Proof.
  intros Hwf Hbase Hsrc Hout.
  set (src := base ++ [f]) in *. set (rel := relpath src root).
  assert (root ++ rel = src) as Hjoin.
  { apply relpath_join. by apply prefix_app_r. }
  assert (rel ≠ []) as Hrel.
  { unfold rel, src. rewrite relpath_snoc by done. by destruct (relpath base root). }
  eapply outcome_weaken; [|  |done].
  { apply outcome_and; [apply relocate_spec|].
    apply outcome_and; [by apply relocate_wf|].
    apply outcome_and; [apply relocate_keeps|apply relocate_bound].
    intros Hnil. by apply app_nil in Hnil as [_ ?]. }
  simpl. intros final fs' ((fs_a & d' & Hg & Hs & Hs_a & Hfree & Hname & Hpar & ->)
            & Hwf' & Hkeeps & Hbound).
  assert (final ≠ src) as Hfs by (intros ->; congruence).
  assert (∀ q, ¬ under_moved root q → fs_a !! q = fs !! q) as Hsame.
  { apply (sort_grows_outside root rel); [done|done|by rewrite Hjoin, Hsrc|done]. }
  assert (under_moved root final) as Hunder.
  { apply under_moved_dirname.
    - intros ->. rewrite Hsame in Hfree; [destruct Hwf; congruence|].
      intros Hu%prefix_nil_inv. by apply app_nil in Hu as [_ ?].
    - rewrite (free_name_dirname fs_a _ final Hname).
      replace (root ++ MovedROMS :: rel) with ((root ++ [MovedROMS]) ++ rel)
        by (by rewrite <-app_assoc).
      rewrite dirname_app by done. by apply prefix_app_r. }
  split_and!.
  - done.
  - rewrite lookup_insert_ne, lookup_delete_eq; done.
  - intros q Hq Hqs. rewrite lookup_insert_ne, lookup_delete_ne; [by apply Hsame|done|].
    intros ->. done.
  - intros q n Hq Hn. by apply Hkeeps.
  - intros q Hq. destruct (Hbound q Hq) as [?|Hlen]; [by left|right].
    rewrite !length_app in Hlen. rewrite <-Hjoin, length_app. simpl in *. lia.
Qed.
End SortRelocation.

(** ** A live sort pass *)

Section LiveSort.
Context `{!Runtime}.

(** A live sort pass leaves no file outside 'Moved ROMS' that it would
    move, and adds nothing outside 'Moved ROMS'. *)
Lemma do_sort_live root keep log fs0 :
  wf fs0 →
  outcome (do_sort root keep true log fs0)
    (λ _ fs1,
       wf fs1
       ∧ (∀ q n, ¬ under_moved root q → fs1 !! q = Some n → fs0 !! q = Some n)
       ∧ (∀ rel, sortable root fs1 rel →
                 should_keep (langs_of (basename rel)) keep = true))
    (λ _, True).
Proof.
  intros Hwf0.
  set (I := λ (_ : sort_acc) (fs : FS),
              wf fs
              ∧ ∀ q, is_Some (fs !! q) →
                     length q ≤ S (depth fs0)
                     ∧ (¬ under_moved root q → length q ≤ depth fs0)).
  set (R := λ (_ : sort_acc) (f1 : FS) (_ : sort_acc) (f2 : FS),
              ∀ q n, ¬ under_moved root q → f2 !! q = Some n → f1 !! q = Some n).
  set (region := λ p : path, ¬ under_moved root p).
  set (Done := λ (p : path) (_ : sort_acc) (_ : FS),
                 is_rom (basename p) = true →
                 should_keep (langs_of (basename p)) keep = true).
  assert (R_refl : ∀ s f1, R s f1 s f1) by (by intros; unfold R).
  assert (R_trans : ∀ s1 f1 s2 f2 s3 f3, R s1 f1 s2 f2 → R s2 f2 s3 f3 → R s1 f1 s3 f3).
  { intros s1 f1 s2 f2 s3 f3 H12 H23 q n Hq Hn. by apply H12, H23. }
  unfold do_sort, collect_roms.
  match goal with |- context [os_walk root true ?b ?i] =>
    pose proof (os_walk_rule I (λ _, True) R region Done (S (depth fs0)) root b) as Hw;
    specialize (Hw R_refl R_trans)
  end.
  lapply Hw; clear Hw; [intros Hw|by intros s fs p [_ Hb] Hp; apply Hb].
  lapply Hw; clear Hw; [intros Hw|by intros s fs p x [Hwf _] _ ?; eapply wf_parent].
  lapply Hw; clear Hw; [intros Hw|by intros s f1 s' f2 p d HR Hreg; apply HR].
  lapply Hw; clear Hw; [intros Hw|by intros s f1 s' f2 p HR Hreg; apply HR].
  lapply Hw; clear Hw; [intros Hw|done].
  lapply Hw; clear Hw.
  2: { intros q p _ Hqp Hp. by eapply not_under_moved_prefix. }
  intros Hw. lapply Hw; clear Hw.
  2: { intros base dirs files acc fs1 Hbase HI1 Hscan.
       apply scandir_Some in Hscan as (_ & _ & NDf & _ & Hfiles).
       eapply outcome_weaken;
         [apply (for_each_rule I (λ _, True) R
                   (λ f _ fs, ∃ d, fs !! (base ++ [f]) = Some (File d))
                   (λ f acc fs, ∀ d, ¬ under_moved root (base ++ [f]) →
                                     fs !! (base ++ [f]) = Some (File d) →
                                     Done (base ++ [f]) acc fs));
          try done|..].
       - intros f s f1 s' f2 HR HP d Hu Hf. eapply (HP d); [done|]. by apply HR.
       - intros f acc2 fs2 Hf HI2 [d Hd]. pose proof HI2 as [Hwf2 Hb2].
         fold (is_rom f). destruct (is_rom f) eqn:Hrom.
         2: { simpl. split_and!; [exact HI2|apply R_refl| |done].
              intros d' _ _. unfold Done. rewrite basename_snoc. congruence. }
         simpl. case_bool_decide as Hcp.
         { simpl. split_and!; [exact HI2|apply R_refl| |done].
           intros d' Hu _. destruct Hu. by apply commonpath_prefix. }
         assert (¬ under_moved root (base ++ [f])) as Hout.
         { intros Hu. by apply commonpath_prefix in Hu. }
         unfold sort_step. rewrite basename_snoc.
         destruct (should_keep _ keep) eqn:Hkeep.
         { simpl. split_and!; [exact HI2|by intros q n ? ?| |done].
           intros d' _ _. unfold Done, langs_of. by rewrite basename_snoc. }
         simpl. eapply outcome_bind; [by eapply sort_relocate|].
         simpl. intros final fs3 (Hwf3 & Hgone & Hsame & Hkeeps & Hbound).
         split_and!.
         + split; [done|]. intros q Hq.
           destruct (Hbound q Hq) as [Hold|Hlen].
           * by apply Hb2.
           * split.
             -- destruct (Hb2 (base ++ [f])) as [_ Hs]; [by rewrite Hd|].
                specialize (Hs Hout). lia.
             -- intros Hu. destruct (decide (q = base ++ [f])) as [->|Hne].
                { rewrite Hgone in Hq. by destruct Hq. }
                apply Hb2; [|done]. by rewrite <-Hsame.
         + intros q n Hu Hn. destruct (decide (q = base ++ [f])) as [->|Hne].
           { congruence. }
           by rewrite <-Hsame.
         + intros d' _ Hf'. congruence.
         + intros y Hy Hne [dy Hdy]. exists dy. apply Hkeeps; [|done].
           intros Heq%app_inv_head. congruence.
       - intros f Hf. by apply Hfiles.
       - simpl. intros acc2 fs2 (HI2 & HR & Hpost). split_and!; try done.
         intros f d Hu Hf. eapply Hpost; [|done..].
         apply Hfiles. exists d. by apply HR.
       - done. }
  intros Hw. specialize (Hw root
    {| moved_count := 0; kept_count := 0; move_entries := []; keep_entries := [] |}
    fs0).
  lapply Hw; clear Hw; [intros Hw|done].
  lapply Hw; clear Hw.
  2: { split; [done|]. intros q Hq. apply depth_le in Hq. split; [lia|done]. }
  intros Hw. lapply Hw; clear Hw; [intros Hw|lia].
  eapply outcome_bind; [exact Hw|]. simpl.
  intros acc fs1 ([Hwf1 _] & HR & Hcov). split_and!; [done|apply HR|].
  intros rel (Hne & [d Hd] & Hrom & Hu).
  specialize (Hcov (root ++ rel) d). unfold Done in Hcov.
  rewrite basename_app in Hcov by done. apply Hcov; try done.
  - by apply prefix_app_r.
  - rewrite <-(app_nil_r root) at 2. intros Heq%app_inv_head. done.
Qed.

(** C2. Idempotence of sort: after a live sort of a well-formed tree,
    a second live sort with the same keep set returns with the tree as
    the first left it and moves nothing: whatever the first run added
    lies under 'Moved ROMS', every line of the second report is about a
    file outside 'Moved ROMS', and each such file has a KEEP line. *)
Theorem sort_idempotent (root : path) (keep : gset pystr)
    (log log' log1 : list log_line) (fs0 fs1 : FS) :
  wf fs0 →
  do_sort root keep true log fs0 = Ok log1 fs1 →
  ∃ acc,
    do_sort root keep true log' fs1 = Ok (log' ++ sort_report acc) fs1
    ∧ move_entries acc = [] ∧ moved_count acc = 0
    ∧ sort_report_sound root keep fs1 acc
    ∧ sort_report_complete root keep fs1 acc
    ∧ (∀ q n, fs1 !! q = Some n → fs0 !! q = Some n ∨ under_moved root q).
Proof.
  intros Hwf0 Hrun. pose proof (do_sort_live root keep log fs0 Hwf0) as Hlive.
  rewrite Hrun in Hlive. simpl in Hlive. destruct Hlive as (Hwf1 & Hout & Hkept).
  destruct (do_sort_still root keep true log' fs1) as (acc & Heq & Hsound & Hcomplete).
  { intros _. apply Hkept. }
  assert (move_entries acc = []) as Hnone.
  { destruct (move_entries acc) as [|l ls] eqn:Hm; [done|exfalso].
    destruct Hsound as (_ & _ & _ & Hmv).
    destruct (Hmv l) as (Hkind & rel & -> & Hsortable); [rewrite Hm; left|].
    unfold sort_line in Hkind. by rewrite (Hkept rel Hsortable) in Hkind. }
  exists acc. split_and!; try done.
  - destruct Hsound as (_ & -> & _). by rewrite Hnone.
  - by apply Hcomplete.
  - intros q n Hq. destruct (decide (under_moved root q)); [by right|left].
    by apply Hout.
Qed.
End LiveSort.

(** ** Sort, then remerge everything *)





Section RoundTrip.
Context `{!Runtime}.
Variables (root : path) (fs0 : FS).
Hypothesis wf0 : wf fs0.
Hypothesis fresh : fs0 !! (root ++ [MovedROMS]) = None.








End RoundTrip.


(** ** Concrete libraries *)

(** A small library: two games in a folder of their own, one of them
    in a subfolder, one game and a text file at the top. *)
Definition library : FS := tree [
  ([], Dir); (["roms"], Dir); (["roms"; "snes"], Dir);
  (["roms"; "snes"; "jp"], Dir);
  (["roms"; "snes"; "Game (USA).sfc"], File 1);
  (["roms"; "snes"; "jp"; "Game (Japan).sfc"], File 2);
  (["roms"; "Game (Multi5).bin"], File 3);
  (["roms"; "notes.txt"], File 4)
]%string.

(** The same library after a live sort that keeps English. *)
Definition library_sorted : FS := tree [
  ([], Dir); (["roms"], Dir); (["roms"; "snes"], Dir);
  (["roms"; "snes"; "jp"], Dir);
  (["roms"; "snes"; "Game (USA).sfc"], File 1);
  (["roms"; "notes.txt"], File 4);
  (["roms"; "Moved ROMS"], Dir);
  (["roms"; "Moved ROMS"; "snes"], Dir);
  (["roms"; "Moved ROMS"; "snes"; "jp"], Dir);
  (["roms"; "Moved ROMS"; "snes"; "jp"; "Game (Japan).sfc"], File 2);
  (["roms"; "Moved ROMS"; "Game (Multi5).bin"], File 3)
]%string.

(** A moved-aside area that also holds a text file. *)
Definition library_with_notes : FS :=
  <[P ["roms"; "Moved ROMS"; "readme.txt"]%string := File 5]> library_sorted.

Definition keep_english : gset pystr := {[py "en"]}.

Lemma library_wf : wf library.
Proof. apply (@bool_decide_unpack _ (wf_dec library)). by vm_compute. Defined.


Lemma sort_idempotent_witness :
  ∃ acc,
    do_sort (P ["roms"]%string) keep_english true [] library_sorted
      = Ok ([] ++ sort_report acc) library_sorted
    ∧ move_entries acc = [] ∧ moved_count acc = 0
    ∧ sort_report_sound (P ["roms"]%string) keep_english library_sorted acc
    ∧ sort_report_complete (P ["roms"]%string) keep_english library_sorted acc
    ∧ (∀ q n, library_sorted !! q = Some n →
              library !! q = Some n ∨ under_moved (P ["roms"]%string) q).
Proof.
  eapply (sort_idempotent (P ["roms"]%string) keep_english [] [] _ library).
  - exact library_wf.
  - vm_compute. reflexivity.
Defined.


Lemma remerge_ignores_unknown_extensions_witness :
  outcome (do_remerge (P ["roms"]%string) ∅ true [] library_with_notes)
    (λ log' fs',
       fs' !! P ["roms"; "Moved ROMS"; "readme.txt"]%string = Some (File 5)
       ∧ ∃ added, log' = [] ++ added
           ∧ (∀ l, l ∈ added →
                   line_source l
                   ≠ Some (relpath (P ["roms"; "Moved ROMS"; "readme.txt"]%string)
                             (P ["roms"]%string ++ [MovedROMS])))
           ∧ (added = nothing_to_remerge
              ∨ ∃ acc, added = remerge_report acc
                  ∧ moved_back_count acc = length (remerge_entries acc)
                  ∧ skipped_count acc = length (skip_entries acc)))
    (λ fs', fs' !! P ["roms"; "Moved ROMS"; "readme.txt"]%string = Some (File 5)).
Proof.
  apply remerge_ignores_unknown_extensions.
  - by exists [py "readme.txt"].
  - by vm_compute.
  - by vm_compute.
Defined.

(** C8 (defect). After a live remerge has emptied 'Moved ROMS', the
    sweep removes the innermost empty folder only: the folder above it
    and 'Moved ROMS' itself stay, empty. *)
Theorem cleanup_leaves_emptied_parents :
  ∃ log fs',
    main (P ["roms"]%string)
      {| args_keep := []; args_move := true; args_remerge := true;
         args_langs := false; args_cleanup := true |} [] library_sorted
    = Ok log fs'
    ∧ last log = Some (Removed [P ["roms"; "Moved ROMS"; "snes"; "jp"]%string])
    ∧ fs' !! P ["roms"; "Moved ROMS"; "snes"]%string = Some Dir
    ∧ child_names fs' (P ["roms"; "Moved ROMS"; "snes"]%string) = []
    ∧ fs' !! P ["roms"; "Moved ROMS"]%string = Some Dir
    ∧ child_names fs' (P ["roms"; "Moved ROMS"]%string) = [py "snes"].
Proof.
  eexists _, _. split; [vm_compute; reflexivity|]. by vm_compute.
Qed.

(** ** Stems that the token reading gets wrong *)

Definition version_ideograph : N := 0x7248%N.

(** C5 as stated fails: "Game (Europe) (En)" holds Europe between
    parentheses and eu is not detected; and the marker of jp inside a
    longer run of ideographs still gives jp. *)
Lemma detect_languages_misses_region :
  has_word REGION_WORDS (py "Game (Europe) (En)")
  ∧ (py "eu" ∉ detect_languages (py "Game (Europe) (En)"))
  ∧ at_boundary (last Nihongo) [version_ideograph] = false
  ∧ py "jp" ∈ detect_languages (Nihongo ++ [version_ideograph]).
Proof.
  split_and!.
  - exists (py "Game ("), (py "Europe"), (py ") (En)"), (py "Europe").
    split_and!; [done|unfold REGION_WORDS; solve_elem| |by split].
    repeat constructor.
  - apply (bool_decide_unpack _). by vm_compute.
  - done.
  - apply (bool_decide_unpack _). by vm_compute.
Qed.

(** C9 as stated fails: "Game (En) (Europe)" holds En and Europe,
    English is detected, and so is eu. *)
Lemma english_before_region_keeps_eu :
  has_word ENGLISH_WORDS (py "Game (En) (Europe)")
  ∧ has_word REGION_WORDS (py "Game (En) (Europe)")
  ∧ py "en" ∈ detect_languages (py "Game (En) (Europe)")
  ∧ py "eu" ∈ detect_languages (py "Game (En) (Europe)").
Proof.
  split_and!.
  - exists (py "Game ("), (py "En"), (py ") (Europe)"), (py "En").
    split_and!; [done|unfold ENGLISH_WORDS; solve_elem| |by split].
    repeat constructor.
  - exists (py "Game (En) ("), (py "Europe"), (py ")"), (py "Europe").
    split_and!; [done|unfold REGION_WORDS; solve_elem| |by split].
    repeat constructor.
  - apply (bool_decide_unpack _). by vm_compute.
  - apply (bool_decide_unpack _). by vm_compute.
Qed.

Lemma detect_languages_tokens_witness :
  py "jp" ≠ py "eu"
  ∧ (py "jp" ∈ detect_languages (py "Game (Japan)")
     ↔ token_of (py "jp") (py "Game (Japan)")).
Proof.
  split; [done|]. by apply detect_languages_tokens.
Defined.

(** * More of the program *)

(** ** The two policies side by side *)

(** X1. What sort moves away, remerge with the same keep set leaves
    where it is, unless the keep set is empty (which restores all);
    and for a file with tags and a keep set that is not empty the two
    policies agree. *)
Theorem moved_by_sort_stays_moved (langs keep_langs : gset pystr) :
  (should_keep langs keep_langs = false →
     langs ≠ ∅ ∧ allow_back langs keep_langs = bool_decide (keep_langs = ∅))
  ∧ (langs ≠ ∅ → keep_langs ≠ ∅ →
     allow_back langs keep_langs = should_keep langs keep_langs).
Proof.
  unfold should_keep, allow_back. split.
  - case_bool_decide as Hl; simpl.
    { by destruct (bool_decide (py "en" ∈ keep_langs)). }
    intros Hany. split; [done|]. rewrite Hany.
    case_bool_decide as Hk.
    + apply size_empty_iff in Hk. fold_leibniz. by rewrite bool_decide_eq_true_2.
    + rewrite bool_decide_eq_false_2; [done|]. intros ->. by apply Hk.
  - intros Hl Hk. rewrite (bool_decide_eq_false_2 (langs = ∅)) by done. simpl.
    rewrite bool_decide_eq_false_2; [done|].
    intros Hs%size_empty_iff. fold_leibniz. done.
Qed.

Lemma moved_by_sort_stays_moved_witness :
  should_keep {[py "jp"]} {[py "en"]} = false
  ∧ allow_back {[py "jp"]} {[py "en"]} = false.
Proof.
  assert (should_keep {[py "jp"]} {[py "en"]} = false) as Hs by by vm_compute.
  split; [done|].
  destruct (moved_by_sort_stays_moved {[py "jp"]} {[py "en"]}) as [H1 _].
  destruct (H1 Hs) as [_ ->]. by vm_compute.
Defined.

(** ** Planning the destinations *)

(** X2. The destination that sort plans for [rel_path] lies under
    'Moved ROMS'; taken relative to 'Moved ROMS', as remerge does, it
    gives [rel_path] again, and the destination that remerge plans from
    it is the path the file came from. *)
Theorem plan_dest_paths_round_trip (root_dir rel_path : path) :
  let '(logical, physical) := plan_dest_paths_for_sort root_dir rel_path in
  let moved_root := root_dir ++ [MovedROMS] in
  logical = MovedROMS :: rel_path
  ∧ commonpath physical moved_root = moved_root
  ∧ relpath physical moved_root = rel_path
  ∧ relpath physical root_dir = logical
  ∧ plan_dest_paths_for_remerge root_dir (relpath physical moved_root)
    = (rel_path, root_dir ++ rel_path).
Proof.
  unfold plan_dest_paths_for_sort, plan_dest_paths_for_remerge. cbv zeta.
  assert (root_dir ++ [MovedROMS] ++ rel_path
          = (root_dir ++ [MovedROMS]) ++ rel_path) as Heq by by rewrite <-app_assoc.
  split_and!.
  - done.
  - apply commonpath_prefix. rewrite Heq. by apply prefix_app_r.
  - by rewrite Heq, relpath_app.
  - by rewrite relpath_app.
  - by rewrite Heq, relpath_app.
Qed.

(** ** The codes that detection returns *)

Definition LANGUAGE_CODES : list pystr :=
  py <$> ["en"; "jp"; "fr"; "de"; "es"; "it"; "pt"; "ru"; "ko"; "zh"; "multi"; "eu"]%string.

(** X3. Detection returns codes of the table only; "unknown", the
    bucket of the language report for files without a tag, is never
    among them. *)
Theorem detect_languages_codes `{!Runtime} (stem : pystr) :
  detect_languages stem ⊆ list_to_set LANGUAGE_CODES
  ∧ LANGUAGE_PATTERNS.*1 = LANGUAGE_CODES
  ∧ py "unknown" ∉ detect_languages stem.
Proof.
  assert (∀ tag, tag ∈ detect_languages stem → tag ∈ LANGUAGE_CODES) as Hin.
  { intros tag (pats & pat & Hin & _)%detect_languages_spec.
    change LANGUAGE_CODES with (LANGUAGE_PATTERNS.*1).
    apply list_elem_of_fmap. by exists (tag, pats). }
  split_and!.
  - intros tag Htag. apply elem_of_list_to_set. by apply Hin.
  - done.
  - intros Hu%Hin. unfold LANGUAGE_CODES in Hu. simpl in Hu.
    split_elem Hu; discriminate.
Qed.

(** ** Modes of [main] that leave the library alone *)

Section Modes_still.
Context `{!Runtime}.


End Modes_still.

(** ** Names and extensions *)

Lemma rfind_dot_None (s : pystr) : rfind_dot s = None ↔ dot ∉ s.
Proof.
  induction s as [|c s IH]; simpl.
  - split; [intros _ ?%elem_of_nil; done|done].
  - destruct (rfind_dot s) as [i|].
    + split; [done|]. intros Hn. destruct IH as [_ IH].
      discriminate IH. intros Hs. apply Hn. by right.
    + destruct (N.eqb_spec c dot) as [->|Hc].
      * split; [done|]. intros []. left.
      * split; [|done]. intros _ [?|Hs]%elem_of_cons; [done|].
        by apply IH in Hs.
Qed.

Lemma rfind_dot_Some (s : pystr) i :
  rfind_dot s = Some i ↔ ∃ a b, s = a ++ dot :: b ∧ length a = i ∧ dot ∉ b.
Proof.
  revert i. induction s as [|c s IH]; intros i; simpl.
  - split; [done|]. intros (a & b & Heq & _). by destruct a.
  - destruct (rfind_dot s) as [j|] eqn:Hj.
    + split.
      * intros [= <-]. destruct (proj1 (IH j) eq_refl) as (a & b & -> & <- & Hb).
        by exists (c :: a), b.
      * intros (a & b & Heq & <- & Hb). destruct a as [|c' a]; simplify_eq/=.
        { apply rfind_dot_None in Hb. congruence. }
        f_equal. assert (Some j = Some (length a)) as [= ->]; [|done].
        apply IH. by exists a, b.
    + apply rfind_dot_None in Hj. destruct (N.eqb_spec c dot) as [->|Hc].
      * split.
        -- intros [= <-]. by exists [], s.
        -- intros (a & b & Heq & <- & Hb). destruct a as [|c' a]; [done|].
           simplify_eq/=. destruct Hj. apply elem_of_app. right. left.
      * split; [done|]. intros (a & b & Heq & <- & Hb).
        destruct a as [|c' a]; simplify_eq/=.
        destruct Hj. apply elem_of_app. right. left.
Qed.

Lemma forallb_dots (a : pystr) :
  forallb (λ c, (c =? dot)%N) a = true ↔ Forall (λ c, c = dot) a.
Proof.
  rewrite forallb_forall, Forall_forall. split.
  - intros Ha c Hc. apply N.eqb_eq, Ha. by apply list_elem_of_In.
  - intros Ha c Hc. apply N.eqb_eq, Ha. by apply list_elem_of_In.
Qed.

(** The three ways a name splits. *)
Lemma splitext_plain (p : pystr) : dot ∉ p → splitext p = (p, []).
Proof. intros Hp%rfind_dot_None. unfold splitext. by rewrite Hp. Qed.

Lemma splitext_dots (a b : pystr) :
  Forall (λ c, c = dot) a → dot ∉ b →
  splitext (a ++ dot :: b) = (a ++ dot :: b, []).
Proof.
  intros Ha Hb. unfold splitext.
  assert (rfind_dot (a ++ dot :: b) = Some (length a)) as ->.
  { apply rfind_dot_Some. by exists a, b. }
  rewrite take_app_length. by rewrite (proj2 (forallb_dots a) Ha).
Qed.

Lemma splitext_ext (a b : pystr) :
  ¬ Forall (λ c, c = dot) a → dot ∉ b →
  splitext (a ++ dot :: b) = (a, dot :: b).
Proof.
  intros Ha Hb. unfold splitext.
  assert (rfind_dot (a ++ dot :: b) = Some (length a)) as ->.
  { apply rfind_dot_Some. by exists a, b. }
  rewrite take_app_length, drop_app_length.
  destruct (forallb _ a) eqn:Hf; [|done]. by apply forallb_dots in Hf.
Qed.

Lemma splitext_cases (p : pystr) :
  ((dot ∉ p) ∧ splitext p = (p, []))
  ∨ (∃ a b, p = a ++ dot :: b ∧ (dot ∉ b)
            ∧ Forall (λ c, c = dot) a ∧ splitext p = (p, []))
  ∨ (∃ a b, p = a ++ dot :: b ∧ (dot ∉ b)
            ∧ ¬ Forall (λ c, c = dot) a ∧ splitext p = (a, dot :: b)).
Proof.
  destruct (rfind_dot p) as [i|] eqn:Hi.
  - apply rfind_dot_Some in Hi as (a & b & -> & _ & Hb). right.
    destruct (decide (Forall (λ c, c = dot) a)) as [Ha|Ha]; [left|right];
      exists a, b; split_and!; try done.
    + by apply splitext_dots.
    + by apply splitext_ext.
  - apply rfind_dot_None in Hi. left. split; [done|by apply splitext_plain].
Qed.

(** X6. How a name splits into stem and extension: the two parts give
    the name back; the extension is empty or a dot followed by
    characters other than a dot; a name gets an extension exactly when
    something other than dots comes before its last dot, so that
    ".sfc" has none. *)
Theorem splitext_parts (p : pystr) :
  let '(stem, ext) := splitext p in
  stem ++ ext = p
  ∧ (dot ∉ tail ext)
  ∧ (ext ≠ [] ↔ ∃ a b, p = a ++ dot :: b ∧ (dot ∉ b) ∧ ∃ c, c ∈ a ∧ c ≠ dot)
  ∧ (ext ≠ [] → head ext = Some dot ∧ ∃ c, c ∈ stem ∧ c ≠ dot).
Proof.
  assert (Hnd : ∀ a : pystr, ¬ Forall (λ c, c = dot) a ↔ ∃ c, c ∈ a ∧ c ≠ dot).
  { intros a. split.
    - intros Hex%not_Forall_Exists; [|apply _].
      apply Exists_exists in Hex as (c & ? & ?). by exists c.
    - intros (c & Hc & Hne). apply Exists_not_Forall, Exists_exists.
      by exists c. }
  assert (Hlast : ∀ a b a' b' : pystr, a ++ dot :: b = a' ++ dot :: b' →
                    dot ∉ b → dot ∉ b' → a = a').
  { intros a b a' b' Heq Hb Hb'.
    assert (rfind_dot (a ++ dot :: b) = Some (length a)) as H1
      by (apply rfind_dot_Some; by exists a, b).
    assert (rfind_dot (a ++ dot :: b) = Some (length a')) as H2
      by (apply rfind_dot_Some; by exists a', b').
    rewrite H1 in H2. injection H2 as Hlen.
    apply (f_equal (take (length a))) in Heq.
    by rewrite take_app_length, Hlen, take_app_length in Heq. }
  destruct (splitext_cases p)
    as [[Hp ->]|[(a & b & -> & Hb & Ha & ->)|(a & b & -> & Hb & Ha & ->)]].
  - split_and!; [by rewrite app_nil_r|by intros ?%elem_of_nil| |done].
    split; [done|]. intros (a & b & -> & _). destruct Hp.
    apply elem_of_app. right. left.
  - split_and!; [by rewrite app_nil_r|by intros ?%elem_of_nil| |done].
    split; [done|]. intros (a' & b' & Heq & Hb' & Hc).
    apply Hlast in Heq as ->; [|done..]. by apply Hnd in Hc.
  - split_and!; [done|done| |].
    + split; [|done]. intros _. exists a, b. split_and!; [done..|]. by apply Hnd.
    + intros _. split; [done|]. by apply Hnd.
Qed.

(** ** The name after a collision *)

Lemma pretty_N_char_not_dot (x : N) : pretty_N_char x ≠ "."%char.
Proof. unfold pretty_N_char. by repeat case_match. Qed.

Lemma pretty_N_go_no_dot (x : N) : ∀ s : string,
  "."%char ∉ String.list_ascii_of_string s →
  "."%char ∉ String.list_ascii_of_string (pretty_N_go x s).
Proof.
  induction (N.lt_wf_0 x) as [x _ IH]; intros s Hs.
  destruct (decide (x = 0)%N) as [->|Hx]; [by rewrite pretty_N_go_0|].
  rewrite pretty_N_go_step by lia. apply IH.
  - apply N.div_lt; lia.
  - simpl. intros [Heq|Hin]%elem_of_cons; [|done].
    by eapply pretty_N_char_not_dot.
Qed.

Lemma counter_no_dot (n : N) : dot ∉ py (pretty n).
Proof.
  unfold py. intros (a & Ha & Hin)%list_elem_of_fmap.
  assert (a = "."%char) as ->.
  { rewrite <-(ascii_N_embedding a), <-Ha. done. }
  revert Hin. unfold pretty, pretty_N. case_decide.
  - simpl. intros [?|?%elem_of_nil]%elem_of_cons; done.
  - apply pretty_N_go_no_dot. simpl. by intros ?%elem_of_nil.
Qed.

Lemma suffix_no_dot (n : N) : dot ∉ py " (" ++ py (pretty n) ++ py ")".
Proof.
  rewrite !elem_of_app. intros [H|[H|H]].
  - vm_compute in H. repeat (apply elem_of_cons in H as [H|H]; [done|]).
    by apply elem_of_nil in H.
  - by apply counter_no_dot in H.
  - vm_compute in H. repeat (apply elem_of_cons in H as [H|H]; [done|]).
    by apply elem_of_nil in H.
Qed.

(** A text without a dot, put between stem and extension, goes to the
    stem. *)
Lemma splitext_insert (p t : pystr) :
  dot ∉ t → t ≠ [] →
  splitext ((splitext p).1 ++ t ++ (splitext p).2)
  = ((splitext p).1 ++ t, (splitext p).2).
Proof.
  intros Ht Hne.
  destruct (splitext_cases p)
    as [[Hp ->]|[(a & b & -> & Hb & Ha & ->)|(a & b & -> & Hb & Ha & ->)]]; simpl.
  - rewrite !app_nil_r. apply splitext_plain. rewrite elem_of_app. tauto.
  - rewrite !app_nil_r, <-app_assoc. simpl. apply splitext_dots; [done|].
    rewrite elem_of_app. tauto.
  - rewrite app_assoc. apply splitext_ext; [|done].
    intros [_ Hfa]%Forall_app. destruct t as [|c t]; [done|].
    apply Forall_cons in Hfa as [-> _]. destruct Ht. left.
Qed.

Section Renamed.
Context `{!Runtime}.

Lemma splitext_candidate (dest : path) (n : N) :
  splitext (basename (candidate dest n))
  = ((splitext (basename dest)).1 ++ py " (" ++ py (pretty n) ++ py ")",
     (splitext (basename dest)).2).
Proof.
  unfold candidate. destruct (splitext (basename dest)) as [stem ext] eqn:Hs.
  rewrite basename_snoc.
  pose proof (splitext_insert (basename dest)
                (py " (" ++ py (pretty n) ++ py ")") (suffix_no_dot n)) as Hi.
  rewrite Hs in Hi. cbn [fst snd] in Hi. rewrite <-!app_assoc in Hi.
  apply Hi. by destruct (py (pretty n)).
Qed.
End Renamed.

(** X7. The name that [unique_destination_path] settles on lies in the
    folder of the requested destination and has its extension, so a
    ROM renamed after a collision is still a ROM; its stem is the
    requested stem, followed by " (n)" when the destination was
    taken. *)
Theorem unique_destination_path_keeps_extension `{!Runtime}
    (dest : path) (fs : FS) :
  ∃ final,
    unique_destination_path dest fs = Ok final fs
    ∧ dirname final = dirname dest
    ∧ (splitext (basename final)).2 = (splitext (basename dest)).2
    ∧ is_rom (basename final) = is_rom (basename dest)
    ∧ (final = dest
       ∨ ∃ n, (1 ≤ n)%N ∧ is_Some (fs !! dest)
              ∧ (splitext (basename final)).1
                = (splitext (basename dest)).1
                    ++ py " (" ++ py (pretty n) ++ py ")").
Proof.
  destruct (unique_destination_path_spec dest fs) as (final & Heq & _ & Hfree).
  exists final. split; [done|].
  destruct Hfree as [[_ ->]|[Hex (n & Hn & -> & _)]].
  - split_and!; [done..|by left].
  - assert ((splitext (basename (candidate dest n))).2
            = (splitext (basename dest)).2) as Hext
      by by rewrite splitext_candidate.
    split_and!; [apply dirname_candidate|done|unfold is_rom; by rewrite Hext|].
    right. exists n. split_and!; [done..|]. by rewrite splitext_candidate.
Qed.

(** ** Creating the parent folder *)

(** X8. [ensure_parent_dir] only adds folders, and only on the way to
    the parent: when it returns, the parent is a folder, everything
    that was there is still there, and a second call changes nothing;
    it fails only when a file sits where a folder is needed, leaving
    what was there in place. *)
Theorem ensure_parent_dir_effect `{!Runtime} (p : path) (fs : FS) :
  dirname p ≠ [] ∨ fs !! [] = Some Dir →
  outcome (ensure_parent_dir p fs)
    (λ _ fs',
       fs' !! dirname p = Some Dir
       ∧ fs ⊆ fs'
       ∧ (∀ q, fs !! q = None → is_Some (fs' !! q) →
               fs' !! q = Some Dir ∧ q ≠ [] ∧ q `prefix_of` dirname p)
       ∧ ensure_parent_dir p fs' = Ok () fs')
    (λ fs',
       fs ⊆ fs'
       ∧ ∃ q d, q `prefix_of` dirname p ∧ fs !! q = Some (File d)).
Proof.
  intros Hroot.
  assert (Hsub : ∀ fs', grows (dirname p) fs fs' → fs ⊆ fs').
  { intros fs' Hg. apply map_subseteq_spec. intros q n Hq. by eapply grows_Some. }
  eapply outcome_weaken; [apply ensure_parent_dir_spec|..]; simpl.
  - intros _ fs' [Hg Hd]. specialize (Hd Hroot). split_and!; [done|by apply Hsub| |].
    + intros q Hnone Hsome. destruct (Hg q) as [Heq|(_ & Hdir & Hne & Hpre)].
      * rewrite Heq, Hnone in Hsome. by destruct Hsome.
      * done.
    + unfold ensure_parent_dir.
      by rewrite (proj2 (isdir_true fs' (dirname p)) Hd).
  - intros fs' [Hg (q & d & [_ Hpre] & Hq)]. split; [by apply Hsub|]. eauto.
Qed.

Lemma ensure_parent_dir_effect_witness :
  outcome (ensure_parent_dir (P ["roms"; "Moved ROMS"; "snes"; "Game.sfc"]%string)
             library)
    (λ _ fs', fs' !! P ["roms"; "Moved ROMS"; "snes"]%string = Some Dir
              ∧ library ⊆ fs')
    (λ fs', library ⊆ fs').
Proof.
  eapply outcome_weaken.
  - apply ensure_parent_dir_effect. left. by vm_compute.
  - intros _ fs' (Hd & Hsub & _). split; [exact Hd|exact Hsub].
  - intros fs' [Hsub _]. exact Hsub.
Defined.

(** ** Files are conserved *)

(** [f] takes the files of [fs] to the files of [fs'], one to one and
    with their contents. *)
Definition carries (f : path → path) (fs fs' : FS) : Prop :=
  (∀ q d, fs !! q = Some (File d) → fs' !! f q = Some (File d))
  ∧ (∀ q' d, fs' !! q' = Some (File d) → ∃ q, f q = q' ∧ fs !! q = Some (File d))
  ∧ (∀ q1 q2 d1 d2, fs !! q1 = Some (File d1) → fs !! q2 = Some (File d2) →
                    f q1 = f q2 → q1 = q2).

(** The two trees hold the same files, up to where they are. *)
Definition same_files (fs fs' : FS) : Prop := ∃ f, carries f fs fs'.

(** What holds of the file system however the run ends. *)
Definition safe {A} (r : res A) (Q : FS → Prop) : Prop :=
  match r with
  | Ok _ fs | Raise fs => Q fs
  | OutOfFuel => True
  end.

Lemma same_files_refl fs : same_files fs fs.
Proof. exists id. split_and!; [done| |done]. intros q' d ?. by exists q'. Qed.

Lemma same_files_trans fs1 fs2 fs3 :
  same_files fs1 fs2 → same_files fs2 fs3 → same_files fs1 fs3.
Proof.
  intros (f & Hf1 & Hf2 & Hf3) (g & Hg1 & Hg2 & Hg3). exists (g ∘ f).
  split_and!; simpl.
  - intros q d Hq. by apply Hg1, Hf1.
  - intros q' d Hq'. apply Hg2 in Hq' as (q2 & <- & Hq2).
    apply Hf2 in Hq2 as (q & <- & Hq). by exists q.
  - intros q1 q2 d1 d2 H1 H2 Heq. eapply Hf3; [done..|].
    eapply Hg3; [by apply Hf1|by apply Hf1|done].
Qed.

Lemma grows_same_files p fs fs' : grows p fs fs' → same_files fs fs'.
Proof.
  intros Hg. exists id. split_and!; simpl; [|  |done].
  - intros q d Hq. by eapply grows_Some.
  - intros q' d Hq'. exists q'. split; [done|]. by eapply grows_File.
Qed.

Lemma move_same_files (fs : FS) src final d :
  fs !! src = Some (File d) → fs !! final = None →
  same_files fs (<[final := File d]> (delete src fs)).
Proof.
  intros Hsrc Hfree.
  exists (λ q, if decide (q = src) then final else q). split_and!.
  - intros q d' Hq. case_decide as Hqs.
    + subst q. rewrite lookup_insert_eq. congruence.
    + rewrite lookup_insert_ne by congruence. by rewrite lookup_delete_ne.
  - intros q' d' Hq'. destruct (decide (q' = final)) as [->|Hqf].
    + rewrite lookup_insert_eq in Hq'. exists src. rewrite decide_True by done.
      split; [done|congruence].
    + rewrite lookup_insert_ne in Hq' by done.
      destruct (decide (q' = src)) as [->|Hqs];
        [by rewrite lookup_delete_eq in Hq'|].
      rewrite lookup_delete_ne in Hq' by done. exists q'.
      by rewrite decide_False.
  - intros q1 q2 d1 d2 H1 H2. repeat case_decide; congruence.
Qed.

Lemma rmdir_same_files (fs : FS) p :
  fs !! p = Some Dir → same_files fs (delete p fs).
Proof.
  intros Hp. exists id. split_and!; simpl; [| |done].
  - intros q d Hq. rewrite lookup_delete_ne; [done|congruence].
  - intros q' d Hq'. exists q'. split; [done|].
    destruct (decide (q' = p)) as [->|]; [by rewrite lookup_delete_eq in Hq'|].
    by rewrite lookup_delete_ne in Hq'.
Qed.

Lemma safe_bind {A B} (m : M A) (k : A → M B) (fs : FS) (Q : FS → Prop) :
  safe (m fs) Q → (∀ a fs', Q fs' → safe (k a fs') Q) → safe ((m ≫= k) fs) Q.
Proof.
  unfold mbind, M_bind. destruct (m fs); simpl; [|done..].
  intros HQ Hk. by apply Hk.
Qed.

Lemma safe_ret {A} (a : A) (fs : FS) (Q : FS → Prop) :
  Q fs → safe ((mret a : M A) fs) Q.
Proof. done. Qed.

Lemma outcome_safe {A} (r : res A) (Q1 : A → FS → Prop) (E1 Q : FS → Prop) :
  outcome r Q1 E1 → safe r Q →
  outcome r (λ a fs, Q1 a fs ∧ Q fs) (λ fs, E1 fs ∧ Q fs).
Proof. by destruct r. Qed.

Lemma for_each_safe {A S} (xs : list A) (step : A → S → M S) (Q : FS → Prop) :
  (∀ x s fs, Q fs → safe (step x s fs) Q) →
  ∀ s fs, Q fs → safe (for_each xs step s fs) Q.
Proof.
  intros Hstep. induction xs as [|x xs IH]; intros s fs HQ; simpl; [done|].
  apply safe_bind; [by apply Hstep|]. intros s' fs' HQ'. by apply IH.
Qed.

Section Conserved.
Context `{!Runtime}.

Lemma walk_topdown_safe {S} (body : path → list pystr → list pystr → S → M S)
    (Q : FS → Prop) (top0 : path) :
  (∀ base dirs files s fs,
     top0 `prefix_of` base → Q fs → safe (body base dirs files s fs) Q) →
  ∀ fuel top s fs,
    top0 `prefix_of` top → Q fs → safe (walk_topdown fuel top body s fs) Q.
Proof.
  intros Hbody. induction fuel as [|n IH]; intros top s fs Htop HQ; simpl; [done|].
  destruct (scandir fs top) as [[dirs files]|]; [|done].
  apply safe_bind; [by apply Hbody|]. intros s1 fs1 HQ1.
  apply for_each_safe; [|done]. intros d s2 fs2 HQ2. apply IH; [|done].
  etrans; [done|]. by apply prefix_app_r.
Qed.

Lemma walk_bottomup_safe {S} (body : path → list pystr → list pystr → S → M S)
    (Q : FS → Prop) (top0 : path) :
  (∀ base dirs files s fs,
     top0 `prefix_of` base → Q fs → safe (body base dirs files s fs) Q) →
  ∀ fuel top s fs,
    top0 `prefix_of` top → Q fs → safe (walk_bottomup fuel top body s fs) Q.
Proof.
  intros Hbody. induction fuel as [|n IH]; intros top s fs Htop HQ; simpl; [done|].
  destruct (scandir fs top) as [[dirs files]|]; [|done].
  apply safe_bind.
  - apply for_each_safe; [|done]. intros d s2 fs2 HQ2. apply IH; [|done].
    etrans; [done|]. by apply prefix_app_r.
  - intros s1 fs1 HQ1. by apply Hbody.
Qed.

Lemma os_walk_safe {S} (top : path) (topdown : bool)
    (body : path → list pystr → list pystr → S → M S) (Q : FS → Prop) :
  (∀ base dirs files s fs,
     top `prefix_of` base → Q fs → safe (body base dirs files s fs) Q) →
  ∀ s fs, Q fs → safe (os_walk top topdown body s fs) Q.
Proof.
  intros Hbody s fs HQ. unfold os_walk.
  destruct topdown;
    [by apply (walk_topdown_safe body Q top)
    |by apply (walk_bottomup_safe body Q top)].
Qed.

(** What [collect_roms] hands over: files with a ROM extension, and
    none under 'Moved ROMS' unless they are asked for. *)
Lemma collect_roms_safe {S} (root : path) (include_moved : bool)
    (body : path → path → S → M S) (Q : FS → Prop) :
  (∀ base f s fs,
     Q fs → root `prefix_of` base → is_rom f = true →
     (include_moved = false → ¬ under_moved root (base ++ [f])) →
     safe (body (base ++ [f]) (relpath (base ++ [f]) root) s fs) Q) →
  ∀ s fs, Q fs → safe (collect_roms root include_moved body s fs) Q.
Proof.
  intros Hbody s fs HQ. unfold collect_roms. apply os_walk_safe; [|done].
  intros base dirs files s1 fs1 Hbase HQ1. apply for_each_safe; [|done].
  intros f s2 fs2 HQ2. destruct (is_rom_ext _) eqn:Hrom; [|done].
  destruct (negb include_moved && _) eqn:Hskip; [done|].
  apply Hbody; [done..|]. intros ->. simpl in Hskip.
  apply bool_decide_eq_false in Hskip. intros Hu. apply Hskip.
  by apply commonpath_prefix.
Qed.

Lemma relocate_safe src dest fs0 fs :
  same_files fs0 fs → safe (relocate src dest fs) (same_files fs0).
Proof.
  intros H0. pose proof (relocate_spec src dest fs) as Hspec.
  destruct (relocate src dest fs) as [final fs'|fs'|]; simpl in *; [| |done].
  - destruct Hspec as (fs_a & d & Hg & _ & Hsrc & Hfree & _ & _ & ->).
    eapply same_files_trans; [done|].
    eapply same_files_trans; [by eapply grows_same_files|].
    by apply move_same_files.
  - destruct Hspec as [Hg _]. eapply same_files_trans; [done|].
    by eapply grows_same_files.
Qed.

(** A relocation of another file leaves the file at [p] alone. *)
Lemma relocate_safe_other src dest fs p d :
  p ≠ src → fs !! p = Some (File d) →
  safe (relocate src dest fs) (λ fs', fs' !! p = Some (File d)).
Proof.
  intros Hne Hp. pose proof (relocate_keeps src dest fs) as Hk.
  destruct (relocate src dest fs) as [final fs'|fs'|]; simpl in *; [| |done].
  - by apply Hk.
  - by apply Hk.
Qed.

Lemma sort_step_safe root keep do_move abs_path rel_path acc fs0 fs :
  same_files fs0 fs →
  safe (sort_step root keep do_move abs_path rel_path acc fs) (same_files fs0).
Proof.
  intros H0. unfold sort_step.
  destruct (should_keep _ keep); [done|]. simpl.
  destruct do_move; [|done].
  apply safe_bind; [by apply relocate_safe|]. by intros _ fs' ?.
Qed.

Lemma do_sort_safe root keep do_move log fs :
  safe (do_sort root keep do_move log fs) (same_files fs).
Proof.
  unfold do_sort. apply safe_bind; [|by intros acc fs' ?].
  apply collect_roms_safe; [|apply same_files_refl].
  intros. by apply sort_step_safe.
Qed.

Lemma remerge_step_safe root moved_root keep do_move base f acc fs0 fs :
  same_files fs0 fs →
  safe (remerge_step root moved_root keep do_move base f acc fs) (same_files fs0).
Proof.
  intros H0. unfold remerge_step.
  destruct (negb _); [done|]. simpl.
  destruct (allow_back _ keep); [|done].
  destruct do_move; [|done].
  apply safe_bind; [by apply relocate_safe|]. by intros _ fs' ?.
Qed.

Lemma do_remerge_safe root keep do_move log fs :
  safe (do_remerge root keep do_move log fs) (same_files fs).
Proof.
  unfold do_remerge. destruct (negb _); [apply same_files_refl|].
  apply safe_bind; [|by intros acc fs' ?].
  apply os_walk_safe; [|apply same_files_refl].
  intros base dirs files s1 fs1 _ HQ1. apply for_each_safe; [|done].
  intros. by apply remerge_step_safe.
Qed.

(** A live sort leaves alone what it does not report as moved. *)
Lemma do_sort_safe_other root keep do_move log fs p d :
  fs !! p = Some (File d) →
  is_rom (basename p) = false
  ∨ should_keep (langs_of (basename p)) keep = true
  ∨ under_moved root p →
  safe (do_sort root keep do_move log fs) (λ fs', fs' !! p = Some (File d)).
Proof.
  intros Hp Hwhy. unfold do_sort. apply safe_bind; [|by intros acc fs' ?].
  apply collect_roms_safe; [|done].
  intros base f s1 fs1 Hp1 Hbase Hrom Hout. unfold sort_step.
  rewrite basename_snoc. fold (langs_of f).
  destruct (should_keep (langs_of f) keep) eqn:Hkeep; [done|]. simpl.
  destruct do_move; [|done].
  apply safe_bind; [|by intros _ fs' ?].
  apply relocate_safe_other; [|done]. intros ->.
  rewrite basename_snoc in Hwhy.
  destruct Hwhy as [?|[?|?]]; [congruence|congruence|by apply Hout].
Qed.

(** A live remerge leaves alone what it does not report as moved
    back. *)
Lemma do_remerge_safe_other root keep do_move log fs p d :
  fs !! p = Some (File d) →
  is_rom (basename p) = false
  ∨ allow_back (langs_of (basename p)) keep = false
  ∨ ¬ under_moved root p →
  safe (do_remerge root keep do_move log fs) (λ fs', fs' !! p = Some (File d)).
Proof.
  intros Hp Hwhy. unfold do_remerge. destruct (negb _); [done|].
  apply safe_bind; [|by intros acc fs' ?].
  apply os_walk_safe; [|done].
  intros base dirs files s1 fs1 Hbase HQ1. apply for_each_safe; [|done].
  intros f s2 fs2 Hp2. unfold remerge_step. fold (is_rom f).
  destruct (is_rom f) eqn:Hrom; [|done]. simpl. fold (langs_of f).
  destruct (allow_back (langs_of f) keep) eqn:Hallow; [|done].
  destruct do_move; [|done].
  apply safe_bind; [|by intros _ fs' ?].
  apply relocate_safe_other; [|done]. intros ->.
  rewrite basename_snoc in Hwhy.
  destruct Hwhy as [?|[?|Hout]]; [congruence|congruence|].
  apply Hout. unfold under_moved. etrans; [done|]. by apply prefix_app_r.
Qed.
End Conserved.

Section Returns.
Context `{!Runtime}.

Lemma remerge_step_bound root keep do_move base f acc fs B :
  (root ++ [MovedROMS]) `prefix_of` base →
  (∀ q, is_Some (fs !! q) → length q ≤ B) →
  length (base ++ [f]) ≤ B →
  outcome (remerge_step root (root ++ [MovedROMS]) keep do_move base f acc fs)
    (λ _ fs', ∀ q, is_Some (fs' !! q) → length q ≤ B)
    (λ _, True).
Proof.
  intros Hbase Hbound Hlen. unfold remerge_step.
  destruct (negb _); [done|]. simpl.
  rewrite relpath_snoc by done.
  set (rel := relpath base (root ++ [MovedROMS]) ++ [f]).
  destruct (allow_back _ keep); [|done].
  destruct do_move; [|done].
  eapply outcome_bind; [|intros a fs' HQ; exact HQ].
  eapply outcome_weaken; [apply relocate_bound|..]; simpl.
  - unfold rel. intros Hnil. apply (f_equal length) in Hnil.
    rewrite !length_app in Hnil. simpl in Hnil. lia.
  - intros _ fs' Hb q Hq. destruct (Hb q Hq) as [?|Hle]; [by apply Hbound|].
    destruct Hbase as [r ->]. unfold rel in Hle.
    rewrite relpath_app in Hle. rewrite !length_app in Hle.
    rewrite !length_app in Hlen. simpl in *. lia.
  - done.
Qed.

(** A remerge pass comes to an end, whatever the tree. *)
Lemma do_remerge_returns root keep do_move log fs :
  outcome (do_remerge root keep do_move log fs) (λ _ _, True) (λ _, True).
Proof.
  unfold do_remerge.
  destruct (isdir fs (root ++ [MovedROMS])) eqn:Hd; simpl; [|done].
  eapply outcome_bind; [|by intros].
  apply (os_walk_rule
           (λ _ fs', ∀ q, is_Some (fs' !! q) → length q ≤ depth fs)
           (λ _, True) (λ _ _ _ _, True) (λ _, False) (λ _ _ _, True)
           (depth fs) (root ++ [MovedROMS])); try done.
  - intros acc fs' q Hb. apply Hb.
  - intros base dirs files acc fs1 Hbase Hb1 Hscan.
    apply scandir_Some in Hscan as (_ & _ & NDf & _ & Hfiles).
    eapply outcome_weaken;
      [apply (for_each_rule
                (λ _ fs', ∀ q, is_Some (fs' !! q) → length q ≤ depth fs)
                (λ _, True) (λ _ _ _ _, True)
                (λ f _ _, length (base ++ [f]) ≤ depth fs)
                (λ _ _ _, True)); try done|..].
    + intros f acc2 fs2 Hf Hb2 Hlen.
      eapply outcome_weaken;
        [by apply (remerge_step_bound root keep do_move base f acc2 fs2
                     (depth fs))|..]; simpl; [|done].
      intros acc3 fs3 ?. done.
    + intros f Hf. apply Hfiles in Hf as [d' Hf]. apply Hb1. by rewrite Hf.
    + simpl. by intros acc2 fs2 (? & _ & _).
    + done.
  - intros q. apply depth_le.
  - lia.
Qed.

(** A sort pass of a well-formed tree comes to an end. *)
Lemma do_sort_returns root keep do_move log fs :
  wf fs → outcome (do_sort root keep do_move log fs) (λ _ _, True) (λ _, True).
Proof.
  intros Hwf. destruct do_move.
  - eapply outcome_weaken; [by apply do_sort_live|done..].
  - destruct (do_sort_dry root keep log fs) as (acc & -> & _). done.
Qed.
End Returns.

(** X9. A sort pass, dry or live, conserves the files: whether it
    returns or fails on the way, the files of the tree it leaves are
    the files of the tree it was given, one to one and each with its
    content; only their places may differ. *)
Theorem sort_conserves_files `{!Runtime} (root : path) (keep : gset pystr)
    (do_move : bool) (log : list log_line) (fs : FS) :
  wf fs →
  outcome (do_sort root keep do_move log fs)
    (λ _ fs', same_files fs fs') (λ fs', same_files fs fs').
Proof.
  intros Hwf.
  eapply outcome_weaken;
    [apply outcome_safe; [by apply do_sort_returns|apply do_sort_safe]|..];
    simpl; [by intros ? ? [_ ?]|by intros ? [_ ?]].
Qed.

(** X10. A remerge pass, dry or live and with any keep set, conserves
    the files of any tree: it returns or fails, and either way the
    files of the tree it leaves are the files of the tree it was
    given, one to one and each with its content. *)
Theorem remerge_conserves_files `{!Runtime} (root : path) (keep : gset pystr)
    (do_move : bool) (log : list log_line) (fs : FS) :
  outcome (do_remerge root keep do_move log fs)
    (λ _ fs', same_files fs fs') (λ fs', same_files fs fs').
Proof.
  eapply outcome_weaken;
    [apply outcome_safe; [apply do_remerge_returns|apply do_remerge_safe]|..];
    simpl; [by intros ? ? [_ ?]|by intros ? [_ ?]].
Qed.

(** X11. A live sort moves only what it reports as moved: a file
    without a ROM extension, a file that the policy keeps, and a file
    already under 'Moved ROMS' is at its place with its content when
    the pass returns or fails. *)
Theorem sort_leaves_the_rest `{!Runtime} (root : path) (keep : gset pystr)
    (log : list log_line) (fs : FS) (p : path) (d : N) :
  wf fs →
  fs !! p = Some (File d) →
  is_rom (basename p) = false
  ∨ should_keep (langs_of (basename p)) keep = true
  ∨ under_moved root p →
  outcome (do_sort root keep true log fs)
    (λ _ fs', fs' !! p = Some (File d)) (λ fs', fs' !! p = Some (File d)).
Proof.
  intros Hwf Hp Hwhy.
  eapply outcome_weaken;
    [apply outcome_safe;
       [by apply do_sort_returns|by apply (do_sort_safe_other _ _ _ _ _ p d)]|..];
    simpl; [by intros ? ? [_ ?]|by intros ? [_ ?]].
Qed.

(** X12. A live remerge moves only what it reports as moved back: a
    file that the keep set does not let back, a file without a ROM
    extension, and every file outside 'Moved ROMS' is at its place
    with its content when the pass returns or fails. *)
Theorem remerge_leaves_the_rest `{!Runtime} (root : path) (keep : gset pystr)
    (log : list log_line) (fs : FS) (p : path) (d : N) :
  fs !! p = Some (File d) →
  is_rom (basename p) = false
  ∨ allow_back (langs_of (basename p)) keep = false
  ∨ ¬ under_moved root p →
  outcome (do_remerge root keep true log fs)
    (λ _ fs', fs' !! p = Some (File d)) (λ fs', fs' !! p = Some (File d)).
Proof.
  intros Hp Hwhy.
  eapply outcome_weaken;
    [apply outcome_safe;
       [apply do_remerge_returns|by apply (do_remerge_safe_other _ _ _ _ _ p d)]|..];
    simpl; [by intros ? ? [_ ?]|by intros ? [_ ?]].
Qed.

(** ** What the sweep removes *)

(** A folder with nothing in it. *)
Definition empty_dir (fs : FS) (p : path) : Prop :=
  fs !! p = Some Dir ∧ ∀ x, fs !! (p ++ [x]) = None.

(** [p] lies at or below [top], and from [top] down to [p] all are
    folders: the walk from [top] comes to [p]. *)
Definition reached (fs : FS) (top p : path) : Prop :=
  top `prefix_of` p
  ∧ ∀ q, top `prefix_of` q → q `prefix_of` p → fs !! q = Some Dir.

(** [fs'] is [fs] without the entries at [gone]. *)
Definition without (gone : list path) (fs fs' : FS) : Prop :=
  ∀ q, fs' !! q = if bool_decide (q ∈ gone) then None else fs !! q.

Lemma prefix_child_cases (top q p : path) (d : pystr) :
  (top ++ [d]) `prefix_of` p → top `prefix_of` q → q `prefix_of` p →
  q = top ∨ (top ++ [d]) `prefix_of` q.
Proof.
  intros [s ->] [r ->] [t Heq]. rewrite <-!app_assoc in Heq.
  apply app_inv_head in Heq. destruct r as [|x r].
  - left. by rewrite app_nil_r.
  - right. simpl in Heq. injection Heq as <- _. exists r.
    by rewrite <-app_assoc.
Qed.

Lemma prefix_child_inj (top q : path) (d d' : pystr) :
  (top ++ [d]) `prefix_of` q → (top ++ [d']) `prefix_of` q → d = d'.
Proof.
  intros [s ->] [t Heq]. rewrite <-!app_assoc in Heq.
  apply app_inv_head in Heq. by injection Heq.
Qed.

Lemma reached_below (fs : FS) (top : path) (d : pystr) (p : path) :
  fs !! top = Some Dir → reached fs (top ++ [d]) p → reached fs top p.
Proof.
  intros Htop [Hpre Hdirs]. split.
  - etrans; [|done]. by apply prefix_app_r.
  - intros q Hq1 Hq2.
    destruct (prefix_child_cases top q p d Hpre Hq1 Hq2) as [->|Hq]; [done|].
    by apply Hdirs.
Qed.

Lemma reached_step (fs : FS) (top p : path) :
  reached fs top p → p = top ∨ ∃ d, fs !! (top ++ [d]) = Some Dir
                                   ∧ reached fs (top ++ [d]) p.
Proof.
  intros [[rest ->] Hdirs]. destruct rest as [|d rest].
  - left. by rewrite app_nil_r.
  - right. exists d.
    assert ((top ++ [d]) `prefix_of` (top ++ d :: rest)) as Hpre.
    { exists rest. by rewrite <-app_assoc. }
    split_and!.
    + apply Hdirs; [by apply prefix_app_r|done].
    + split; [done|]. intros q Hq1 Hq2. apply Hdirs; [|done].
      etrans; [|done]. by apply prefix_app_r.
Qed.

(** A sweep elsewhere does not change what is found below [top]. *)
Lemma swept_elsewhere (fs fs' : FS) (top p : path) :
  (∀ q, top `prefix_of` q → fs' !! q = fs !! q) →
  (reached fs' top p ∧ empty_dir fs' p) ↔ (reached fs top p ∧ empty_dir fs p).
Proof.
  intros Hsame.
  assert (∀ f1 f2 : FS, (∀ q, top `prefix_of` q → f1 !! q = f2 !! q) →
            reached f1 top p ∧ empty_dir f1 p → reached f2 top p ∧ empty_dir f2 p)
    as Hone.
  { intros f1 f2 H12 [[Hpre Hdirs] [Hp Hx]]. split; split.
    - done.
    - intros q Hq1 Hq2. rewrite <-H12 by done. by apply Hdirs.
    - by rewrite <-H12.
    - intros x. rewrite <-H12; [done|]. etrans; [done|]. by apply prefix_app_r. }
  split; apply Hone; [done|]. intros q Hq. symmetry. by apply Hsame.
Qed.

Lemma without_nil (fs : FS) : without [] fs fs.
Proof. intros q. done. Qed.

Lemma without_app (gone1 gone2 : list path) (fs1 fs2 fs3 : FS) :
  without gone1 fs1 fs2 → without gone2 fs2 fs3 →
  without (gone1 ++ gone2) fs1 fs3.
Proof.
  intros H1 H2 q. rewrite H2, H1.
  repeat case_bool_decide; set_solver.
Qed.

Lemma without_Some (gone : list path) (fs fs' : FS) (q : path) :
  without gone fs fs' → is_Some (fs' !! q) → is_Some (fs !! q).
Proof.
  intros Hw. rewrite Hw. case_bool_decide; [by intros [? ?]|done].
Qed.

Section Sweep.
Context `{!Runtime}.

Lemma cleanup_step_leaf (top : path) (removed : list path) (fs : FS) :
  fs !! top = Some Dir → (∀ x, fs !! (top ++ [x]) = None) →
  cleanup_step top [] [] removed fs = Ok (removed ++ [top]) (delete top fs).
Proof.
  intros Htop Hx. unfold cleanup_step. simpl.
  unfold mbind, M_bind, try_pass, os_rmdir.
  rewrite (proj2 (isdir_true fs top) Htop).
  assert (child_names fs top = []) as ->.
  { apply elem_of_nil_inv. intros x [n Hn]%child_names_spec. by rewrite Hx in Hn. }
  done.
Qed.

Lemma cleanup_step_skip (top : path) (dirs files : list pystr)
    (removed : list path) (fs : FS) :
  dirs ≠ [] ∨ files ≠ [] →
  cleanup_step top dirs files removed fs = Ok removed fs.
Proof.
  intros Hne. unfold cleanup_step.
  destruct dirs; [|done]. destruct files; [|done]. by destruct Hne.
Qed.

(** The sweep below the folders [ds] of [top], one after the other. *)
Lemma sweep_children (n : nat) (top : path)
    (IH : ∀ (top' : path) (removed : list path) (fs : FS),
        1 ≤ n → (∀ p, is_Some (fs !! p) → length p < n + length top') →
        ∃ new fs',
          walk_bottomup n top' cleanup_step removed fs = Ok (removed ++ new) fs'
          ∧ NoDup new
          ∧ (∀ p, p ∈ new ↔ reached fs top' p ∧ empty_dir fs p)
          ∧ without new fs fs') :
  1 ≤ n →
  ∀ (ds : list pystr) (removed : list path) (fs : FS),
    NoDup ds →
    (∀ p, is_Some (fs !! p) → length p < S n + length top) →
    ∃ new fs',
      for_each ds (λ d, walk_bottomup n (top ++ [d]) cleanup_step) removed fs
      = Ok (removed ++ new) fs'
      ∧ NoDup new
      ∧ (∀ p, p ∈ new ↔ ∃ d, d ∈ ds ∧ reached fs (top ++ [d]) p ∧ empty_dir fs p)
      ∧ without new fs fs'.
Proof.
  intros Hn. induction ds as [|d ds IHds]; intros removed fs Hnd Hbound.
  { exists [], fs. simpl. rewrite app_nil_r. split_and!; [done|constructor| |done].
    intros p. split; [by intros ?%elem_of_nil|].
    by intros (d & ?%elem_of_nil & _). }
  apply NoDup_cons in Hnd as [Hd Hnd]. simpl.
  destruct (IH (top ++ [d]) removed fs Hn) as (new1 & fs1 & Hrun1 & Hnd1 & Hin1 & Hw1).
  { intros p Hp. apply Hbound in Hp. rewrite length_app. simpl. lia. }
  unfold mbind, M_bind. rewrite Hrun1.
  destruct (IHds (removed ++ new1) fs1 Hnd) as (new2 & fs2 & Hrun2 & Hnd2 & Hin2 & Hw2).
  { intros p Hp. apply Hbound. by eapply without_Some. }
  assert (Hsame : ∀ d' q, d' ≠ d → (top ++ [d']) `prefix_of` q → fs1 !! q = fs !! q).
  { intros d' q Hne Hq. rewrite Hw1. case_bool_decide as Hq1; [|done].
    apply Hin1 in Hq1 as [[Hpre _] _].
    destruct Hne. by eapply prefix_child_inj. }
  exists (new1 ++ new2), fs2. split_and!.
  - by rewrite Hrun2, <-app_assoc.
  - apply NoDup_app. split_and!; [done| |done].
    intros p [[Hp1 _] _]%Hin1 (d' & Hd' & [Hp2 _] & _)%Hin2.
    assert (d' = d) as -> by by eapply prefix_child_inj. done.
  - intros p. rewrite elem_of_app, Hin1, Hin2. split.
    + intros [Hp|(d' & Hd' & Hp)].
      * exists d. split; [left|done].
      * exists d'. split; [by right|].
        apply (swept_elsewhere fs fs1 (top ++ [d']) p); [|done].
        intros q Hq. apply (Hsame d'); [|done]. intros ->. done.
    + intros (d' & [->|Hd']%elem_of_cons & Hp); [by left|right].
      exists d'. split; [done|].
      apply (swept_elsewhere fs fs1 (top ++ [d']) p); [|done].
      intros q Hq. apply (Hsame d'); [|done]. intros ->. done.
  - by eapply without_app.
Qed.

(** The sweep from [top]: it returns, and what it removes are the
    empty folders it comes to. *)
Lemma sweep_spec : ∀ (fuel : nat) (top : path) (removed : list path) (fs : FS),
  1 ≤ fuel → (∀ p, is_Some (fs !! p) → length p < fuel + length top) →
  ∃ new fs',
    walk_bottomup fuel top cleanup_step removed fs = Ok (removed ++ new) fs'
    ∧ NoDup new
    ∧ (∀ p, p ∈ new ↔ reached fs top p ∧ empty_dir fs p)
    ∧ without new fs fs'.
Proof.
  induction fuel as [|n IH]; intros top removed fs Hf Hbound; [lia|].
  simpl. destruct (scandir fs top) as [[dirs files]|] eqn:Hscan.
  2: { apply scandir_None in Hscan. exists [], fs. rewrite app_nil_r.
       split_and!; [done|constructor| |apply without_nil].
       intros p. split; [by intros ?%elem_of_nil|].
       intros [[Hpre Hdirs] _]. destruct Hscan. by apply Hdirs. }
  apply scandir_Some in Hscan as (Htop & NDd & NDf & Hdirs & Hfiles).
  destruct dirs as [|d0 dirs].
  - simpl. destruct files as [|f0 files].
    + assert (Hno : ∀ x, fs !! (top ++ [x]) = None).
      { intros x. destruct (fs !! (top ++ [x])) as [[dt|]|] eqn:Hx; [| |done].
        - assert (x ∈ []) as Hin by (apply Hfiles; eauto).
          by apply elem_of_nil in Hin.
        - assert (x ∈ []) as Hin by by apply Hdirs.
          by apply elem_of_nil in Hin. }
      exists [top], (delete top fs). split_and!.
      * by apply cleanup_step_leaf.
      * apply NoDup_singleton.
      * intros p. rewrite list_elem_of_singleton. split.
        -- intros ->. split; [|done]. split; [done|].
           intros q Hq1 Hq2. by rewrite (anti_symm prefix q top).
        -- intros [[->|(d & Hd & _)]%reached_step _]; [done|].
           by rewrite Hno in Hd.
      * intros q. case_bool_decide as Hq.
        -- apply list_elem_of_singleton in Hq as ->. apply lookup_delete_eq.
        -- apply lookup_delete_ne. intros ->. apply Hq. left.
    + exists [], fs. rewrite app_nil_r. split_and!.
      * apply cleanup_step_skip. by right.
      * constructor.
      * intros p. split; [by intros ?%elem_of_nil|].
        intros [[->|(d & Hd & _)]%reached_step [_ Hx]].
        -- assert (∃ dt, fs !! (top ++ [f0]) = Some (File dt)) as [dt Hdt]
             by (apply Hfiles; left).
           by rewrite Hx in Hdt.
        -- apply Hdirs in Hd. by apply elem_of_nil in Hd.
      * apply without_nil.
  - assert (1 ≤ n) as Hn.
    { assert (is_Some (fs !! (top ++ [d0]))) as Hs.
      { assert (fs !! (top ++ [d0]) = Some Dir) as -> by (apply Hdirs; left). eauto. }
      apply Hbound in Hs. rewrite length_app in Hs. simpl in Hs. lia. }
    destruct (sweep_children n top IH Hn (d0 :: dirs) removed fs NDd Hbound)
      as (new & fs' & Hrun & Hnd & Hin & Hw).
    exists new, fs'. split_and!; [|done| |done].
    + unfold mbind, M_bind. rewrite Hrun. apply cleanup_step_skip. by left.
    + intros p. rewrite Hin. split.
      * intros (d & Hd & Hr & He). split; [|done]. by eapply reached_below.
      * intros [[->|(d & Hd & Hr)]%reached_step He].
        -- destruct He as [_ Hx].
           assert (fs !! (top ++ [d0]) = Some Dir) as Hd0 by (apply Hdirs; left).
           by rewrite Hx in Hd0.
        -- exists d. split_and!; [by apply Hdirs|done..].
Qed.
End Sweep.

(** X13. The sweep of empty folders always returns, and it removes
    exactly the folders that were empty when it started and that the
    walk from [root] comes to; everything else, every file among it,
    stays as it was.  A folder that holds only empty folders is
    therefore left standing. *)
Theorem cleanup_removes_empty_leaves `{!Runtime} (root : path) (fs : FS) :
  ∃ removed fs',
    cleanup_empty_dirs root fs = Ok removed fs'
    ∧ NoDup removed
    ∧ (∀ p, p ∈ removed ↔ reached fs root p ∧ empty_dir fs p)
    ∧ (∀ q, fs' !! q = if bool_decide (q ∈ removed) then None else fs !! q)
    ∧ (∀ q d, fs !! q = Some (File d) → fs' !! q = Some (File d))
    ∧ (∀ p x, is_Some (fs !! (p ++ [x])) → fs' !! p = fs !! p).
Proof.
  destruct (sweep_spec (2 + depth fs) root [] fs) as (new & fs' & Hrun & Hnd & Hin & Hw).
  { lia. }
  { intros p Hp%depth_le. lia. }
  exists new, fs'. split_and!; [done..| |].
  - intros q d Hq. rewrite Hw. case_bool_decide as Hrm; [|done].
    apply Hin in Hrm as [_ [Hdir _]]. congruence.
  - intros p x [n Hn]. rewrite Hw. case_bool_decide as Hrm; [|done].
    apply Hin in Hrm as [_ [_ Hx]]. by rewrite Hx in Hn.
Qed.

(** ** A whole run *)



(** ** The counters of the language report *)

(** [counter[key]], 0 when the key is missing. *)
Definition count (c : gmap pystr nat) (k : pystr) : nat := default 0 (c !! k).

(** The counts of [k] of all folders together. *)
Definition folder_sum (m : gmap pystr (gmap pystr nat)) (k : pystr) : nat :=
  sum_list_with (λ e : pystr * gmap pystr nat, count e.2 k) (map_to_list m).

(** The totals are the sums of the folders, no stored count is 0, and
    there are totals exactly when there are folders. *)
Definition counters_ok (acc : langs_acc) : Prop :=
  (∀ k, count (total_counts acc) k = folder_sum (folder_lang_counts acc) k)
  ∧ (∀ k n, total_counts acc !! k = Some n → 1 ≤ n)
  ∧ (∀ folder c, folder_lang_counts acc !! folder = Some c →
       c ≠ ∅ ∧ ∀ k n, c !! k = Some n → 1 ≤ n ∧ n ≤ count (total_counts acc) k)
  ∧ (folder_lang_counts acc = ∅ ↔ total_counts acc = ∅).

Lemma count_incr (key : pystr) (c : gmap pystr nat) (k : pystr) :
  count (incr key c) k = count c k + (if decide (k = key) then 1 else 0).
Proof.
  unfold count, incr. case_decide as Hk.
  - subst k. rewrite lookup_insert_eq. simpl. lia.
  - rewrite lookup_insert_ne by done. lia.
Qed.

Lemma folder_sum_insert (m : gmap pystr (gmap pystr nat)) folder c (k : pystr) :
  folder_sum (<[folder := c]> m) k + count (default ∅ (m !! folder)) k
  = folder_sum m k + count c k.
Proof.
  unfold folder_sum. destruct (m !! folder) as [c0|] eqn:Hf; simpl.
  - rewrite <-(insert_delete_eq m).
    rewrite <-(insert_delete_id m folder c0 Hf) at 2.
    rewrite !map_to_list_insert by apply lookup_delete_eq. simpl. lia.
  - rewrite map_to_list_insert by done. simpl.
    assert (count ∅ k = 0) as -> by done. lia.
Qed.

Lemma folder_sum_incr_in (m : gmap pystr (gmap pystr nat)) (folder key k : pystr) :
  folder_sum (incr_in folder key m) k
  = folder_sum m k + (if decide (k = key) then 1 else 0).
Proof.
  unfold incr_in.
  pose proof (folder_sum_insert m folder (incr key (default ∅ (m !! folder))) k) as Hs.
  rewrite count_incr in Hs. lia.
Qed.

(** One [+= 1] on both counters. *)
Definition bump (folder lang : pystr) (a : langs_acc) : langs_acc :=
  {| folder_lang_counts := incr_in folder lang (folder_lang_counts a);
     total_counts := incr lang (total_counts a) |}.

Lemma bump_ok folder lang acc :
  counters_ok acc →
  counters_ok (bump folder lang acc)
  ∧ folder_lang_counts (bump folder lang acc) ≠ ∅.
Proof.
  intros (Hsum & Hpos & Hfold & Hempty). split; [|apply insert_non_empty].
  split_and!; simpl.
  - intros k. by rewrite count_incr, folder_sum_incr_in, Hsum.
  - intros k n. unfold incr. destruct (decide (k = lang)) as [->|Hk].
    + rewrite lookup_insert_eq. intros [= <-]. lia.
    + rewrite lookup_insert_ne by done. apply Hpos.
  - intros f c. unfold incr_in. destruct (decide (f = folder)) as [->|Hf].
    + rewrite lookup_insert_eq. intros [= <-]. split; [apply insert_non_empty|].
      intros k n Hn. rewrite count_incr.
      assert (count (incr lang (default ∅ (folder_lang_counts acc !! folder))) k = n)
        as Hc by (unfold count; by rewrite Hn).
      rewrite count_incr in Hc.
      assert (count (default ∅ (folder_lang_counts acc !! folder)) k
              ≤ count (total_counts acc) k) as Hle.
      { destruct (folder_lang_counts acc !! folder) as [c0|] eqn:Hc0; simpl.
        - unfold count at 1. destruct (c0 !! k) as [n0|] eqn:Hn0; simpl; [|lia].
          by apply (Hfold _ _ Hc0).
        - unfold count at 1. rewrite lookup_empty. simpl. lia. }
      split; [|lia]. unfold incr in Hn. destruct (decide (k = lang)) as [->|Hk].
      * rewrite lookup_insert_eq in Hn. injection Hn as <-. lia.
      * rewrite lookup_insert_ne in Hn by done.
        destruct (folder_lang_counts acc !! folder) as [c0|] eqn:Hc0; simpl in Hn.
        -- destruct (Hfold _ _ Hc0) as [_ Hb]. by destruct (Hb k n Hn).
        -- by rewrite lookup_empty in Hn.
    + rewrite lookup_insert_ne by done. intros Hc.
      destruct (Hfold _ _ Hc) as [Hne Hle]. split; [done|].
      intros k n Hn. destruct (Hle k n Hn) as [? ?]. rewrite count_incr.
      split; [done|lia].
  - unfold incr_in, incr. split; intros Habs; by apply insert_non_empty in Habs.
Qed.

Section LangsReport.
Context `{!Runtime}.

Lemma langs_step_bump abs_path rel_path acc fs :
  ∃ folder tags,
    tags ≠ []
    ∧ langs_step abs_path rel_path acc fs
      = Ok (foldl (λ a lang, bump folder lang a) acc tags) fs.
Proof.
  unfold langs_step.
  set (folder := if decide (1 < length rel_path) then _ else _).
  set (langs := detect_languages _).
  exists folder. case_bool_decide as Hl.
  - exists [py "unknown"]. done.
  - exists (elements langs). split; [|done].
    intros Hnil%elements_empty_inv. fold_leibniz. done.
Qed.

Lemma langs_step_ok abs_path rel_path acc fs :
  counters_ok acc →
  ∃ acc', langs_step abs_path rel_path acc fs = Ok acc' fs ∧ counters_ok acc'.
Proof.
  intros Hok.
  destruct (langs_step_bump abs_path rel_path acc fs) as (folder & tags & _ & ->).
  eexists. split; [done|]. clear -Hok. revert acc Hok.
  induction tags as [|t tags IH]; intros acc Hok; simpl; [done|].
  apply IH. by apply bump_ok.
Qed.

(** A consumer that leaves the file system alone and keeps [J]. *)
Lemma collect_roms_fold {S} (J : S → Prop) (root : path) (include_moved : bool)
    (body : path → path → S → M S) :
  (∀ abs_path rel_path s fs,
     J s → ∃ s', body abs_path rel_path s fs = Ok s' fs ∧ J s') →
  ∀ s fs, J s → ∃ s', collect_roms root include_moved body s fs = Ok s' fs ∧ J s'.
Proof.
  intros Hbody s fs HJ. unfold collect_roms.
  match goal with |- context [os_walk root true ?b s] =>
    pose proof (os_walk_rule (λ s' fs', fs' = fs ∧ J s') (λ _, False)
                  (λ _ _ _ _, True) (λ _, False) (λ _ _ _, True)
                  (depth fs) root b) as Hw
  end.
  lapply Hw; clear Hw; [intros Hw|done].
  lapply Hw; clear Hw; [intros Hw|done].
  lapply Hw; clear Hw; [intros Hw|by intros ? ? p [-> _]; apply depth_le].
  lapply Hw; clear Hw; [intros Hw|done].
  lapply Hw; clear Hw; [intros Hw|done].
  lapply Hw; clear Hw; [intros Hw|done].
  lapply Hw; clear Hw; [intros Hw|done].
  lapply Hw; clear Hw; [intros Hw|done].
  lapply Hw; clear Hw.
  2: { intros base dirs files s1 fs1 _ [-> HJ1] Hscan.
       apply scandir_Some in Hscan as (_ & _ & NDf & _).
       eapply outcome_weaken;
         [apply (for_each_rule (λ s' fs', fs' = fs ∧ J s') (λ _, False)
                   (λ _ _ _ _, True) (λ _ _ _, True) (λ _ _ _, True));
          try done|..].
       - intros f s2 fs2 _ [-> HJ2] _.
         destruct (is_rom_ext _); [|done].
         destruct (_ && _); [done|].
         destruct (Hbody (base ++ [f]) (relpath (base ++ [f]) root) s2 fs HJ2)
           as (s3 & Heq & HJ3).
         rewrite Heq. done.
       - simpl. by intros s2 fs2 ([-> ?] & _).
       - done. }
  intros Hw.
  specialize (Hw root s fs (reflexivity _) (conj eq_refl HJ) ltac:(lia)).
  match type of Hw with outcome ?r _ _ => destruct r as [s' fs'| |] end;
    simpl in Hw; [|done..].
  destruct Hw as ([-> HJ'] & _). eauto.
Qed.
End LangsReport.

(** X15. The language report changes nothing and its counters add up:
    for each code the total is the sum of the counts of the folders,
    no count that is shown is 0, no folder is shown without a count,
    and the report says that there are no ROMs exactly when the
    totals are empty. *)
Theorem langs_report_counters `{!Runtime} (root : path)
    (log : list log_line) (fs : FS) :
  ∃ acc,
    do_langs_report root log fs
    = Ok (log
          ++ [Text "=== LANGUAGE SUMMARY ==="]
          ++ (if bool_decide (total_counts acc = ∅)
              then [Text "No ROMs found to analyze."; Text ""]
              else (λ e, FolderCounts e.1 e.2)
                     <$> map_to_list (folder_lang_counts acc))
          ++ [Text "TOTALS:"; TotalCounts (total_counts acc); Text ""]) fs
    ∧ counters_ok acc.
Proof.
  unfold do_langs_report.
  destruct (collect_roms_fold counters_ok root false langs_step)
    with (s := {| folder_lang_counts := ∅; total_counts := ∅ |}) (fs := fs)
    as (acc & Hrun & Hok).
  - intros. by apply langs_step_ok.
  - split_and!; simpl; [done|by intros k n ?|by intros f c ?|done].
  - exists acc. split; [|done]. unfold mbind, M_bind. rewrite Hrun. simpl.
    destruct Hok as (_ & _ & _ & Hempty).
    by rewrite (bool_decide_ext _ _ Hempty).
Qed.

(** ** A region always gets a tag *)

(** X16. A stem that holds EUR, Europe or EU between word boundaries
    is tagged eu or en, so the language report never counts it as
    unknown: where English after the region takes eu away, that
    English gives en. *)
Theorem region_gets_a_tag `{!Runtime} (stem : pystr) :
  has_word REGION_WORDS stem →
  py "eu" ∈ detect_languages stem ∨ py "en" ∈ detect_languages stem.
Proof.
  intros (pre & w & suf & tok & -> & Htok & Hm & Hd).
  destruct (rmatch (Cat (Star Dot) (bounded english_words)) (last (pre ++ w)) suf)
    as [|y l] eqn:Hlook.
  - left. eapply (detect_languages_intro _ _ eu_pattern).
    + unfold LANGUAGE_PATTERNS. solve_elem.
    + solve_elem.
    + apply search_eu. exists pre, w, suf, tok. split_and!; [done..|].
      intros (y & Hy)%lookahead_spec. rewrite Hlook in Hy.
      by apply elem_of_nil in Hy.
  - right.
    assert (english_follows (pre ++ w) suf)
      as (gap & w' & rest & tok' & -> & _ & Htok' & Hm' & Hd').
    { apply lookahead_spec. exists y. rewrite Hlook. left. }
    apply (detect_words _ ENGLISH_WORDS); [unfold WORDS; solve_elem|].
    exists ((pre ++ w) ++ gap), w', rest, tok'.
    split_and!; [by rewrite <-!app_assoc|done..].
Qed.

(** ** The properties at work on the small library *)



Lemma sort_conserves_files_witness :
  outcome (do_sort (P ["roms"]%string) keep_english true [] library)
    (λ _ fs', same_files library fs') (λ fs', same_files library fs').
Proof. apply sort_conserves_files. exact library_wf. Defined.

Lemma sort_leaves_the_rest_witness :
  outcome (do_sort (P ["roms"]%string) keep_english true [] library)
    (λ _ fs', fs' !! P ["roms"; "snes"; "Game (USA).sfc"]%string = Some (File 1))
    (λ fs', fs' !! P ["roms"; "snes"; "Game (USA).sfc"]%string = Some (File 1)).
Proof.
  apply sort_leaves_the_rest.
  - exact library_wf.
  - by vm_compute.
  - right. left. by vm_compute.
Defined.

Lemma remerge_leaves_the_rest_witness :
  outcome (do_remerge (P ["roms"]%string) keep_english true [] library_sorted)
    (λ _ fs',
       fs' !! P ["roms"; "Moved ROMS"; "snes"; "jp"; "Game (Japan).sfc"]%string
       = Some (File 2))
    (λ fs',
       fs' !! P ["roms"; "Moved ROMS"; "snes"; "jp"; "Game (Japan).sfc"]%string
       = Some (File 2)).
Proof.
  apply remerge_leaves_the_rest.
  - by vm_compute.
  - right. left. by vm_compute.
Defined.


Lemma region_gets_a_tag_witness :
  py "eu" ∈ detect_languages (py "Game (Europe)")
  ∨ py "en" ∈ detect_languages (py "Game (Europe)").
Proof.
  apply region_gets_a_tag.
  exists (py "Game ("), (py "Europe"), (py ")"), (py "Europe").
  split_and!; [done|unfold REGION_WORDS; solve_elem| |by split].
  repeat constructor.
Defined.
